(** * SenseNote: anchor capture, resolution and wrapping; the stored list

    A shallow embedding of the highlight pipeline of the content script
    ([src/popup.js], second script, lines 571-1432): the text-node walk,
    [findTextWithContext], [createRangeFromHighlight], [applyHighlight],
    [restoreHighlights] with the toast that [showToast] appends for it,
    [createHighlightFromText], the wrapper removal of
    [deleteHighlight] and [scrollToHighlightFromHash]; then of what both
    scripts do with the stored list: [loadHighlights],
    [showHighlightMenu], [showSelectionMenu], [saveHighlightDetails] in
    the content script, and [renderHighlights], [formatDate],
    [toggleFavorite], [updateNote], [handleDelete], [handleClearAll],
    [navigateToHighlight] and the category list of [handleFilter] in the
    popup script (first script, lines 1-570), with [escapeHtml], which
    both have.

    JavaScript strings are sequences of UTF-16 code units ([list N]);
    numbers that the script uses as offsets are integers ([Z], with the
    [-1] of [indexOf] kept as it is).  The page is a tree of element and
    text nodes rooted at [document.body]; a node handle is the path of
    child indexes that leads to it from the body. *)

From Stdlib Require Import List ZArith NArith Bool Lia String Ascii Arith.
From Stdlib Require Import Sorted Permutation DecimalString.
From Equations Require Import Equations.
Import ListNotations.

Set Warnings "-register-all".
Local Open Scope Z_scope.
Local Open Scope list_scope.

(* ===================================================================== *)
(** ** JavaScript strings *)
(* ===================================================================== *)

Module JS.

Definition jsString := list N.

(** Literal strings of the examples, one code unit per character. *)
Definition lit (s : string) : jsString :=
  map N_of_ascii (list_ascii_of_string s).

Definition len (s : jsString) : Z := Z.of_nat (List.length s).

Fixpoint eqb (a b : jsString) : bool :=
  match a, b with
  | [], [] => true
  | x :: a', y :: b' => N.eqb x y && eqb a' b'
  | _, _ => false
  end.

(** [s.startsWith(pat)], on code units. *)
Fixpoint startsWith (pat s : jsString) : bool :=
  match pat, s with
  | [], _ => true
  | x :: pat', y :: s' => N.eqb x y && startsWith pat' s'
  | _ :: _, [] => false
  end.

(** [s.indexOf(pat)]: the least position at which [pat] occurs in [s],
    and [-1] when there is none.  [i] counts the code units already
    passed over. *)
Fixpoint indexOfFrom (i : nat) (pat s : jsString) : Z :=
  if startsWith pat s then Z.of_nat i
  else match s with
       | [] => -1
       | _ :: s' => indexOfFrom (S i) pat s'
       end.

Definition indexOf (s pat : jsString) : Z := indexOfFrom 0 pat s.

(** [s.substring(a, b)]: both arguments are clamped to [0, s.length] and
    swapped when [a > b]. *)
Definition clamp (s : jsString) (a : Z) : nat :=
  Z.to_nat (Z.min (Z.max a 0) (len s)).

Definition substring (s : jsString) (a b : Z) : jsString :=
  let a' := clamp s a in
  let b' := clamp s b in
  let lo := Nat.min a' b' in
  let hi := Nat.max a' b' in
  firstn (hi - lo) (skipn lo s).

(** WhiteSpace and LineTerminator code units of ECMAScript, the ones
    [String.prototype.trim] strips. *)
Definition isWhiteSpace (c : N) : bool :=
  existsb (N.eqb c)
    [9; 10; 11; 12; 13; 32; 160; 5760; 8232; 8233; 8239; 8287; 12288; 65279]%N
  || (N.leb 8192 c && N.leb c 8202).

(** [!s.trim()]: the trimmed string is empty exactly when every code unit
    is white space. *)
Definition isBlank (s : jsString) : bool := forallb isWhiteSpace s.

(** A string that may be missing ([undefined] or [null]); [x || ''] and
    the truthiness test of the script. *)
Definition orEmpty (x : option jsString) : jsString :=
  match x with Some s => s | None => [] end.

Definition truthy (x : option jsString) : bool :=
  match x with Some (_ :: _) => true | _ => false end.

(** [pat] occurs in [s] at position [p]. *)
Definition occursAt (pat s : jsString) (p : nat) : Prop :=
  exists pre post, s = pre ++ pat ++ post /\ List.length pre = p.

End JS.

Import JS.

(* ===================================================================== *)
(** ** The document tree *)
(* ===================================================================== *)

(** The page is the tree below [document.body], made of elements and
    text nodes; comments and processing instructions, which no walk of
    the script returns, are left out, and so are the menus and dialogs
    that the presentation code appends to the body for a moment.  Of the
    toasts, the one that ends [restoreHighlights] is part of the model.
    Elements outside the body are taken to carry no
    [data-highlight-id]. *)

(** The attributes the script reads or writes: the class list, the
    [data-highlight-id] attribute and the background colour. *)
Record attrs := mkAttrs {
  classList : list string;
  highlightId : option string;
  backgroundColor : option string
}.

Inductive node :=
| Text (data : jsString)
| Elem (tag : string) (a : attrs) (children : list node).

Definition path := list nat.

Definition noAttrs : attrs := mkAttrs [] None None.

Definition markerClass : string := "mark2link-highlight".

(** [classList.contains('mark2link-highlight')] *)
Definition isWrapper (a : attrs) : bool :=
  existsb (String.eqb markerClass) (classList a).

(** The attribute selector [[data-highlight-id="id"]]. *)
Definition hasId (id : string) (a : attrs) : bool :=
  match highlightId a with
  | Some i => String.eqb i id
  | None => false
  end.

Fixpoint path_eqb (p q : path) : bool :=
  match p, q with
  | [], [] => true
  | i :: p', j :: q' => Nat.eqb i j && path_eqb p' q'
  | _, _ => false
  end.

Fixpoint getNode (p : path) (n : node) : option node :=
  match p with
  | [] => Some n
  | i :: p' =>
      match n with
      | Elem _ _ cs =>
          match nth_error cs i with
          | Some c => getNode p' c
          | None => None
          end
      | Text _ => None
      end
  end.

(** [node.textContent] *)
Fixpoint textContent (n : node) : jsString :=
  match n with
  | Text s => s
  | Elem _ _ cs => flat_map textContent cs
  end.

(** *** Tree walks *)

Section Children.

Context {A : Type}.
Variable f : node -> list (path * A).

(** The results of the children, in document order, each path prefixed
    with the index of the child it came from. *)
Fixpoint inChildren (i : nat) (cs : list node) : list (path * A) :=
  match cs with
  | [] => []
  | c :: cs' =>
      map (fun '(p, x) => (i :: p, x)) (f c) ++ inChildren (S i) cs'
  end.

End Children.

Section FirstMatch.

Variable f : node -> option path.

(** The first child, in document order, for which [f] answers, with its
    index put in front of the answer. *)
Fixpoint firstMatch (i : nat) (cs : list node) : option path :=
  match cs with
  | [] => None
  | c :: cs' =>
      match f c with
      | Some p => Some (i :: p)
      | None => firstMatch (S i) cs'
      end
  end.

End FirstMatch.

(** Every text node below [n] in document order: its path from [n], the
    attributes of its parent element and its data. *)
Fixpoint textNodesUnder (parent : attrs) (n : node)
  : list (path * (attrs * jsString)) :=
  match n with
  | Text s => [([], (parent, s))]
  | Elem _ a cs => inChildren (textNodesUnder a) 0 cs
  end.

(** The nodes a [TreeWalker] rooted at [document.body] with
    [NodeFilter.SHOW_TEXT] visits.  The root itself is never returned by
    [nextNode]. *)
Definition bodyTextNodes (body : node) : list (path * (attrs * jsString)) :=
  match body with
  | Text _ => []
  | Elem _ a cs => inChildren (textNodesUnder a) 0 cs
  end.

Definition walk (accept : attrs -> jsString -> bool) (body : node)
  : list (path * jsString) :=
  map (fun x => (fst x, snd (snd x)))
      (filter (fun x => accept (fst (snd x)) (snd (snd x)))
              (bodyTextNodes body)).

(** [document.querySelector('[data-highlight-id="id"]')] below the body:
    the first matching element in document order. *)
Fixpoint selectIn (id : string) (n : node) : option path :=
  match n with
  | Text _ => None
  | Elem _ a cs =>
      if hasId id a then Some [] else firstMatch (selectIn id) 0 cs
  end.

Definition querySelector (id : string) (body : node) : option path :=
  match body with
  | Text _ => None
  | Elem _ _ cs => firstMatch (selectIn id) 0 cs
  end.

(** The number of elements below [n] (and [n] itself) that carry the id. *)
Fixpoint countId (id : string) (n : node) : nat :=
  match n with
  | Text _ => 0%nat
  | Elem _ a cs =>
      ((if hasId id a then 1 else 0) + list_sum (map (countId id) cs))%nat
  end.

(** Wrappers for [id] in the document, the body element apart. *)
Definition wrappersOf (id : string) (body : node) : nat :=
  match body with
  | Text _ => 0%nat
  | Elem _ _ cs => list_sum (map (countId id) cs)
  end.

(* ===================================================================== *)
(** ** Live ranges *)
(* ===================================================================== *)

(** A [Range] whose boundary containers are given by their paths. *)
Record range := mkRange {
  startContainer : path;
  startOffset : nat;
  endContainer : path;
  endOffset : nat
}.

Definition nodeLength (n : node) : nat :=
  match n with
  | Text s => List.length s
  | Elem _ _ cs => List.length cs
  end.

(** Tree order of two node handles; an ancestor comes before its
    descendants. *)
Fixpoint path_compare (p q : path) : comparison :=
  match p, q with
  | [], [] => Eq
  | [], _ :: _ => Lt
  | _ :: _, [] => Gt
  | i :: p', j :: q' =>
      match Nat.compare i j with
      | Eq => path_compare p' q'
      | c => c
      end
  end.

(** Boundary point [(p, o)] is before [(q, o')]; the containers the
    script passes are text nodes, which are never one inside another. *)
Definition bpBefore (p : path) (o : nat) (q : path) (o' : nat) : bool :=
  match path_compare p q with
  | Lt => true
  | Eq => Nat.ltb o o'
  | Gt => false
  end.

(** [document.createRange()] followed by [setStart(sn, so)] and
    [setEnd(en, eo)].  [None] is the exception of the DOM (an offset
    beyond the length of its node); when the end would come before
    the start, [setEnd] moves the start to the end. *)
Definition createRange (body : node) (sn : path) (so : Z) (en : path) (eo : Z)
  : option range :=
  match getNode sn body, getNode en body with
  | Some ns, Some ne =>
      if (0 <=? so) && (so <=? Z.of_nat (nodeLength ns))
         && (0 <=? eo) && (eo <=? Z.of_nat (nodeLength ne))
      then
        if bpBefore en (Z.to_nat eo) sn (Z.to_nat so)
        then Some (mkRange en (Z.to_nat eo) en (Z.to_nat eo))
        else Some (mkRange sn (Z.to_nat so) en (Z.to_nat eo))
      else None
  | _, _ => None
  end.

(** [range.collapsed] *)
Definition collapsed (r : range) : bool :=
  path_eqb (startContainer r) (endContainer r)
  && Nat.eqb (startOffset r) (endOffset r).

(** All text nodes of the document, filtered or not, in document order. *)
Definition allText (body : node) : list (path * jsString) :=
  map (fun x => (fst x, snd (snd x))) (bodyTextNodes body).

(** Splits a list of text nodes at the node with handle [p]. *)
Fixpoint splitAtNode (p : path) (l : list (path * jsString))
  : option (list (path * jsString) * jsString * list (path * jsString)) :=
  match l with
  | [] => None
  | (q, s) :: l' =>
      if path_eqb p q then Some ([], s, l')
      else match splitAtNode p l' with
           | Some (pre, s', post) => Some ((q, s) :: pre, s', post)
           | None => None
           end
  end.

(** [range.toString()] for a range whose two containers are text nodes:
    the data of the start node from the start offset, the data of every
    text node between the two containers (whichever they are: blank ones
    and those inside wrappers too), and the data of the end node up to
    the end offset. *)
Definition rangeToString (body : node) (r : range) : option jsString :=
  if path_eqb (startContainer r) (endContainer r) then
    match getNode (startContainer r) body with
    | Some (Text s) =>
        Some (firstn (endOffset r - startOffset r) (skipn (startOffset r) s))
    | _ => None
    end
  else
    match splitAtNode (startContainer r) (allText body) with
    | Some (_, s1, rest) =>
        match splitAtNode (endContainer r) rest with
        | Some (mid, s2, _) =>
            Some (skipn (startOffset r) s1
                  ++ flat_map snd mid
                  ++ firstn (endOffset r) s2)
        | None => None
        end
    | None => None
    end.

(* ===================================================================== *)
(** ** The text linearizer *)
(* ===================================================================== *)

(** One entry of the [textNodes] array, with the names of its fields. *)
Module NodeInfo.

Record t := mk {
  node : path;
  startOffset : Z;
  endOffset : Z;
  text : jsString
}.

End NodeInfo.

Abbreviation run := NodeInfo.t.
Abbreviation mkRun := NodeInfo.mk.

(** The [while (node = walker.nextNode())] loop: every accepted node is
    pushed with the offsets it has in [fullText], then appended to it. *)
Fixpoint collect (nodes : list (path * jsString))
                 (textNodes : list run) (fullText : jsString)
  : list run * jsString :=
  match nodes with
  | [] => (textNodes, fullText)
  | (nd, nodeText) :: rest =>
      let startOffset := len fullText in
      collect rest
        (textNodes ++ [mkRun nd startOffset (startOffset + len nodeText) nodeText])
        (fullText ++ nodeText)
  end.

(** [acceptNode] of [findTextWithContext] (lines 652-658): blank nodes
    and nodes whose parent element carries the marker class are
    rejected. *)
Definition acceptRestore (parent : attrs) (s : jsString) : bool :=
  negb (isBlank s || isWrapper parent).

(** [acceptNode] of [createHighlightFromText] (lines 1047-1052): only
    blank nodes are rejected. *)
Definition acceptCapture (parent : attrs) (s : jsString) : bool :=
  negb (isBlank s).

Definition linearizeRestore (body : node) : list run * jsString :=
  collect (walk acceptRestore body) [] [].

(** The capture walk pushes the same records without their text, which
    it never reads. *)
Definition linearizeCapture (body : node) : list run * jsString :=
  collect (walk acceptCapture body) [] [].

(* ===================================================================== *)
(** ** The resolver: [findTextWithContext] *)
(* ===================================================================== *)

(** Lines 679-702: the offset of the match in [fullText], [-1] when the
    text is not found. *)
Definition findSearchIndex (fullText searchText : jsString)
                           (textBefore textAfter : option jsString) : Z :=
  let contextPattern := orEmpty textBefore ++ searchText ++ orEmpty textAfter in
  let searchIndex := -1 in
  let searchIndex :=
    if truthy textBefore || truthy textAfter then
      let patternIndex := indexOf fullText contextPattern in
      if negb (patternIndex =? -1)
      then patternIndex + len (orEmpty textBefore)
      else searchIndex
    else searchIndex in
  if searchIndex =? -1 then indexOf fullText searchText else searchIndex.

(** The four variables of the loop of lines 708-725. *)
Record located := mkLocated {
  startNode : option path;
  startNodeOffset : Z;
  endNode : option path;
  endNodeOffset : Z
}.

(** [let startNode = null, startNodeOffset = 0; let endNode = null,
    endNodeOffset = 0;] *)
Definition notLocated : located := mkLocated None 0 None 0.

Definition isNull {A} (x : option A) : bool :=
  match x with None => true | Some _ => false end.

(** The two tests of the loop body. *)
Definition markStart (targetStart : Z) (nodeInfo : run) (st : located)
  : located :=
  if (targetStart >=? NodeInfo.startOffset nodeInfo)
     && (targetStart <? NodeInfo.endOffset nodeInfo) && isNull (startNode st)
  then mkLocated (Some (NodeInfo.node nodeInfo))
                 (targetStart - NodeInfo.startOffset nodeInfo)
                 (endNode st) (endNodeOffset st)
  else st.

Definition markEnd (targetEnd : Z) (nodeInfo : run) (st : located)
  : located :=
  if (targetEnd >? NodeInfo.startOffset nodeInfo)
     && (targetEnd <=? NodeInfo.endOffset nodeInfo) && isNull (endNode st)
  then mkLocated (startNode st) (startNodeOffset st)
                 (Some (NodeInfo.node nodeInfo))
                 (targetEnd - NodeInfo.startOffset nodeInfo)
  else st.

Fixpoint locate (targetStart targetEnd : Z) (textNodes : list run)
                (st : located) : located :=
  match textNodes with
  | [] => st
  | nodeInfo :: rest =>
      let st := markStart targetStart nodeInfo st in
      let st := markEnd targetEnd nodeInfo st in
      if negb (isNull (startNode st)) && negb (isNull (endNode st))
      then st
      else locate targetStart targetEnd rest st
  end.

(** Lines 704-732: the range over the span that starts at [searchIndex],
    before its text is verified.  [None] stands for both ways of falling
    through to [return null]: a node was not found, or the DOM threw. *)
Definition materialize (body : node) (textNodes : list run)
                       (searchIndex : Z) (searchText : jsString)
  : option range :=
  let targetStart := searchIndex in
  let targetEnd := searchIndex + len searchText in
  let st := locate targetStart targetEnd textNodes notLocated in
  match startNode st, endNode st with
  | Some sn, Some en =>
      createRange body sn (startNodeOffset st) en (endNodeOffset st)
  | _, _ => None
  end.

(** Lines 734-741: the final verification. *)
Definition verified (body : node) (searchText : jsString) (r : range)
  : option range :=
  match rangeToString body r with
  | Some rangeText => if JS.eqb rangeText searchText then Some r else None
  | None => None
  end.

(** The range matched for a given search index, verified. *)
Definition resolveAt (body : node) (textNodes : list run)
                     (searchIndex : Z) (searchText : jsString)
  : option range :=
  match materialize body textNodes searchIndex searchText with
  | Some r => verified body searchText r
  | None => None
  end.

(** [findTextWithContext(searchText, textBefore, textAfter)]; a missing
    argument is [None]. *)
Definition findTextWithContext (body : node) (searchText : option jsString)
                               (textBefore textAfter : option jsString)
  : option range :=
  match searchText with
  | None => None
  | Some [] => None
  | Some searchText =>
      let '(textNodes, fullText) := linearizeRestore body in
      let searchIndex :=
        findSearchIndex fullText searchText textBefore textAfter in
      if searchIndex =? -1 then None
      else resolveAt body textNodes searchIndex searchText
  end.

(* ===================================================================== *)
(** ** Mutating the tree: the DOM operations the wrapper uses *)
(* ===================================================================== *)

(** The operations below are those of the DOM standard, for ranges
    whose two boundary containers are text nodes, which is what every
    range of the resolver is.  An operation answers [None] where the DOM
    throws, and for a range that is outside this domain. *)

(** Both boundary containers of the range are text nodes of the page. *)
Definition textRange (body : node) (r : range) : bool :=
  match getNode (startContainer r) body, getNode (endContainer r) body with
  | Some (Text _), Some (Text _) => true
  | _, _ => false
  end.

(** The tree with the node at [p] replaced by [new]. *)
Fixpoint replaceAt (p : path) (new : node) (n : node) : node :=
  match p with
  | [] => new
  | i :: p' =>
      match n with
      | Elem t a cs =>
          match nth_error cs i with
          | Some c => Elem t a (firstn i cs ++ replaceAt p' new c :: skipn (S i) cs)
          | None => n
          end
      | Text _ => n
      end
  end.

(** The handle of the parent and the index below it. *)
Definition parentOf (p : path) : option (path * nat) :=
  match p with
  | [] => None
  | _ :: _ => Some (removelast p, last p 0%nat)
  end.

(** The longest common prefix of two handles (the common ancestor) and
    what is left of each. *)
Fixpoint splitCommon (p q : path) : path * path * path :=
  match p, q with
  | i :: p', j :: q' =>
      if Nat.eqb i j
      then let '(c, r1, r2) := splitCommon p' q' in (i :: c, r1, r2)
      else ([], p, q)
  | _, _ => ([], p, q)
  end.

Fixpoint isPrefixOf (p q : path) : bool :=
  match p, q with
  | [], _ => true
  | i :: p', j :: q' => Nat.eqb i j && isPrefixOf p' q'
  | _ :: _, [] => false
  end.

(** Some element is partially contained in the range: it is an ancestor
    of one boundary text node and not of the other.  All elements above
    a text node are above the other one exactly when its parent is. *)
Definition crossesElement (sc ec : path) : bool :=
  negb (isPrefixOf (removelast sc) ec && isPrefixOf (removelast ec) sc).

(** "Extract" on a partially contained child that holds the start of
    the range: everything from the boundary [(p, off)] to the end of [n]
    moves into a clone of [n]; the result is what stays and the clone. *)
Fixpoint extractTail (p : path) (off : nat) (n : node) : option (node * node) :=
  match p, n with
  | [], Text s => Some (Text (firstn off s), Text (skipn off s))
  | i :: p', Elem t a cs =>
      match nth_error cs i with
      | Some c =>
          match extractTail p' off c with
          | Some (stay, out) =>
              Some (Elem t a (firstn i cs ++ [stay]),
                    Elem t a (out :: skipn (S i) cs))
          | None => None
          end
      | None => None
      end
  | _, _ => None
  end.

(** The same for the child that holds the end of the range: everything
    from the start of [n] to the boundary moves into the clone; the
    result is the clone and what stays. *)
Fixpoint extractHead (p : path) (off : nat) (n : node) : option (node * node) :=
  match p, n with
  | [], Text s => Some (Text (firstn off s), Text (skipn off s))
  | j :: p', Elem t a cs =>
      match nth_error cs j with
      | Some c =>
          match extractHead p' off c with
          | Some (out, stay) =>
              Some (Elem t a (firstn j cs ++ [out]),
                    Elem t a (stay :: skipn (S j) cs))
          | None => None
          end
      | None => None
      end
  | _, _ => None
  end.

(** [range.extractContents()]: the document without the contents of the
    range, the children of the fragment, and the boundary point at which
    the range is left collapsed. *)
Definition extractContents (body : node) (r : range)
  : option (node * list node * (path * nat)) :=
  let sc := startContainer r in
  let so := startOffset r in
  let ec := endContainer r in
  let eo := endOffset r in
  if path_eqb sc ec then
    match getNode sc body with
    | Some (Text s) =>
        Some (replaceAt sc (Text (firstn so s ++ skipn eo s)) body,
              [Text (firstn (eo - so) (skipn so s))],
              (sc, so))
    | _ => None
    end
  else
    let '(q, ps, pe) := splitCommon sc ec in
    match ps, pe, getNode q body with
    | i :: ps', j :: pe', Some (Elem t a cs) =>
        if Nat.ltb i j then
          match nth_error cs i, nth_error cs j with
          | Some ci, Some cj =>
              match extractTail ps' so ci, extractHead pe' eo cj with
              | Some (stayi, outi), Some (outj, stayj) =>
                  Some (replaceAt q
                          (Elem t a (firstn i cs ++ [stayi; stayj] ++ skipn (S j) cs))
                          body,
                        outi :: firstn (j - S i) (skipn (S i) cs) ++ [outj],
                        (q, S i))
              | _, _ => None
              end
          | _, _ => None
          end
        else None
    | _, _, _ => None
    end.

(** [range.insertNode(new)] on a collapsed range at the boundary point
    [bp]: a text container is split at the offset and the node goes
    between the halves; an element container receives it as the child
    with that index. *)
Definition insertNode (body : node) (bp : path * nat) (new : node)
  : option node :=
  let '(p, k) := bp in
  match getNode p body with
  | Some (Text s) =>
      match parentOf p with
      | Some (q, i) =>
          match getNode q body with
          | Some (Elem t a cs) =>
              Some (replaceAt q
                      (Elem t a (firstn i cs
                                 ++ [Text (firstn k s); new; Text (skipn k s)]
                                 ++ skipn (S i) cs))
                      body)
          | _ => None
          end
      | None => None
      end
  | Some (Elem t a cs) =>
      Some (replaceAt p (Elem t a (firstn k cs ++ new :: skipn k cs)) body)
  | None => None
  end.

(** The parent of a node just inserted at [bp]. *)
Definition insertedUnder (body : node) (bp : path * nat) : path :=
  match getNode (fst bp) body with
  | Some (Text _) => removelast (fst bp)
  | _ => fst bp
  end.

(** [range.surroundContents(newParent)]: refused when an element is
    partially contained; otherwise the contents are extracted, the new
    parent is inserted at the collapsed range and receives them. *)
Definition surroundContents (body : node) (r : range)
                            (newParent : list node -> node) : option node :=
  if crossesElement (startContainer r) (endContainer r) then None
  else
    match extractContents body r with
    | Some (body1, fragment, bp) => insertNode body1 bp (newParent fragment)
    | None => None
    end.

(** [node.normalize()]: below the node, empty text nodes go and adjacent
    text nodes are merged. *)
Fixpoint mergeText (cs : list node) : list node :=
  match cs with
  | [] => []
  | Text [] :: rest => mergeText rest
  | Text s :: rest =>
      match mergeText rest with
      | Text s' :: rest' => Text (s ++ s') :: rest'
      | rest' => Text s :: rest'
      end
  | e :: rest => e :: mergeText rest
  end.

Fixpoint normalize (n : node) : node :=
  match n with
  | Text s => Text s
  | Elem t a cs => Elem t a (mergeText (map normalize cs))
  end.

Definition normalizeAt (p : path) (body : node) : node :=
  match getNode p body with
  | Some n => replaceAt p (normalize n) body
  | None => body
  end.

(* ===================================================================== *)
(** ** The highlight wrapper *)
(* ===================================================================== *)

(** The wrapper element both branches of [applyHighlight] create. *)
Definition wrapperAttrs (id color : string) : attrs :=
  mkAttrs [markerClass] (Some id) (Some color).

Definition mkWrapper (id color : string) (cs : list node) : node :=
  Elem "span" (wrapperAttrs id color) cs.

(** [applyHighlight(range, highlightId, color)], lines 753-809.  The
    function always returns normally: an exception of the fallback is
    caught by the outer handler, which leaves the document as the
    operations before it made it. *)
Definition applyHighlight (body : node) (r : range) (id color : string) : node :=
  if collapsed r then body
  else
    match surroundContents body r (mkWrapper id color) with
    | Some body' => body'
    | None =>
        match extractContents body r with
        | Some (body1, contents, bp) =>
            match insertNode body1 bp (mkWrapper id color contents) with
            | Some body2 => normalizeAt (insertedUnder body1 bp) body2
            | None => body1
            end
        | None => body
        end
    end.

(** The removal of the wrapper in [deleteHighlight], lines 1347-1355:
    the children of the element move in front of it, the element goes,
    and the parent is normalized. *)
Definition removeHighlightElement (body : node) (id : string) : node :=
  match querySelector id body with
  | Some p =>
      match parentOf p, getNode p body with
      | Some (q, i), Some (Elem _ _ kids) =>
          match getNode q body with
          | Some (Elem t a cs) =>
              replaceAt q
                (normalize (Elem t a (firstn i cs ++ kids ++ skipn (S i) cs)))
                body
          | _ => body
          end
      | _, _ => body
      end
  | None => body
  end.

(* ===================================================================== *)
(** ** Anchors: capture and restoration *)
(* ===================================================================== *)

(** The stored record ([highlightData], lines 1093-1106), with the
    names of its fields; the annotation fields, which the resolver never
    reads, are left out.  [text] is a string in every stored record:
    [createHighlightFromText] is the only place that makes one. *)
Module Highlight.

Record t := mk {
  id : string;
  text : jsString;
  textBefore : option jsString;
  textAfter : option jsString;
  url : string;
  startOffset : Z;
  endOffset : Z;
  color : string
}.

End Highlight.

Abbreviation highlight := Highlight.t.
Abbreviation mkHighlight := Highlight.mk.

(** Lines 1072-1078: the offsets of the selection, found through the
    entry whose node is the start container of the range; both stay [0]
    when there is no such entry. *)
Fixpoint findStart (textNodes : list run) (r : range) (text : jsString)
  : Z * Z :=
  match textNodes with
  | [] => (0, 0)
  | nodeInfo :: rest =>
      if path_eqb (NodeInfo.node nodeInfo) (startContainer r) then
        let startOffset := NodeInfo.startOffset nodeInfo + Z.of_nat (startOffset r) in
        (startOffset, startOffset + len text)
      else findStart rest r text
  end.

Definition contextLength : Z := 50.

(** [createHighlightFromText(range, text, color)], lines 1028-1106: the
    record that is saved.  [id] is the fresh identifier and [url] the
    address without its fragment.  [None] is the early return on an
    empty text. *)
Definition createHighlightFromText (body : node) (r : range) (text : jsString)
                                   (color id url : string) : option highlight :=
  match text with
  | [] => None
  | _ :: _ =>
      let '(textNodes, fullText) := linearizeCapture body in
      let '(startOffset, endOffset) := findStart textNodes r text in
      let textBefore :=
        substring fullText (Z.max 0 (startOffset - contextLength)) startOffset in
      let textAfter :=
        substring fullText endOffset
                  (Z.min (len fullText) (endOffset + contextLength)) in
      Some (mkHighlight id text (Some textBefore) (Some textAfter) url
                        startOffset endOffset color)
  end.

(** [createRangeFromHighlight(highlight)], lines 629-639. *)
Definition createRangeFromHighlight (body : node) (h : highlight)
  : option range :=
  match querySelector (Highlight.id h) body with
  | Some _ => None
  | None =>
      findTextWithContext body (Some (Highlight.text h)) (Highlight.textBefore h) (Highlight.textAfter h)
  end.

(** [deleteHighlight(highlightId)], lines 1335-1360, on the anchors of
    the page and the document; [confirmed] is the answer to the
    [confirm] dialog. *)
Definition deleteHighlight (confirmed : bool) (highlightId : string)
                           (highlights : list highlight) (body : node)
  : list highlight * node :=
  if confirmed then
    (filter (fun h => negb (String.eqb (Highlight.id h) highlightId)) highlights,
     removeHighlightElement body highlightId)
  else (highlights, body).

(** The state [restoreHighlights] threads through its loop: the
    document and the two counters. *)
Record restoreState := mkRestore {
  doc : node;
  successCount : nat;
  failCount : nat
}.

(** One turn of the [forEach] of lines 605-619.  The [catch] of the
    turn is never entered: [findTextWithContext] handles the exception
    of the range itself, [applyHighlight] handles its own, and the
    selector is well formed for the ids the script generates. *)
Definition restoreOne (st : restoreState) (h : highlight) : restoreState :=
  match createRangeFromHighlight (doc st) h with
  | Some r =>
      mkRestore (applyHighlight (doc st) r (Highlight.id h) (Highlight.color h))
                (S (successCount st)) (failCount st)
  | None => mkRestore (doc st) (successCount st) (S (failCount st))
  end.

(** The [forEach] of lines 605-619 as a whole. *)
Definition restoreLoop (highlights : list highlight) (body : node)
  : restoreState :=
  fold_left restoreOne highlights (mkRestore body 0 0).

(** [showToast(message)], lines 1363-1377, as far as it is synchronous:
    a [div] of class [mark2link-toast] whose text is the message becomes
    the last child of the body.  (The timers that give it the class
    [show] and remove it after 2.3 seconds run later.) *)
Definition toastElement (message : jsString) : node :=
  Elem "div" (mkAttrs ["mark2link-toast"%string] None None) [Text message].

Definition showToast (message : jsString) (body : node) : node :=
  match body with
  | Elem tag a cs => Elem tag a (cs ++ [toastElement message])
  | Text _ => body
  end.

(** The template literal of line 624: the check mark U+2713, then
    the count in decimal between the two pieces of text. *)
Definition restoredMessage (successCount : nat) : jsString :=
  10003%N :: lit " Restored "
  ++ lit (NilZero.string_of_uint (Nat.to_uint successCount))
  ++ lit " highlight(s)".

(** [restoreHighlights(highlights)], lines 600-626: the loop, then the
    toast when an anchor was restored. *)
Definition restoreHighlights (highlights : list highlight) (body : node)
  : restoreState :=
  let st := restoreLoop highlights body in
  if (0 <? successCount st)%nat
  then mkRestore (showToast (restoredMessage (successCount st)) (doc st))
                 (successCount st) (failCount st)
  else st.

(* ===================================================================== *)
(** ** Scrolling to the highlight of the fragment *)
(* ===================================================================== *)

(** What the procedure does, in order. *)
Inductive scrollEvent :=
| Wait (ms : nat)
| Lookup (attempt : nat)
| ScrollIntoView (element : path)
| ClearFragment.

Definition maxAttempts : nat := 10.

(** [tryScroll], lines 1388-1411.  [docAt k] is the document at the
    [k]-th attempt: the page may change between two of them. *)
Equations tryScroll (docAt : nat -> node) (highlightId : string)
                    (attempts : nat) : list scrollEvent
  by wf (maxAttempts - attempts)%nat lt :=
  tryScroll docAt highlightId attempts
    with querySelector highlightId (docAt (S attempts)) := {
    | Some highlightElement =>
        [Lookup (S attempts); ScrollIntoView highlightElement;
         Wait 1000; ClearFragment]
    | None with lt_dec (S attempts) maxAttempts := {
      | left _ =>
          Lookup (S attempts) :: Wait 500
            :: tryScroll docAt highlightId (S attempts)
      | right _ => [Lookup (S attempts); ClearFragment] } }.
Next Obligation.
  change (maxAttempts - S attempts < maxAttempts - attempts)%nat. lia.
Qed.

Definition fragmentPrefix : string := "#sensenote-".

(** [scrollToHighlightFromHash()], lines 1380-1416, for the fragment
    [hash] of the address. *)
Definition scrollToHighlightFromHash (hash : string) (docAt : nat -> node)
  : list scrollEvent :=
  if String.prefix fragmentPrefix hash then
    let highlightId :=
      String.substring (String.length fragmentPrefix)
                       (String.length hash - String.length fragmentPrefix) hash in
    Wait 500 :: tryScroll docAt highlightId 0
  else [].

(* ===================================================================== *)
(** ** Worked documents *)
(* ===================================================================== *)

Definition el (tag : string) (cs : list node) : node := Elem tag noAttrs cs.
Definition txt (s : string) : node := Text (lit s).

Module Demo.

(** [<body><p>the cat sat</p><p>a cat ran</p></body>] *)
Definition twoCats : node :=
  el "body" [el "p" [txt "the cat sat"]; el "p" [txt "a cat ran"]].

(** [<body><p>Hello <b>big </b>world</p></body>] *)
Definition helloBig : node :=
  el "body" [el "p" [txt "Hello "; el "b" [txt "big "]; txt "world"]].

(** The selection of "Hello big" in it. *)
Definition helloBigSelection : range := mkRange [0; 0]%nat 0 [0; 1; 0]%nat 3.

(** [<body><p>ab</p><p>cd</p></body>] *)
Definition twoRuns : node :=
  el "body" [el "p" [txt "ab"]; el "p" [txt "cd"]].

(** [<body><p><span class="mark2link-highlight" data-highlight-id="hl-1">abc</span>def</p></body>] *)
Definition wrappedAbc : node :=
  el "body" [el "p" [mkWrapper "hl-1" "#ffeb3b" [txt "abc"]; txt "def"]].

(** [<body><p>foo<b> </b>bar</p></body>] *)
Definition blankBetween : node :=
  el "body" [el "p" [txt "foo"; el "b" [txt " "]; txt "bar"]].

(** [<body><p>aa<b>bb</b>cc</p></body>] and two anchors that overlap. *)
Definition overlap : node :=
  el "body" [el "p" [txt "aa"; el "b" [txt "bb"]; txt "cc"]].

Definition anchorX : highlight :=
  mkHighlight "hl-X" (lit "abb") None None "https://example.org/" 0 0 "#ffeb3b".

Definition anchorY : highlight :=
  mkHighlight "hl-Y" (lit "bc") None None "https://example.org/" 0 0 "#90caf9".

(** [<body><p>x<b> </b>yz<i>wx</i>y</p></body>] and two anchors stored
    without context. *)
Definition straddle : node :=
  el "body"
     [el "p" [txt "x"; el "b" [txt " "]; txt "yz"; el "i" [txt "wx"]; txt "y"]].

Definition anchorA : highlight :=
  mkHighlight "hl-A" (lit "xy") None None "https://example.org/" 0 0 "#ffeb3b".

Definition anchorB : highlight :=
  mkHighlight "hl-B" (lit "yzwx") None None "https://example.org/" 0 0 "#90caf9".

End Demo.

(* ===================================================================== *)
(** ** Properties the proofs are stated with *)
(* ===================================================================== *)

(** The runs follow one another from offset [from]. *)
Fixpoint contiguous (from : Z) (runs : list run) : Prop :=
  match runs with
  | [] => True
  | r :: rest =>
      NodeInfo.startOffset r = from
      /\ NodeInfo.endOffset r = from + len (NodeInfo.text r)
      /\ contiguous (NodeInfo.endOffset r) rest
  end.

(** The start found by [locate], if any, is the node of a run whose
    interval [[start, end)] holds [targetStart]. *)
Definition startOk (runs : list run) (targetStart : Z) (st : located) : Prop :=
  forall sn, startNode st = Some sn ->
    exists r, In r runs /\ NodeInfo.node r = sn
              /\ NodeInfo.startOffset r <= targetStart < NodeInfo.endOffset r
              /\ startNodeOffset st = targetStart - NodeInfo.startOffset r.

(** The end found by [locate], if any, is the node of a run whose
    interval [(start, end]] holds [targetEnd]. *)
Definition endOk (runs : list run) (targetEnd : Z) (st : located) : Prop :=
  forall en, endNode st = Some en ->
    exists r, In r runs /\ NodeInfo.node r = en
              /\ NodeInfo.startOffset r < targetEnd <= NodeInfo.endOffset r
              /\ endNodeOffset st = targetEnd - NodeInfo.startOffset r.

(** The claim as the specification words it: an end offset equal to the
    end of one run and the start of the next resolves to the start of the
    next run. *)
Definition endOnBoundaryGoesToNextRun : Prop :=
  forall (body : node) (textNodes : list run) (fullText : jsString)
         (targetStart targetEnd : Z) (pre post : list run) (r1 r2 : run),
    linearizeRestore body = (textNodes, fullText) ->
    textNodes = pre ++ r1 :: r2 :: post ->
    0 <= targetStart < targetEnd ->
    targetEnd = NodeInfo.endOffset r1 ->
    let st := locate targetStart targetEnd textNodes notLocated in
    endNode st = Some (NodeInfo.node r2) /\ endNodeOffset st = 0.

(** The number of times the element was looked up. *)
Definition lookups (trace : list scrollEvent) : nat :=
  List.length (filter (fun e => match e with Lookup _ => true | _ => false end)
                      trace).

(** The polls [from], [from + 1], ..., each followed by the delay before
    the next one. *)
Definition failedPolls (from count : nat) : list scrollEvent :=
  flat_map (fun k => [Lookup k; Wait 500]) (seq from count).

(** The tag and the attributes of the root stay. *)
Definition sameRoot (n m : node) : Prop :=
  match n, m with
  | Text _, Text _ => True
  | Elem t a _, Elem t' a' _ => t = t' /\ a = a'
  | _, _ => False
  end.

(** [document.body] is an element. *)
Definition isElement (n : node) : bool :=
  match n with Elem _ _ _ => true | Text _ => false end.

(** The ids counted over a list of siblings. *)
Definition countIds (id : string) (cs : list node) : nat :=
  list_sum (map (countId id) cs).

(** One cycle for an anchor: resolve it, apply the wrapper, delete the
    highlight again. *)
Definition roundTrip (h : highlight) (body : node) : node :=
  match createRangeFromHighlight body h with
  | Some r =>
      snd (deleteHighlight true (Highlight.id h) [h]
             (applyHighlight body r (Highlight.id h) (Highlight.color h)))
  | None => body
  end.

(** The round trip as the specification words it, on the text of the
    linearizer: capture, resolve, apply, remove. *)
Definition roundTripKeepsLinearText : Prop :=
  forall (body : node) (selection : range) (text : jsString)
         (color id url : string) (h : highlight),
    createHighlightFromText body selection text color id url = Some h ->
    snd (linearizeRestore (roundTrip h body)) = snd (linearizeRestore body).

(** The idempotence as the specification words it: on a page without
    wrappers, an id that one element at most carries after restoration
    has been invoked is carried by one element at most after it has been
    invoked a second time. *)
Definition secondRestorationAddsNoWrapper : Prop :=
  forall (highlights : list highlight) (body : node),
    NoDup (map Highlight.id highlights) ->
    (forall id, wrappersOf id body = 0%nat) ->
    forall id,
      (wrappersOf id (doc (restoreHighlights highlights body)) <= 1)%nat ->
      (wrappersOf id
         (doc (restoreHighlights highlights
                 (doc (restoreHighlights highlights body)))) <= 1)%nat.

(* ===================================================================== *)
(** ** The stored records and the page's share of them *)
(* ===================================================================== *)

(** The record as [chrome.storage.local] holds it (lines 1093-1106): the
    anchor fields above, and the fields the resolver never reads.
    [timestamp] and [lastModified] are the time values of the ISO
    strings, which is all [new Date(...)] takes from them; [lastModified]
    and [favorite] are not there until they are first written. *)
Module Stored.

Record t := mk {
  anchor : highlight;
  pageTitle : jsString;
  note : jsString;
  category : jsString;
  timestamp : Z;
  lastModified : option Z;
  favorite : option bool
}.

Definition id (h : t) : string := Highlight.id (anchor h).
Definition url (h : t) : string := Highlight.url (anchor h).
Definition color (h : t) : string := Highlight.color (anchor h).
Definition text (h : t) : jsString := Highlight.text (anchor h).

End Stored.

Abbreviation stored := Stored.t.

(** [s.split('#')[0]]: what comes before the first [#], all of [s] when
    it has none. *)
Fixpoint beforeHash (s : string) : string :=
  match s with
  | EmptyString => EmptyString
  | String c rest =>
      if Ascii.eqb c "#" then EmptyString else String c (beforeHash rest)
  end.

(** [window.location.hash] of the address [href]: the fragment with its
    [#], and the empty string when the address has no fragment or an
    empty one. *)
Fixpoint locationHash (href : string) : string :=
  match href with
  | EmptyString => EmptyString
  | String c rest =>
      if Ascii.eqb c "#"
      then match rest with EmptyString => EmptyString | String _ _ => href end
      else locationHash rest
  end.

(** [highlightData] with its annotation fields, as lines 1093-1106 build
    it around the anchor; [title] is [document.title] and [now] the time
    of the capture. *)
Definition highlightData (h : highlight) (title : jsString) (now : Z) : stored :=
  Stored.mk h title [] [] now None None.

(** [createHighlightFromText] with its two callbacks (lines 1109-1112),
    on the stored list and the list of the page: the new record is
    pushed on both.  Nothing is stored on the early return. *)
Definition saveHighlight (body : node) (href : string) (title : jsString)
                         (now : Z) (r : range) (text : jsString)
                         (color id : string)
                         (allHighlights highlights : list stored)
  : list stored * list stored :=
  match createHighlightFromText body r text color id (beforeHash href) with
  | Some h =>
      (allHighlights ++ [highlightData h title now],
       highlights ++ [highlightData h title now])
  | None => (allHighlights, highlights)
  end.

(** [loadHighlights()] of the content script, lines 582-597: the list of
    the page. *)
Definition loadHighlights (href : string) (allHighlights : list stored)
  : list stored :=
  let pageUrl := beforeHash href in
  filter (fun h => String.eqb (beforeHash (Stored.url h)) pageUrl) allHighlights.

(** What the content script does when it starts (lines 582-597 and
    600-626): the records of the page are loaded and restored. *)
Definition loadAndRestore (href : string) (allHighlights : list stored)
                          (body : node) : restoreState :=
  restoreHighlights (map Stored.anchor (loadHighlights href allHighlights)) body.

(** [arr.find(h => h.id === highlightId)] *)
Definition findById (highlightId : string) (l : list stored) : option stored :=
  find (fun h => String.eqb (Stored.id h) highlightId) l.

(** [showHighlightMenu(highlightId, x, y)], lines 882-898: the list of
    the page is replaced by the stored records whose [url] is the address
    as it is, and the popup is shown for the first of them with the id
    ([None]: the error is logged and nothing is shown). *)
Definition showHighlightMenu (href highlightId : string)
                             (allHighlights : list stored)
  : list stored * option stored :=
  let pageUrl := href in
  let highlights :=
    filter (fun h => String.eqb (Stored.url h) pageUrl) allHighlights in
  (highlights, findById highlightId highlights).

(** The object [find] returns is changed in place: the first record with
    the id is the one that changes. *)
Fixpoint updateFound (highlightId : string) (f : stored -> stored)
                     (l : list stored) : list stored :=
  match l with
  | [] => []
  | h :: rest =>
      if String.eqb (Stored.id h) highlightId then f h :: rest
      else h :: updateFound highlightId f rest
  end.

(** [if (note !== null) highlight.note = note; if (category !== null)
    highlight.category = category;] with [None] for [null]. *)
Definition setDetails (note category : option jsString) (h : stored) : stored :=
  Stored.mk (Stored.anchor h) (Stored.pageTitle h)
            (match note with Some n => n | None => Stored.note h end)
            (match category with Some c => c | None => Stored.category h end)
            (Stored.timestamp h) (Stored.lastModified h) (Stored.favorite h).

Definition setLastModified (now : Z) (h : stored) : stored :=
  Stored.mk (Stored.anchor h) (Stored.pageTitle h) (Stored.note h)
            (Stored.category h) (Stored.timestamp h) (Some now)
            (Stored.favorite h).

(** [saveHighlightDetails(highlightId, note, category)], lines 1258-1278,
    on the stored list and the list of the page.  Nothing is written when
    no stored record has the id. *)
Definition saveHighlightDetails (highlightId : string)
                                (note category : option jsString) (now : Z)
                                (allHighlights highlights : list stored)
  : list stored * list stored :=
  match findById highlightId allHighlights with
  | Some _ =>
      (updateFound highlightId
         (fun h => setLastModified now (setDetails note category h))
         allHighlights,
       updateFound highlightId (setDetails note category) highlights)
  | None => (allHighlights, highlights)
  end.

(** [saveNote(highlightId, note)], lines 1253-1255. *)
Definition saveNote (highlightId : string) (note : jsString) (now : Z)
                    (allHighlights highlights : list stored)
  : list stored * list stored :=
  saveHighlightDetails highlightId (Some note) None now allHighlights highlights.

(** The stored list after [deleteHighlight(highlightId)], line 1340. *)
Definition deleteStored (confirmed : bool) (highlightId : string)
                        (allHighlights : list stored) : list stored :=
  if confirmed then
    filter (fun h => negb (String.eqb (Stored.id h) highlightId)) allHighlights
  else allHighlights.

(** [escapeHtml(text)], lines 1246-1250 and 251-255: the text becomes
    the only child of a [div], and [innerHTML] serializes that text node,
    which escapes four characters and no other. *)
Definition escapeUnit (c : N) : jsString :=
  if N.eqb c 38 then lit "&amp;"
  else if N.eqb c 160 then lit "&nbsp;"
  else if N.eqb c 60 then lit "&lt;"
  else if N.eqb c 62 then lit "&gt;"
  else [c].

Definition escapeHtml (text : jsString) : jsString := flat_map escapeUnit text.

(* ===================================================================== *)
(** ** The popup script *)
(* ===================================================================== *)

Section ArraySort.

Context {A : Type}.
Variable compareFn : A -> A -> Z.

(** [x] goes in front of the first element it does not come after. *)
Fixpoint insertSorted (x : A) (l : list A) : list A :=
  match l with
  | [] => [x]
  | y :: l' => if compareFn x y >? 0 then y :: insertSorted x l' else x :: l
  end.

(** [arr.sort(compareFn)].  ECMAScript makes the sort stable, and for a
    consistent comparator every stable sort gives the same array: this
    one inserts the elements from the last to the first. *)
Fixpoint arraySort (l : list A) : list A :=
  match l with
  | [] => []
  | x :: l' => insertSorted x (arraySort l')
  end.

End ArraySort.

(** The comparison [sort()] makes without a comparator, on strings: code
    unit by code unit. *)
Fixpoint compareStrings (a b : jsString) : Z :=
  match a, b with
  | [], [] => 0
  | [], _ :: _ => -1
  | _ :: _, [] => 1
  | x :: a', y :: b' =>
      if N.ltb x y then -1
      else if N.ltb y x then 1
      else compareStrings a' b'
  end.

(** [[...new Set(l)]]: the values in the order of their first
    occurrence. *)
Fixpoint setOf (l : list jsString) : list jsString :=
  match l with
  | [] => []
  | x :: l' => x :: filter (fun y => negb (JS.eqb x y)) (setOf l')
  end.

(** [c && c.trim()] as a condition. *)
Definition nonBlank (c : jsString) : bool :=
  match c with
  | [] => false
  | _ :: _ => negb (isBlank c)
  end.

(** [existingCategories] of [showNoteDialog], line 1161, and the tags
    offered below the input (line 1187). *)
Definition existingCategories (allHighlights : list stored) : list jsString :=
  setOf (filter nonBlank (map Stored.category allHighlights)).

Definition categoryTags (allHighlights : list stored) : list jsString :=
  firstn 5 (existingCategories allHighlights).

Module Popup.

(** [currentFilters], lines 8-13. *)
Record filters := mkFilters {
  favoriteOnly : bool;
  color : string;
  category : jsString;
  dateSort : string
}.

Definition all : string := "all".

(** The filters the popup starts with and [Reset Filters] puts back. *)
Definition defaultFilters : filters := mkFilters false all (lit all) "newest".

(** What [renderHighlights] leaves in the popup: the empty state with
    its heading, or one card for each record of the list, in order. *)
Inductive rendering :=
| EmptyState (heading : string)
| Cards (cards : list stored).

(** [h.favorite === true] *)
Definition isFavorite (h : stored) : bool :=
  match Stored.favorite h with
  | Some true => true
  | _ => false
  end.

(** The three filters of lines 59-72. *)
Definition applyFilters (currentFilters : filters) (allHighlights : list stored)
  : list stored :=
  let filteredHighlights := allHighlights in
  let filteredHighlights :=
    if favoriteOnly currentFilters
    then filter isFavorite filteredHighlights
    else filteredHighlights in
  let filteredHighlights :=
    if negb (String.eqb (color currentFilters) all)
    then filter (fun h => String.eqb (Stored.color h) (color currentFilters))
                filteredHighlights
    else filteredHighlights in
  if negb (JS.eqb (category currentFilters) (lit all))
  then filter (fun h => JS.eqb (Stored.category h) (category currentFilters))
              filteredHighlights
  else filteredHighlights.

(** The sort of lines 75-79. *)
Definition sortByDate (currentFilters : filters) (l : list stored) : list stored :=
  if String.eqb (dateSort currentFilters) "newest"
  then arraySort (fun a b => Stored.timestamp b - Stored.timestamp a) l
  else arraySort (fun a b => Stored.timestamp a - Stored.timestamp b) l.

(** [renderHighlights()], lines 53-103. *)
Definition renderHighlights (currentFilters : filters)
                            (allHighlights : list stored) : rendering :=
  let filteredHighlights :=
    sortByDate currentFilters (applyFilters currentFilters allHighlights) in
  match filteredHighlights with
  | [] =>
      if (0 <? List.length allHighlights)%nat
      then EmptyState "No matches found"
      else EmptyState "No highlights yet"
  | _ :: _ => Cards filteredHighlights
  end.

(** The label [formatDate] gives: a relative one, or the date as
    [toLocaleDateString] writes it. *)
Inductive dateLabel :=
| Relative (label : string)
| LocaleDate.

(** [`${n}`] for an integer. *)
Definition decimal (n : Z) : string := NilZero.string_of_int (Z.to_int n).

(** [`${n} unit${n !== 1 ? "s" : ""} ago`] *)
Definition ago (n : Z) (unit : string) : string :=
  (decimal n ++ " " ++ unit ++ (if negb (Z.eqb n 1) then "s" else "") ++ " ago")%string.

(** [formatDate(date)], lines 230-248; [now] and [date] are the time
    values of the two dates, whose difference is an integer number of
    milliseconds, and [Math.floor] of its quotients is the integer
    division. *)
Definition formatDate (now date : Z) : dateLabel :=
  let diffMs := now - date in
  let diffMins := diffMs / 60000 in
  let diffHours := diffMs / 3600000 in
  let diffDays := diffMs / 86400000 in
  if diffMins <? 1 then Relative "Just now"
  else if diffMins <? 60 then Relative (ago diffMins "min")
  else if diffHours <? 24 then Relative (ago diffHours "hour")
  else if diffDays <? 7 then Relative (ago diffDays "day")
  else LocaleDate.

(** [highlight.favorite = !highlight.favorite]: a flag that is missing
    counts as false. *)
Definition flipFavorite (h : stored) : stored :=
  Stored.mk (Stored.anchor h) (Stored.pageTitle h) (Stored.note h)
            (Stored.category h) (Stored.timestamp h) (Stored.lastModified h)
            (Some (negb (match Stored.favorite h with
                         | Some b => b
                         | None => false
                         end))).

(** [toggleFavorite(highlightId)], lines 413-426: the stored list
    afterwards. *)
Definition toggleFavorite (highlightId : string) (highlights : list stored)
  : list stored :=
  match findById highlightId highlights with
  | Some _ => updateFound highlightId flipFavorite highlights
  | None => highlights
  end.

(** [updateNote(highlightId, note)], lines 311-325. *)
Definition updateNote (highlightId : string) (note : jsString) (now : Z)
                      (highlights : list stored) : list stored :=
  match findById highlightId highlights with
  | Some _ =>
      updateFound highlightId
        (fun h => setLastModified now (setDetails (Some note) None h))
        highlights
  | None => highlights
  end.

(** [handleDelete(highlight)], lines 328-345; [confirmed] is the answer
    to the [confirm] dialog. *)
Definition handleDelete (confirmed : bool) (highlight : stored)
                        (highlights : list stored) : list stored :=
  if confirmed then
    filter (fun h => negb (String.eqb (Stored.id h) (Stored.id highlight)))
           highlights
  else highlights.

(** [handleClearAll()], lines 355-367. *)
Definition handleClearAll (confirmed : bool) (highlights : list stored)
  : list stored :=
  if confirmed then [] else highlights.

(** [navigateToHighlight(highlight)], lines 348-352: the address the new
    tab is opened with. *)
Definition navigateToHighlight (highlight : stored) : string :=
  Stored.url highlight.

(** [categories] of [handleFilter], line 436. *)
Definition categories (allHighlights : list stored) : list jsString :=
  arraySort compareStrings
    (setOf (filter nonBlank (map Stored.category allHighlights))).

(** What [createHighlightCard] (lines 106-170) reads of a record: the
    anchor, the title, the note, the category, the date, and whether the
    favorite flag is set. *)
Definition cardData (h : stored)
  : highlight * jsString * jsString * jsString * Z * bool :=
  (Stored.anchor h, Stored.pageTitle h, Stored.note h, Stored.category h,
   Stored.timestamp h,
   match Stored.favorite h with Some b => b | None => false end).

End Popup.

(* ===================================================================== *)
(** ** The selection menu *)
(* ===================================================================== *)

(** [s.trim()]: the white space at both ends goes. *)
Fixpoint trimStart (s : jsString) : jsString :=
  match s with
  | [] => []
  | c :: s' => if isWhiteSpace c then trimStart s' else s
  end.

Definition trimEnd (s : jsString) : jsString := rev (trimStart (rev s)).

Definition trim (s : jsString) : jsString := trimEnd (trimStart s).

(** [showSelectionMenu(range, x, y)], lines 868-879, followed by the
    click on one colour of the menu: [createHighlightFromText] receives
    the range as it is and its text trimmed.  The range is one between
    text nodes; the answer otherwise is [None]. *)
Definition showSelectionMenu (body : node) (r : range) (color id url : string)
  : option highlight :=
  match rangeToString body r with
  | Some s => createHighlightFromText body r (trim s) color id url
  | None => None
  end.

(* ===================================================================== *)
(** ** Properties of the stored list *)
(* ===================================================================== *)

(** The stored records all have an address without fragment, as every
    record that [createHighlightFromText] makes has. *)
Definition fragmentFree (l : list stored) : Prop :=
  forall h, In h l -> beforeHash (Stored.url h) = Stored.url h.

(** [x] may come before [y] in an array sorted with [compareFn]. *)
Definition inOrder {A} (compareFn : A -> A -> Z) (x y : A) : Prop :=
  compareFn x y <= 0.

(** The record passes the filters that are set. *)
Definition shown (currentFilters : Popup.filters) (h : stored) : Prop :=
  (Popup.favoriteOnly currentFilters = true -> Stored.favorite h = Some true)
  /\ (Popup.color currentFilters <> Popup.all ->
      Stored.color h = Popup.color currentFilters)
  /\ (Popup.category currentFilters <> lit Popup.all ->
      Stored.category h = Popup.category currentFilters).

(** The same as a test on the record. *)
Definition passes (currentFilters : Popup.filters) (h : stored) : bool :=
  (negb (Popup.favoriteOnly currentFilters)
   || match Stored.favorite h with Some true => true | _ => false end)
  && (String.eqb (Popup.color currentFilters) Popup.all
      || String.eqb (Stored.color h) (Popup.color currentFilters))
  && (JS.eqb (Popup.category currentFilters) (lit Popup.all)
      || JS.eqb (Stored.category h) (Popup.category currentFilters)).

(** The order of the cards: newest first when [dateSort] is "newest",
    oldest first otherwise. *)
Definition byDate (currentFilters : Popup.filters) (a b : stored) : Prop :=
  if String.eqb (Popup.dateSort currentFilters) "newest"
  then Stored.timestamp b <= Stored.timestamp a
  else Stored.timestamp a <= Stored.timestamp b.

(* ===================================================================== *)
(** ** Properties of the wrappers *)
(* ===================================================================== *)

(** The elements below [n], and [n] itself, that carry the id, in
    document order: the tag, the attributes and the text content of
    each. *)
Fixpoint elementsWithId (id : string) (n : node)
  : list (string * attrs * jsString) :=
  match n with
  | Text _ => []
  | Elem t a cs =>
      (if hasId id a then [(t, a, flat_map textContent cs)] else [])
      ++ flat_map (elementsWithId id) cs
  end.

(** The same for the document, the body element apart: what
    [querySelectorAll('[data-highlight-id="id"]')] would list. *)
Definition wrappersWithId (id : string) (body : node)
  : list (string * attrs * jsString) :=
  match body with
  | Text _ => []
  | Elem _ _ cs => flat_map (elementsWithId id) cs
  end.

(** The text nodes below [n] with their data, and those below a list of
    siblings that starts at index [k]. *)
Definition textList (parent : attrs) (n : node) : list (path * jsString) :=
  map (fun x => (fst x, snd (snd x))) (textNodesUnder parent n).

Definition childTextList (a : attrs) (k : nat) (cs : list node)
  : list (path * jsString) :=
  map (fun x => (fst x, snd (snd x))) (inChildren (textNodesUnder a) k cs).

(** A handle and its data, seen from above the node at [q]. *)
Definition under (q : path) (x : path * jsString) : path * jsString :=
  (q ++ fst x, snd x).

(* ===================================================================== *)
(** * Verification *)
(* ===================================================================== *)

(* ===================================================================== *)
(** ** Facts about strings *)
(* ===================================================================== *)

Lemma jsString_eqb_eq (a b : jsString) : JS.eqb a b = true <-> a = b.
Proof.
  revert b. induction a as [|x a IH]; intros [|y b]; simpl;
    try (split; [discriminate | congruence]); try tauto.
  rewrite andb_true_iff, N.eqb_eq, IH. split.
  - intros [-> ->]. reflexivity.
  - intros H. injection H as -> ->. auto.
Qed.

Lemma startsWith_app (pat s : jsString) :
  startsWith pat s = true <-> exists post, s = pat ++ post.
Proof.
  revert s. induction pat as [|x pat IH]; intros s; simpl.
  - split; [exists s; reflexivity | reflexivity].
  - destruct s as [|y s].
    + split; [discriminate | intros [post H]; discriminate].
    + rewrite andb_true_iff, N.eqb_eq, IH. split.
      * intros [-> [post ->]]. exists post. reflexivity.
      * intros [post H]. injection H as -> ->. split; [reflexivity | eauto].
Qed.

Lemma occursAt_0 (pat s : jsString) :
  occursAt pat s 0 <-> startsWith pat s = true.
Proof.
  rewrite startsWith_app. split.
  - intros (pre & post & -> & Hl). destruct pre; [| discriminate].
    exists post. reflexivity.
  - intros [post ->]. exists [], post. split; reflexivity.
Qed.

Lemma occursAt_S (pat : jsString) (x : N) (s : jsString) (q : nat) :
  occursAt pat (x :: s) (S q) <-> occursAt pat s q.
Proof.
  split.
  - intros (pre & post & H & Hl). destruct pre as [|y pre]; [discriminate |].
    simpl in H. injection H as -> ->. exists pre, post. simpl in Hl. split; [reflexivity | lia].
  - intros (pre & post & -> & Hl). exists (x :: pre), post. simpl. split; [reflexivity | lia].
Qed.

Lemma occursAt_nil (pat : jsString) (q : nat) :
  occursAt pat [] q -> q = 0%nat.
Proof.
  intros (pre & post & H & Hl). destruct pre; [simpl in Hl; lia | discriminate].
Qed.

(** The two outcomes of [indexOf]: [-1] and no occurrence at all, or the
    leftmost occurrence. *)
Lemma indexOfFrom_cases (pat s : jsString) (i : nat) :
  (indexOfFrom i pat s = -1 /\ forall q, ~ occursAt pat s q)
  \/ (exists p, indexOfFrom i pat s = Z.of_nat (i + p)
                /\ occursAt pat s p
                /\ forall q, occursAt pat s q -> (p <= q)%nat).
Proof.
  revert i. induction s as [|x s IH]; intros i; simpl.
  - destruct (startsWith pat []) eqn:E.
    + right. exists 0%nat. rewrite Nat.add_0_r.
      split; [reflexivity | split; [apply occursAt_0; assumption | intros; lia]].
    + left. split; [reflexivity |]. intros q H.
      pose proof (occursAt_nil _ _ H) as ->.
      apply occursAt_0 in H. congruence.
  - destruct (startsWith pat (x :: s)) eqn:E.
    + right. exists 0%nat. rewrite Nat.add_0_r.
      split; [reflexivity | split; [apply occursAt_0; assumption | intros; lia]].
    + destruct (IH (S i)) as [[H1 H2] | (p & H1 & H2 & H3)].
      * left. split; [assumption |]. intros [|q] H.
        -- apply occursAt_0 in H. congruence.
        -- apply occursAt_S in H. exact (H2 q H).
      * right. exists (S p). split; [rewrite H1; f_equal; lia |].
        split; [apply occursAt_S; assumption |].
        intros [|q] H.
        -- apply occursAt_0 in H. congruence.
        -- apply occursAt_S in H. apply H3 in H. lia.
Qed.

Lemma indexOf_cases (s pat : jsString) :
  (indexOf s pat = -1 /\ forall q, ~ occursAt pat s q)
  \/ (exists p, indexOf s pat = Z.of_nat p
                /\ occursAt pat s p
                /\ forall q, occursAt pat s q -> (p <= q)%nat).
Proof. exact (indexOfFrom_cases pat s 0). Qed.

Lemma indexOf_empty (s : jsString) : indexOf s [] = 0.
Proof. unfold indexOf. destruct s; reflexivity. Qed.

Lemma indexOf_absent (s pat : jsString) :
  (forall q, ~ occursAt pat s q) -> indexOf s pat = -1.
Proof.
  intros H. destruct (indexOf_cases s pat) as [[E _] | (p & _ & Hp & _)];
    [assumption | destruct (H p Hp)].
Qed.

Lemma indexOf_leftmost (s pat : jsString) (p : nat) :
  occursAt pat s p -> (forall q, occursAt pat s q -> (p <= q)%nat) ->
  indexOf s pat = Z.of_nat p.
Proof.
  intros Hp Hmin. destruct (indexOf_cases s pat) as [[_ H] | (p' & E & Hp' & Hmin')].
  - destruct (H p Hp).
  - rewrite E. f_equal. apply Nat.le_antisymm; auto.
Qed.

Lemma truthy_orEmpty (x : option jsString) :
  truthy x = true <-> orEmpty x <> [].
Proof.
  destruct x as [[|c s]|]; simpl; split; congruence.
Qed.

(* ===================================================================== *)
(** ** The search step *)
(* ===================================================================== *)

(** With a context, a pattern that occurs decides the search. *)
Lemma findSearchIndex_context (fullText searchText : jsString)
      (textBefore textAfter : option jsString) (p : nat) :
  truthy textBefore || truthy textAfter = true ->
  indexOf fullText (orEmpty textBefore ++ searchText ++ orEmpty textAfter)
    = Z.of_nat p ->
  findSearchIndex fullText searchText textBefore textAfter
    = Z.of_nat (p + List.length (orEmpty textBefore)).
Proof.
  intros Hctx Hidx. unfold findSearchIndex, len. rewrite Hctx, Hidx.
  destruct (Z.eqb_spec (Z.of_nat p) (-1)) as [E | _]; [lia |]. simpl negb. cbv iota.
  destruct (Z.eqb_spec (Z.of_nat p + Z.of_nat (List.length (orEmpty textBefore))) (-1))
    as [E | _]; lia.
Qed.

(** Without a usable context match, the search is the bare one. *)
Lemma findSearchIndex_fallback (fullText searchText : jsString)
      (textBefore textAfter : option jsString) :
  truthy textBefore || truthy textAfter = false
  \/ indexOf fullText (orEmpty textBefore ++ searchText ++ orEmpty textAfter) = -1 ->
  findSearchIndex fullText searchText textBefore textAfter
    = indexOf fullText searchText.
Proof.
  intros H. unfold findSearchIndex.
  destruct (truthy textBefore || truthy textAfter); [| reflexivity].
  destruct H as [H | H]; [discriminate |]. rewrite H. reflexivity.
Qed.

(* ===================================================================== *)
(** ** The worked documents, evaluated *)
(* ===================================================================== *)

Module DemoFacts.
Import Demo.

Example twoCats_text :
  snd (linearizeRestore twoCats) = lit "the cat sata cat ran".
Proof. reflexivity. Qed.

Example twoCats_context :
  findTextWithContext twoCats (Some (lit "cat")) (Some (lit "a ")) (Some (lit " ran"))
  = Some (mkRange [1; 0]%nat 2 [1; 0]%nat 5).
Proof. vm_compute. reflexivity. Qed.

Example twoCats_bare :
  findTextWithContext twoCats (Some (lit "cat")) None None
  = Some (mkRange [0; 0]%nat 4 [0; 0]%nat 7).
Proof. vm_compute. reflexivity. Qed.

End DemoFacts.

(** A pattern built around the text contains it. *)
Lemma occursAt_inner (before text after s : jsString) (p : nat) :
  occursAt (before ++ text ++ after) s p ->
  occursAt text s (p + List.length before).
Proof.
  intros (pre & post & -> & Hl).
  exists (pre ++ before), (after ++ post). split.
  - repeat rewrite <- app_assoc. reflexivity.
  - rewrite length_app. lia.
Qed.

(* ===================================================================== *)
(** ** C1: a context-qualified match is preferred *)
(* ===================================================================== *)

(** C1.  For a stored anchor (non-empty text) with at least one
    non-empty context field: when [contextBefore + exactText +
    contextAfter] occurs in the linear text, the resolver selects
    [p0 + length contextBefore], where [p0] is the position at which the
    search finds the pattern, its leftmost occurrence; the range it
    returns is the one materialized from that offset.  Occurrences of the
    bare text, earlier ones included, play no part. *)
Theorem C1_context_match_preferred :
  forall (body : node) (searchText : jsString)
         (textBefore textAfter : option jsString)
         (textNodes : list run) (fullText : jsString) (p : nat),
    searchText <> [] ->
    truthy textBefore || truthy textAfter = true ->
    linearizeRestore body = (textNodes, fullText) ->
    occursAt (orEmpty textBefore ++ searchText ++ orEmpty textAfter) fullText p ->
    exists p0 : nat,
      (p0 <= p)%nat
      /\ occursAt (orEmpty textBefore ++ searchText ++ orEmpty textAfter) fullText p0
      /\ (forall q,
             occursAt (orEmpty textBefore ++ searchText ++ orEmpty textAfter) fullText q ->
             (p0 <= q)%nat)
      /\ ((forall q,
             occursAt (orEmpty textBefore ++ searchText ++ orEmpty textAfter) fullText q ->
             (p <= q)%nat) -> p0 = p)
      /\ findSearchIndex fullText searchText textBefore textAfter
         = Z.of_nat (p0 + List.length (orEmpty textBefore))
      /\ findTextWithContext body (Some searchText) textBefore textAfter
         = resolveAt body textNodes
                     (Z.of_nat (p0 + List.length (orEmpty textBefore))) searchText.
Proof.
  intros body searchText textBefore textAfter textNodes fullText p
         Hne Hctx Hlin Hocc.
  destruct (indexOf_cases fullText
              (orEmpty textBefore ++ searchText ++ orEmpty textAfter))
    as [[_ Habs] | (p0 & Hidx & Hp0 & Hmin)].
  - destruct (Habs p Hocc).
  - exists p0.
    pose proof (findSearchIndex_context fullText searchText textBefore textAfter
                  p0 Hctx Hidx) as Hfind.
    repeat split; auto.
    + intros Hp. apply Nat.le_antisymm; auto.
    + unfold findTextWithContext. destruct searchText as [|c s]; [congruence |].
      rewrite Hlin, Hfind.
      destruct (Z.eqb_spec (Z.of_nat (p0 + List.length (orEmpty textBefore))) (-1));
        [lia | reflexivity].
Qed.

(** The second paragraph of [twoCats] is chosen although "cat" occurs
    earlier, in the first. *)
Lemma C1_context_match_preferred_witness :
  lit "cat" <> []
  /\ truthy (Some (lit "a ")) || truthy (Some (lit " ran")) = true
  /\ exists p0 : nat,
      (p0 <= 11)%nat
      /\ findSearchIndex (lit "the cat sata cat ran") (lit "cat")
                         (Some (lit "a ")) (Some (lit " ran"))
         = Z.of_nat (p0 + 2).
Proof.
  split; [discriminate |]. split; [reflexivity |].
  destruct (C1_context_match_preferred Demo.twoCats (lit "cat")
              (Some (lit "a ")) (Some (lit " ran"))
              (fst (linearizeRestore Demo.twoCats))
              (lit "the cat sata cat ran") 11)
    as (p0 & Hle & _ & _ & _ & Hfind & _).
  - discriminate.
  - reflexivity.
  - reflexivity.
  - exists (lit "the cat sat"), []. split; reflexivity.
  - exists p0. split; [exact Hle | exact Hfind].
Defined.

(* ===================================================================== *)
(** ** C10: the guard on an empty or missing text *)
(* ===================================================================== *)

(** C10.  With a missing or an empty search text [findTextWithContext]
    returns [null] whatever the document and the context are, although
    [indexOf] would find the empty string at offset 0 of the linear
    text. *)
Theorem C10_empty_text_never_resolves :
  forall (body : node) (textBefore textAfter : option jsString),
    findTextWithContext body None textBefore textAfter = None
    /\ findTextWithContext body (Some []) textBefore textAfter = None
    /\ indexOf (snd (linearizeRestore body)) [] = 0
    /\ findSearchIndex (snd (linearizeRestore body)) [] None None = 0.
Proof.
  intros body textBefore textAfter.
  repeat split; try reflexivity.
  - apply indexOf_empty.
  - rewrite findSearchIndex_fallback by (left; reflexivity). apply indexOf_empty.
Qed.

(* ===================================================================== *)
(** ** The linearizer and the loop that locates the boundaries *)
(* ===================================================================== *)

Lemma len_app (a b : jsString) : len (a ++ b) = len a + len b.
Proof. unfold len. rewrite length_app. lia. Qed.

Lemma len_nonneg (a : jsString) : 0 <= len a.
Proof. unfold len. lia. Qed.

Lemma collect_spec (nodes : list (path * jsString)) :
  forall (acc : list run) (full : jsString),
  exists runs,
    collect nodes acc full = (acc ++ runs, full ++ flat_map snd nodes)
    /\ contiguous (len full) runs
    /\ map NodeInfo.node runs = map fst nodes
    /\ map NodeInfo.text runs = map snd nodes.
Proof.
  induction nodes as [|[nd s] nodes IH]; intros acc full; simpl.
  - exists []. rewrite !app_nil_r. repeat split.
  - destruct (IH (acc ++ [mkRun nd (len full) (len full + len s) s]) (full ++ s))
      as (runs & E & Hc & Hn & Ht).
    exists (mkRun nd (len full) (len full + len s) s :: runs).
    rewrite E, <- !app_assoc. simpl. rewrite len_app in Hc.
    repeat split; auto; f_equal; assumption.
Qed.

Lemma linearize_spec (accept : attrs -> jsString -> bool) (body : node)
      (textNodes : list run) (fullText : jsString) :
  collect (walk accept body) [] [] = (textNodes, fullText) ->
  contiguous 0 textNodes
  /\ fullText = flat_map NodeInfo.text textNodes
  /\ map NodeInfo.node textNodes = map fst (walk accept body)
  /\ map NodeInfo.text textNodes = map snd (walk accept body).
Proof.
  intros H. destruct (collect_spec (walk accept body) [] []) as (runs & E & Hc & Hn & Ht).
  rewrite E in H. simpl in H. injection H as <- <-.
  repeat split; auto.
  rewrite (flat_map_concat_map NodeInfo.text), (flat_map_concat_map snd).
  symmetry. exact (f_equal (@List.concat N) Ht).
Qed.

Lemma markStart_cases (ts : Z) (r : run) (st : located) :
  (markStart ts r st = st
   /\ (startNode st = None -> ~ NodeInfo.startOffset r <= ts < NodeInfo.endOffset r))
  \/ (markStart ts r st
      = mkLocated (Some (NodeInfo.node r)) (ts - NodeInfo.startOffset r)
                  (endNode st) (endNodeOffset st)
      /\ NodeInfo.startOffset r <= ts < NodeInfo.endOffset r).
Proof.
  unfold markStart. rewrite Z.geb_leb.
  destruct (Z.leb_spec (NodeInfo.startOffset r) ts) as [L1 | L1];
    destruct (Z.ltb_spec ts (NodeInfo.endOffset r)) as [L2 | L2];
    destruct (startNode st) eqn:E; simpl;
    try (left; split; [reflexivity | intros; try discriminate; lia]).
  right. split; [reflexivity | lia].
Qed.

Lemma markEnd_cases (te : Z) (r : run) (st : located) :
  (markEnd te r st = st
   /\ (endNode st = None -> ~ NodeInfo.startOffset r < te <= NodeInfo.endOffset r))
  \/ (markEnd te r st
      = mkLocated (startNode st) (startNodeOffset st)
                  (Some (NodeInfo.node r)) (te - NodeInfo.startOffset r)
      /\ NodeInfo.startOffset r < te <= NodeInfo.endOffset r).
Proof.
  unfold markEnd. rewrite Z.gtb_ltb.
  destruct (Z.ltb_spec (NodeInfo.startOffset r) te) as [L1 | L1];
    destruct (Z.leb_spec te (NodeInfo.endOffset r)) as [L2 | L2];
    destruct (endNode st) eqn:E; simpl;
    try (left; split; [reflexivity | intros; try discriminate; lia]).
  right. split; [reflexivity | lia].
Qed.

Lemma markStart_ok (all : list run) (ts te : Z) (r : run) (st : located) :
  In r all -> startOk all ts st -> endOk all te st ->
  startOk all ts (markStart ts r st) /\ endOk all te (markStart ts r st).
Proof.
  intros Hr Hs He.
  destruct (markStart_cases ts r st) as [[-> _] | [-> Hin]]; [auto |].
  split.
  - intros sn Hsn. simpl in Hsn. injection Hsn as <-.
    exists r. simpl. repeat split; auto; lia.
  - intros en Hen. simpl in Hen. destruct (He en Hen) as (r' & H).
    exists r'. simpl. exact H.
Qed.

Lemma markEnd_ok (all : list run) (ts te : Z) (r : run) (st : located) :
  In r all -> startOk all ts st -> endOk all te st ->
  startOk all ts (markEnd te r st) /\ endOk all te (markEnd te r st).
Proof.
  intros Hr Hs He.
  destruct (markEnd_cases te r st) as [[-> _] | [-> Hin]]; [auto |].
  split.
  - intros sn Hsn. simpl in Hsn. destruct (Hs sn Hsn) as (r' & H).
    exists r'. simpl. exact H.
  - intros en Hen. simpl in Hen. injection Hen as <-.
    exists r. simpl. repeat split; auto; lia.
Qed.

Lemma locate_sound (all : list run) (targetStart targetEnd : Z) :
  forall (runs : list run) (st : located),
    incl runs all ->
    startOk all targetStart st -> endOk all targetEnd st ->
    startOk all targetStart (locate targetStart targetEnd runs st)
    /\ endOk all targetEnd (locate targetStart targetEnd runs st).
Proof.
  induction runs as [|r runs IH]; intros st Hincl Hs He; simpl; [auto |].
  assert (Hr : In r all) by (apply Hincl; left; reflexivity).
  assert (Hincl' : incl runs all) by (intros x Hx; apply Hincl; right; exact Hx).
  destruct (markStart_ok all targetStart targetEnd r st Hr Hs He) as [Hs1 He1].
  destruct (markEnd_ok all targetStart targetEnd r _ Hr Hs1 He1) as [Hs2 He2].
  destruct (negb (isNull (startNode (markEnd targetEnd r (markStart targetStart r st))))
            && negb (isNull (endNode (markEnd targetEnd r (markStart targetStart r st)))));
    [auto | apply IH; auto].
Qed.

Lemma locate_complete (targetStart targetEnd : Z) :
  forall (runs : list run) (from : Z) (st : located),
    contiguous from runs ->
    (startNode st = None ->
     from <= targetStart < from + len (flat_map NodeInfo.text runs)) ->
    (endNode st = None ->
     from < targetEnd <= from + len (flat_map NodeInfo.text runs)) ->
    startNode (locate targetStart targetEnd runs st) <> None
    /\ endNode (locate targetStart targetEnd runs st) <> None.
Proof.
  induction runs as [|r runs IH]; intros from st Hc Hs He; simpl in *.
  - unfold len in *. simpl in *. split; intros E; [apply Hs in E | apply He in E]; lia.
  - destruct Hc as (Hstart & Hend & Hc). rewrite len_app in Hs, He.
    pose proof (len_nonneg (NodeInfo.text r)) as Hr.
    pose proof (len_nonneg (flat_map NodeInfo.text runs)) as Hrs.
    set (st1 := markStart targetStart r st).
    assert (Hs1 : startNode st1 = None ->
                  NodeInfo.endOffset r <= targetStart
                  < NodeInfo.endOffset r + len (flat_map NodeInfo.text runs)).
    { subst st1. intros Hnone.
      destruct (markStart_cases targetStart r st) as [[E Hout] | [E _]];
        rewrite E in Hnone; [| discriminate].
      specialize (Hs Hnone). specialize (Hout Hnone). lia. }
    assert (He1 : endNode st1 = None ->
                  from < targetEnd
                  <= from + (len (NodeInfo.text r) + len (flat_map NodeInfo.text runs))).
    { subst st1. intros Hnone. apply He.
      destruct (markStart_cases targetStart r st) as [[E _] | [E _]];
        rewrite E in Hnone; exact Hnone. }
    set (st2 := markEnd targetEnd r st1).
    assert (He2 : endNode st2 = None ->
                  NodeInfo.endOffset r < targetEnd
                  <= NodeInfo.endOffset r + len (flat_map NodeInfo.text runs)).
    { subst st2. intros Hnone.
      destruct (markEnd_cases targetEnd r st1) as [[E Hout] | [E _]];
        rewrite E in Hnone; [| discriminate].
      specialize (He1 Hnone). specialize (Hout Hnone). lia. }
    assert (Hs2 : startNode st2 = None ->
                  NodeInfo.endOffset r <= targetStart
                  < NodeInfo.endOffset r + len (flat_map NodeInfo.text runs)).
    { subst st2. intros Hnone. apply Hs1.
      destruct (markEnd_cases targetEnd r st1) as [[E _] | [E _]];
        rewrite E in Hnone; exact Hnone. }
    destruct (startNode st2) eqn:E1; destruct (endNode st2) eqn:E2; simpl;
      try (rewrite E1, E2; split; discriminate);
      apply (IH (NodeInfo.endOffset r)); auto; rewrite ?E1, ?E2; auto; discriminate.
Qed.

Lemma contiguous_In (runs : list run) :
  forall (from : Z) (r : run),
    contiguous from runs -> In r runs ->
    from <= NodeInfo.startOffset r /\ NodeInfo.endOffset r = NodeInfo.startOffset r + len (NodeInfo.text r).
Proof.
  induction runs as [|r0 runs IH]; intros from r Hc Hin; [destruct Hin |].
  destruct Hc as (Hs & He & Hc). destruct Hin as [<- | Hin].
  - split; lia.
  - destruct (IH _ _ Hc Hin) as [H1 H2]. pose proof (len_nonneg (NodeInfo.text r0)).
    split; lia.
Qed.

(** No offset lies in the intervals of two runs. *)
Lemma contiguous_unique (runs : list run) :
  forall (from : Z) (r1 r2 : run) (x : Z),
    contiguous from runs -> In r1 runs -> In r2 runs ->
    NodeInfo.startOffset r1 <= x < NodeInfo.endOffset r1 -> NodeInfo.startOffset r2 <= x < NodeInfo.endOffset r2 ->
    r1 = r2.
Proof.
  induction runs as [|r0 runs IH]; intros from r1 r2 x Hc H1 H2 Hx1 Hx2;
    [destruct H1 |].
  destruct Hc as (Hs & He & Hc).
  destruct H1 as [<- | H1]; destruct H2 as [<- | H2].
  - reflexivity.
  - destruct (contiguous_In _ _ _ Hc H2). lia.
  - destruct (contiguous_In _ _ _ Hc H1). lia.
  - exact (IH _ _ _ _ Hc H1 H2 Hx1 Hx2).
Qed.

(* ===================================================================== *)
(** ** C3: the verification after the match *)
(* ===================================================================== *)

Lemma verified_Some (body : node) (t : jsString) (r r' : range) :
  verified body t r = Some r' -> r' = r /\ rangeToString body r = Some t.
Proof.
  unfold verified. destruct (rangeToString body r) as [s|]; [| discriminate].
  destruct (JS.eqb s t) eqn:E; [| discriminate].
  apply jsString_eqb_eq in E. subst s. intros H. injection H as <-. auto.
Qed.

Lemma verified_None (body : node) (t : jsString) (r : range) :
  rangeToString body r <> Some t -> verified body t r = None.
Proof.
  unfold verified. destruct (rangeToString body r) as [s|]; [| reflexivity].
  destruct (JS.eqb s t) eqn:E; [| reflexivity].
  apply jsString_eqb_eq in E. subst s. intros H. destruct H. reflexivity.
Qed.

Lemma findTextWithContext_Some (body : node) (searchText : option jsString)
      (tb ta : option jsString) (r : range) :
  findTextWithContext body searchText tb ta = Some r ->
  exists t textNodes fullText,
    searchText = Some t /\ t <> []
    /\ linearizeRestore body = (textNodes, fullText)
    /\ findSearchIndex fullText t tb ta <> -1
    /\ materialize body textNodes (findSearchIndex fullText t tb ta) t = Some r
    /\ rangeToString body r = Some t.
Proof.
  unfold findTextWithContext. destruct searchText as [[|c t]|]; try discriminate.
  destruct (linearizeRestore body) as [textNodes fullText].
  destruct (Z.eqb_spec (findSearchIndex fullText (c :: t) tb ta) (-1)) as [E | E];
    [discriminate |].
  unfold resolveAt.
  destruct (materialize body textNodes _ (c :: t)) as [r0|] eqn:Em; [| discriminate].
  intros H. apply verified_Some in H as [-> H].
  exists (c :: t), textNodes, fullText. repeat split; auto. discriminate.
Qed.

(** C3.  A range that [findTextWithContext] returns has exactly the
    search text as its string; and when the range materialized from the
    matched span has another string, the match is dropped and the
    function returns [null]. *)
Theorem C3_post_match_verification :
  forall (body : node) (searchText textBefore textAfter : option jsString),
    (forall r : range,
        findTextWithContext body searchText textBefore textAfter = Some r ->
        exists t, searchText = Some t /\ rangeToString body r = Some t)
    /\ (forall (t : jsString) (textNodes : list run) (fullText : jsString)
               (r : range),
           searchText = Some t ->
           linearizeRestore body = (textNodes, fullText) ->
           materialize body textNodes
                       (findSearchIndex fullText t textBefore textAfter) t
           = Some r ->
           rangeToString body r <> Some t ->
           findTextWithContext body searchText textBefore textAfter = None).
Proof.
  intros body searchText tb ta. split.
  - intros r H.
    destruct (findTextWithContext_Some _ _ _ _ _ H)
      as (t & tn & ft & -> & _ & _ & _ & _ & Hr).
    exists t. auto.
  - intros t textNodes fullText r -> Hlin Hm Hneq.
    unfold findTextWithContext. destruct t as [|c t]; [reflexivity |].
    rewrite Hlin.
    destruct (findSearchIndex fullText (c :: t) tb ta =? -1); [reflexivity |].
    unfold resolveAt. rewrite Hm. apply verified_None. exact Hneq.
Qed.

(** In [<p>foo<b> </b>bar</p>] the blank text node is no run, so "oba"
    is found in the linear text "foobar"; the range over it reads
    "o ba" and is dropped. *)
Lemma C3_post_match_verification_witness :
  (exists t, Some (lit "cat") = Some t
             /\ rangeToString Demo.twoCats (mkRange [0; 0]%nat 4 [0; 0]%nat 7)
                = Some t)
  /\ rangeToString Demo.blankBetween (mkRange [0; 0]%nat 2 [0; 2]%nat 2)
     = Some (lit "o ba")
  /\ findTextWithContext Demo.blankBetween (Some (lit "oba")) None None = None.
Proof.
  split; [| split].
  - apply (proj1 (C3_post_match_verification Demo.twoCats (Some (lit "cat"))
                    None None)).
    reflexivity.
  - reflexivity.
  - apply (proj2 (C3_post_match_verification Demo.blankBetween
                    (Some (lit "oba")) None None)
             (lit "oba") (fst (linearizeRestore Demo.blankBetween))
             (lit "foobar") (mkRange [0; 0]%nat 2 [0; 2]%nat 2)).
    + reflexivity.
    + reflexivity.
    + reflexivity.
    + vm_compute. discriminate.
Defined.

(* ===================================================================== *)
(** ** C9: the scroll retry loop *)
(* ===================================================================== *)

Lemma tryScroll_step (docAt : nat -> node) (id : string) (attempts : nat) :
  tryScroll docAt id attempts =
  match querySelector id (docAt (S attempts)) with
  | Some highlightElement =>
      [Lookup (S attempts); ScrollIntoView highlightElement;
       Wait 1000; ClearFragment]
  | None =>
      if lt_dec (S attempts) maxAttempts
      then Lookup (S attempts) :: Wait 500 :: tryScroll docAt id (S attempts)
      else [Lookup (S attempts); ClearFragment]
  end.
Proof.
  rewrite tryScroll_equation_1.
  destruct (querySelector id (docAt (S attempts))); simpl; [reflexivity |].
  destruct (lt_dec (S attempts) maxAttempts); reflexivity.
Qed.

Lemma tryScroll_bounded (docAt : nat -> node) (id : string) :
  forall (n attempts : nat),
    (maxAttempts - attempts <= n)%nat ->
    (lookups (tryScroll docAt id attempts) <= Nat.max 1 (maxAttempts - attempts))%nat
    /\ last (tryScroll docAt id attempts) (Wait 0) = ClearFragment.
Proof.
  induction n as [|n IH]; intros attempts Hn; rewrite tryScroll_step;
    destruct (querySelector id (docAt (S attempts)));
    try (split; [unfold lookups; cbn [filter List.length]; lia | reflexivity]);
    destruct (lt_dec (S attempts) maxAttempts) as [Hlt | Hge];
    try (split; [unfold lookups; cbn [filter List.length]; lia | reflexivity]).
  - exfalso. lia.
  - destruct (IH (S attempts)) as [H1 H2]; [lia |].
    split.
    + change (S (lookups (tryScroll docAt id (S attempts)))
              <= Nat.max 1 (maxAttempts - attempts))%nat. lia.
    + change (last (Wait 500 :: tryScroll docAt id (S attempts)) (Wait 0)
              = ClearFragment).
      rewrite tryScroll_step in *.
      destruct (querySelector id (docAt (S (S attempts)))); [reflexivity |].
      destruct (lt_dec (S (S attempts)) maxAttempts); [| reflexivity].
      exact H2.
Qed.

Lemma tryScroll_exhausted (docAt : nat -> node) (id : string) :
  forall (n attempts : nat),
    (maxAttempts - attempts = S n)%nat ->
    (forall k, (attempts < k <= maxAttempts)%nat ->
               querySelector id (docAt k) = None) ->
    tryScroll docAt id attempts
    = failedPolls (S attempts) n ++ [Lookup maxAttempts; ClearFragment].
Proof.
  induction n as [|n IH]; intros attempts Hn Hnone; rewrite tryScroll_step;
    rewrite (Hnone (S attempts)) by lia;
    destruct (lt_dec (S attempts) maxAttempts) as [Hlt | Hge]; try lia.
  - replace maxAttempts with (S attempts) by lia. reflexivity.
  - rewrite (IH (S attempts)); [reflexivity | lia |].
    intros k Hk. apply Hnone. lia.
Qed.

Lemma tryScroll_found (docAt : nat -> node) (id : string) (p : path) :
  forall (n attempts k : nat),
    (k = S attempts + n)%nat -> (k <= maxAttempts)%nat ->
    querySelector id (docAt k) = Some p ->
    (forall j, (attempts < j < k)%nat -> querySelector id (docAt j) = None) ->
    tryScroll docAt id attempts
    = failedPolls (S attempts) n
      ++ [Lookup k; ScrollIntoView p; Wait 1000; ClearFragment].
Proof.
  induction n as [|n IH]; intros attempts k Hk Hmax Hsome Hnone;
    rewrite tryScroll_step.
  - replace (S attempts) with k by lia. rewrite Hsome. reflexivity.
  - rewrite (Hnone (S attempts)) by lia.
    destruct (lt_dec (S attempts) maxAttempts) as [Hlt | Hge]; [| lia].
    rewrite (IH (S attempts) k); [reflexivity | lia | assumption | assumption |].
    intros j Hj. apply Hnone. lia.
Qed.

Lemma substring_all (s : string) : String.substring 0 (String.length s) s = s.
Proof. induction s as [|c s IH]; simpl; [reflexivity | rewrite IH; reflexivity]. Qed.

Lemma scroll_from_fragment (id : string) (docAt : nat -> node) :
  scrollToHighlightFromHash (fragmentPrefix ++ id) docAt
  = Wait 500 :: tryScroll docAt id 0.
Proof.
  unfold scrollToHighlightFromHash, fragmentPrefix. cbn.
  replace (String.prefix "" id) with true by (destruct id; reflexivity).
  rewrite Nat.sub_0_r, substring_all. reflexivity.
Qed.

(** C9.  For a fragment [#sensenote-<id>] the procedure ends, whatever
    the page does between the polls: after a first delay of 500 ms it
    looks the element up at most [maxAttempts = 10] times, 500 ms apart,
    and the last thing it does is to clear the fragment.  When none of
    the ten polls finds the element the fragment is cleared at once and
    nothing else happens; when the [k]-th poll is the first to find it,
    the element is scrolled into view and the fragment is cleared one
    second later. *)
Theorem C9_scroll_retry_bounded :
  forall (docAt : nat -> node) (id : string),
    let trace := scrollToHighlightFromHash (fragmentPrefix ++ id) docAt in
    (lookups trace <= maxAttempts)%nat
    /\ last trace (Wait 0) = ClearFragment
    /\ ((forall k, (1 <= k <= maxAttempts)%nat ->
                   querySelector id (docAt k) = None) ->
        trace = Wait 500 :: failedPolls 1 (maxAttempts - 1)
                ++ [Lookup maxAttempts; ClearFragment])
    /\ (forall (k : nat) (element : path),
           (1 <= k <= maxAttempts)%nat ->
           querySelector id (docAt k) = Some element ->
           (forall j, (1 <= j < k)%nat -> querySelector id (docAt j) = None) ->
           trace = Wait 500 :: failedPolls 1 (k - 1)
                   ++ [Lookup k; ScrollIntoView element; Wait 1000; ClearFragment]).
Proof.
  intros docAt id trace. subst trace. rewrite scroll_from_fragment.
  destruct (tryScroll_bounded docAt id maxAttempts 0) as [Hn Hl]; [lia |].
  split; [| split; [| split]].
  - exact Hn.
  - rewrite tryScroll_step in *.
    destruct (querySelector id (docAt 1%nat)); [reflexivity |].
    destruct (lt_dec 1 maxAttempts); [exact Hl | reflexivity].
  - intros Hnone. f_equal.
    apply (tryScroll_exhausted docAt id (maxAttempts - 1) 0); [reflexivity |].
    intros k Hk. apply Hnone. lia.
  - intros k element Hk Hsome Hnone. f_equal.
    apply (tryScroll_found docAt id element (k - 1) 0 k); auto; lia.
Qed.

Lemma C9_scroll_retry_bounded_witness :
  scrollToHighlightFromHash "#sensenote-hl-1" (fun _ => Demo.helloBig)
  = Wait 500 :: failedPolls 1 9 ++ [Lookup 10; ClearFragment]
  /\ scrollToHighlightFromHash "#sensenote-hl-1"
       (fun k => if Nat.leb 3 k then Demo.wrappedAbc else Demo.helloBig)
     = Wait 500 :: failedPolls 1 2
       ++ [Lookup 3; ScrollIntoView [0; 0]%nat; Wait 1000; ClearFragment].
Proof.
  split.
  - apply (proj1 (proj2 (proj2
             (C9_scroll_retry_bounded (fun _ => Demo.helloBig) "hl-1")))).
    intros k _. reflexivity.
  - apply (proj2 (proj2 (proj2
             (C9_scroll_retry_bounded
                (fun k => if Nat.leb 3 k then Demo.wrappedAbc else Demo.helloBig)
                "hl-1"))) 3%nat [0; 0]%nat).
    + unfold maxAttempts. lia.
    + reflexivity.
    + intros j Hj. assert (j = 1 \/ j = 2)%nat as [-> | ->] by lia; reflexivity.
Defined.

(* ===================================================================== *)
(** ** C7: the two text-node walks *)
(* ===================================================================== *)

(** Where no text node has a wrapper as its parent, the two walks are
    the same. *)
Lemma walks_agree_without_wrappers (body : node) :
  (forall x, In x (bodyTextNodes body) -> isWrapper (fst (snd x)) = false) ->
  linearizeRestore body = linearizeCapture body.
Proof.
  intros H. unfold linearizeRestore, linearizeCapture, walk.
  f_equal. f_equal. apply filter_ext_in. intros x Hx.
  unfold acceptRestore, acceptCapture. rewrite (H x Hx), orb_false_r.
  reflexivity.
Qed.

Lemma linearize_fullText (accept : attrs -> jsString -> bool) (body : node) :
  snd (collect (walk accept body) [] []) = flat_map snd (walk accept body).
Proof.
  destruct (collect_spec (walk accept body) [] []) as (runs & E & _).
  rewrite E. reflexivity.
Qed.

(** The text of the nodes a filter keeps grows with the filter, and
    grows strictly when a node that is not empty is kept by one filter
    only. *)
Lemma filtered_text_length (f g : path * (attrs * jsString) -> bool)
      (l : list (path * (attrs * jsString))) :
  (forall x, f x = true -> g x = true) ->
  (List.length (flat_map (fun x => snd (snd x)) (filter f l))
   <= List.length (flat_map (fun x => snd (snd x)) (filter g l)))%nat
  /\ (forall x, In x l -> f x = false -> g x = true -> snd (snd x) <> [] ->
      (List.length (flat_map (fun x => snd (snd x)) (filter f l))
       < List.length (flat_map (fun x => snd (snd x)) (filter g l)))%nat).
Proof.
  intros Hfg. induction l as [|y l [IH1 IH2]]; simpl.
  - split; [lia | intros x []].
  - assert (Hy : f y = true -> g y = true) by apply Hfg.
    split.
    + destruct (f y) eqn:Ef; destruct (g y) eqn:Eg; simpl;
        rewrite ?length_app; try lia.
    + intros x [-> | Hin] Hf Hg Hne.
      * rewrite Hf, Hg. simpl. rewrite length_app.
        assert (Hpos : (0 < List.length (snd (snd x)))%nat)
          by (destruct (snd (snd x)); [congruence | simpl; lia]).
        unfold jsString in *. lia.
      * specialize (IH2 x Hin Hf Hg Hne).
        destruct (f y) eqn:Ef; destruct (g y) eqn:Eg; simpl;
          rewrite ?length_app; try lia.
Qed.

Lemma walk_text (accept : attrs -> jsString -> bool) (body : node) :
  flat_map snd (walk accept body)
  = flat_map (fun x => snd (snd x))
             (filter (fun x => accept (fst (snd x)) (snd (snd x)))
                     (bodyTextNodes body)).
Proof.
  unfold walk.
  induction (filter (fun x => accept (fst (snd x)) (snd (snd x)))
                    (bodyTextNodes body)) as [|y l IH]; simpl;
    [reflexivity | rewrite IH; reflexivity].
Qed.

(** C7.  The walk of the capture has no test on the marker class.  The
    two walks give the same runs and the same linear text on a page
    where no text node has a wrapper as its parent; as soon as one text
    node that is not blank has, the linear text of the capture holds its
    text and is longer than the linear text of the resolver. *)
Theorem C7_walks_differ_on_wrapped_text :
  forall body : node,
    ((forall x, In x (bodyTextNodes body) -> isWrapper (fst (snd x)) = false) ->
     linearizeRestore body = linearizeCapture body)
    /\ (forall (p : path) (a : attrs) (s : jsString),
           In (p, (a, s)) (bodyTextNodes body) ->
           isBlank s = false -> isWrapper a = true ->
           len (snd (linearizeRestore body)) < len (snd (linearizeCapture body))).
Proof.
  intros body. split; [apply walks_agree_without_wrappers |].
  intros p a s Hin Hblank Hwrap.
  unfold linearizeRestore, linearizeCapture, len.
  rewrite !linearize_fullText, !walk_text.
  apply inj_lt.
  apply (proj2 (filtered_text_length
                  (fun x => acceptRestore (fst (snd x)) (snd (snd x)))
                  (fun x => acceptCapture (fst (snd x)) (snd (snd x)))
                  (bodyTextNodes body)
                  ltac:(intros x; unfold acceptRestore, acceptCapture;
                        destruct (isBlank (snd (snd x))); simpl;
                        [discriminate | reflexivity]))
           (p, (a, s)) Hin).
  - unfold acceptRestore. simpl. rewrite Hwrap, orb_true_r. reflexivity.
  - unfold acceptCapture. simpl. rewrite Hblank. reflexivity.
  - simpl. intros ->. discriminate.
Qed.

(** On [wrappedAbc] the capture reads "abcdef" and the resolver "def". *)
Lemma C7_walks_differ_on_wrapped_text_witness :
  snd (linearizeCapture Demo.wrappedAbc) = lit "abcdef"
  /\ snd (linearizeRestore Demo.wrappedAbc) = lit "def"
  /\ len (snd (linearizeRestore Demo.wrappedAbc))
     < len (snd (linearizeCapture Demo.wrappedAbc)).
Proof.
  split; [reflexivity |]. split; [reflexivity |].
  apply (proj2 (C7_walks_differ_on_wrapped_text Demo.wrappedAbc)
           [0; 0; 0]%nat (wrapperAttrs "hl-1" "#ffeb3b") (lit "abc")).
  - left. reflexivity.
  - reflexivity.
  - reflexivity.
Defined.

(** The resolver tests the parent element only: in the page that the
    restoration of "abb" makes of [overlap], the text "bb" lies inside
    the wrapper, below [<b>], and is counted by a later turn. *)
Example nested_wrapper_text_is_counted :
  doc (restoreLoop [Demo.anchorX] Demo.overlap)
  = el "body"
       [el "p" [txt "a";
                mkWrapper "hl-X" "#ffeb3b" [txt "a"; el "b" [txt "bb"]];
                el "b" []; txt "cc"]]
  /\ snd (linearizeRestore (doc (restoreLoop [Demo.anchorX] Demo.overlap)))
     = lit "abbcc".
Proof. split; reflexivity. Qed.

(* ===================================================================== *)
(** ** C6: capture when the start node is no run *)
(* ===================================================================== *)

Lemma findStart_not_located (textNodes : list run) (r : range) (text : jsString) :
  (forall x, In x textNodes -> NodeInfo.node x <> startContainer r) ->
  findStart textNodes r text = (0, 0).
Proof.
  induction textNodes as [|x l IH]; intros H; simpl; [reflexivity |].
  destruct (path_eqb (NodeInfo.node x) (startContainer r)) eqn:E.
  - exfalso. apply (H x); [left; reflexivity |].
    revert E. generalize (NodeInfo.node x) (startContainer r).
    induction p as [|i p IHp]; intros [|j q]; simpl; try discriminate; auto.
    intros E. apply andb_true_iff in E as [E1 E2]. apply Nat.eqb_eq in E1.
    f_equal; auto.
  - apply IH. intros y Hy. apply H. right. exact Hy.
Qed.

Lemma substring_0_0 (s : jsString) : substring s (Z.max 0 (0 - contextLength)) 0 = [].
Proof.
  unfold substring, clamp, contextLength. pose proof (len_nonneg s).
  replace (Z.to_nat (Z.min (Z.max (Z.max 0 (0 - 50)) 0) (len s))) with 0%nat by lia.
  replace (Z.to_nat (Z.min (Z.max 0 0) (len s))) with 0%nat by lia.
  reflexivity.
Qed.

Lemma substring_head (s : jsString) :
  substring s 0 (Z.min (len s) (0 + contextLength)) = firstn 50 s.
Proof.
  unfold substring, clamp, contextLength, len.
  replace (Z.to_nat (Z.min (Z.max 0 0) (Z.of_nat (List.length s)))) with 0%nat by lia.
  replace (Z.to_nat (Z.min (Z.max (Z.min (Z.of_nat (List.length s)) (0 + 50)) 0)
                           (Z.of_nat (List.length s))))
    with (Nat.min (List.length s) 50) by lia.
  rewrite Nat.min_0_l, Nat.max_0_l, Nat.sub_0_r. simpl skipn.
  destruct (Nat.le_ge_cases 50 (List.length s)) as [H | H].
  - rewrite Nat.min_r by exact H. reflexivity.
  - rewrite Nat.min_l by exact H.
    rewrite firstn_all, (firstn_all2 (n := 50)) by exact H. reflexivity.
Qed.

(** C6.  Capture of a non-empty text always produces the anchor, with
    the selected text in it.  When the start container of the selection
    is the node of no run, the offsets stay [0]: [contextBefore] is
    empty, but [contextAfter] is the first 50 code units of the linear
    text of the document, not the empty string. *)
Theorem C6_capture_when_start_not_located :
  forall (body : node) (r : range) (text : jsString) (color id url : string)
         (textNodes : list run) (fullText : jsString),
    text <> [] ->
    linearizeCapture body = (textNodes, fullText) ->
    (exists h, createHighlightFromText body r text color id url = Some h
               /\ Highlight.text h = text)
    /\ ((forall x, In x textNodes -> NodeInfo.node x <> startContainer r) ->
        createHighlightFromText body r text color id url
        = Some (mkHighlight id text (Some []) (Some (firstn 50 fullText))
                            url 0 0 color)).
Proof.
  intros body r text color id url textNodes fullText Hne Hlin.
  unfold createHighlightFromText. destruct text as [|c text]; [congruence |].
  rewrite Hlin. split.
  - destruct (findStart textNodes r (c :: text)) as [s e].
    eexists. split; reflexivity.
  - intros H. rewrite (findStart_not_located _ _ _ H).
    rewrite substring_0_0, substring_head. reflexivity.
Qed.

(** A selection that starts in the element [<p>] of [helloBig]: the
    anchor for "Hello" gets the whole text of the page as the context
    after it. *)
Lemma C6_capture_when_start_not_located_witness :
  lit "Hello" <> []
  /\ createHighlightFromText Demo.helloBig (mkRange [0]%nat 0 [0]%nat 1)
       (lit "Hello") "#ffeb3b" "hl-1" "https://example.org/"
     = Some (mkHighlight "hl-1" (lit "Hello") (Some [])
                         (Some (lit "Hello big world"))
                         "https://example.org/" 0 0 "#ffeb3b")
  /\ Some (lit "Hello big world") <> Some [].
Proof.
  split; [discriminate |]. split; [| discriminate].
  apply (proj2 (C6_capture_when_start_not_located Demo.helloBig
                  (mkRange [0]%nat 0 [0]%nat 1) (lit "Hello")
                  "#ffeb3b" "hl-1" "https://example.org/"
                  (fst (linearizeCapture Demo.helloBig))
                  (lit "Hello big world")
                  ltac:(discriminate) eq_refl)).
  intros x Hx. vm_compute in Hx.
  destruct Hx as [<- | [<- | [<- | []]]]; discriminate.
Defined.

(* ===================================================================== *)
(** ** Handles and replacement *)
(* ===================================================================== *)

#[local] Arguments skipn : simpl never.
#[local] Arguments firstn : simpl never.

Lemma path_eqb_eq (p q : path) : path_eqb p q = true <-> p = q.
Proof.
  revert q. induction p as [|i p IH]; intros [|j q]; simpl;
    try (split; [discriminate | congruence]); try tauto.
  rewrite andb_true_iff, Nat.eqb_eq, IH. split.
  - intros [-> ->]. reflexivity.
  - intros H. injection H as -> ->. auto.
Qed.

Lemma path_eqb_refl (p : path) : path_eqb p p = true.
Proof. apply path_eqb_eq. reflexivity. Qed.

Lemma nth_error_parts {A} (l : list A) (i : nat) (x : A) :
  nth_error l i = Some x ->
  l = firstn i l ++ x :: skipn (S i) l /\ List.length (firstn i l) = i.
Proof.
  revert i. induction l as [|y l IH]; intros [|i] H; simpl in *; try discriminate.
  - injection H as ->. auto.
  - destruct (IH i H) as [E L]. split; [f_equal; exact E | f_equal; exact L].
Qed.

Lemma nth_error_middle {A} (l1 l2 : list A) (x : A) (i : nat) :
  List.length l1 = i -> nth_error (l1 ++ x :: l2) i = Some x.
Proof.
  intros <-. rewrite nth_error_app2 by lia. rewrite Nat.sub_diag. reflexivity.
Qed.

Lemma firstn_middle {A} (l1 l2 : list A) (i : nat) :
  List.length l1 = i -> firstn i (l1 ++ l2) = l1.
Proof.
  intros <-. rewrite firstn_app, Nat.sub_diag, firstn_all. simpl.
  apply app_nil_r.
Qed.

Lemma skipn_middle {A} (l1 l2 : list A) (i : nat) :
  List.length l1 = i -> skipn i (l1 ++ l2) = l2.
Proof.
  intros <-. rewrite skipn_app, Nat.sub_diag, skipn_all. reflexivity.
Qed.

Lemma skipn_S_middle {A} (l1 l2 : list A) (x : A) (i : nat) :
  List.length l1 = i -> skipn (S i) (l1 ++ x :: l2) = l2.
Proof.
  intros H. change (l1 ++ x :: l2) with (l1 ++ [x] ++ l2).
  rewrite app_assoc. apply skipn_middle. rewrite length_app. simpl. lia.
Qed.

Lemma getNode_replaceAt (p : path) :
  forall (n x new : node),
    getNode p n = Some x -> getNode p (replaceAt p new n) = Some new.
Proof.
  induction p as [|i p IH]; intros n x new H; simpl in *; [reflexivity |].
  destruct n as [s | t a cs]; [discriminate |].
  destruct (nth_error cs i) as [c|] eqn:E; [| discriminate].
  destruct (nth_error_parts _ _ _ E) as [_ L].
  simpl. rewrite (nth_error_middle _ _ _ _ L). eauto.
Qed.

Lemma replaceAt_twice (p : path) :
  forall (n x n1 n2 : node),
    getNode p n = Some x ->
    replaceAt p n2 (replaceAt p n1 n) = replaceAt p n2 n.
Proof.
  induction p as [|i p IH]; intros n x n1 n2 H; simpl in *; [reflexivity |].
  destruct n as [s | t a cs]; [discriminate |].
  destruct (nth_error cs i) as [c|] eqn:E; [| discriminate].
  destruct (nth_error_parts _ _ _ E) as [_ L].
  simpl. rewrite (nth_error_middle _ _ _ _ L).
  rewrite (firstn_middle _ _ _ L), (skipn_S_middle _ _ _ _ L).
  rewrite (IH _ _ _ _ H). reflexivity.
Qed.

Lemma textContent_replaceAt (p : path) :
  forall (n x new : node),
    getNode p n = Some x -> textContent new = textContent x ->
    textContent (replaceAt p new n) = textContent n.
Proof.
  induction p as [|i p IH]; intros n x new H Ht; simpl in *.
  - injection H as <-. exact Ht.
  - destruct n as [s | t a cs]; [discriminate |].
    destruct (nth_error cs i) as [c|] eqn:E; [| discriminate].
    destruct (nth_error_parts _ _ _ E) as [Ecs _].
    simpl. rewrite Ecs at 3. rewrite !flat_map_app. simpl.
    rewrite (IH _ _ _ H Ht). reflexivity.
Qed.

Lemma countId_replaceAt (id : string) (p : path) :
  forall (n x new : node),
    getNode p n = Some x ->
    (countId id (replaceAt p new n) + countId id x
     = countId id n + countId id new)%nat.
Proof.
  induction p as [|i p IH]; intros n x new H; simpl in *.
  - injection H as <-. lia.
  - destruct n as [s | t a cs]; [discriminate |].
    destruct (nth_error cs i) as [c|] eqn:E; [| discriminate].
    destruct (nth_error_parts _ _ _ E) as [Ecs _].
    simpl. rewrite Ecs at 3. rewrite !map_app, !list_sum_app. simpl.
    pose proof (IH _ _ new H). lia.
Qed.

Lemma sameRoot_refl (n : node) : sameRoot n n.
Proof. destruct n; simpl; auto. Qed.

Lemma sameRoot_trans (n m k : node) : sameRoot n m -> sameRoot m k -> sameRoot n k.
Proof.
  destruct n, m, k; simpl; try tauto. intros [-> ->] [-> ->]. auto.
Qed.

Lemma sameRoot_replaceAt (p : path) (n x new : node) :
  getNode p n = Some x -> sameRoot x new -> sameRoot n (replaceAt p new n).
Proof.
  destruct p as [|i p]; simpl.
  - intros H. injection H as <-. auto.
  - destruct n as [s | t a cs]; [discriminate |].
    destruct (nth_error cs i); [| discriminate]. simpl. auto.
Qed.

Lemma wrappersOf_countId (id : string) (n m : node) :
  sameRoot n m ->
  (countId id n + wrappersOf id m = countId id m + wrappersOf id n)%nat.
Proof.
  destruct n, m; simpl; try tauto. intros [-> ->]. lia.
Qed.

(** The parent of a node that a handle names. *)
Lemma getNode_snoc (p : path) (i : nat) :
  forall (n : node),
    getNode (p ++ [i]) n
    = match getNode p n with
      | Some (Elem _ _ cs) => nth_error cs i
      | _ => None
      end.
Proof.
  induction p as [|j p IH]; intros n; simpl.
  - destruct n as [s | t a cs]; [reflexivity |]. destruct (nth_error cs i); reflexivity.
  - destruct n as [s | t a cs]; [reflexivity |].
    destruct (nth_error cs j); [apply IH | reflexivity].
Qed.

Lemma getNode_app (p q : path) :
  forall (n : node),
    getNode (p ++ q) n
    = match getNode p n with
      | Some m => getNode q m
      | None => None
      end.
Proof.
  induction p as [|j p IH]; intros n; simpl; [reflexivity |].
  destruct n as [s | t a cs]; [reflexivity |].
  destruct (nth_error cs j); [apply IH | reflexivity].
Qed.

Lemma getNode_parent (p : path) (n x : node) :
  p <> [] -> getNode p n = Some x ->
  exists t a cs,
    getNode (removelast p) n = Some (Elem t a cs)
    /\ nth_error cs (last p 0%nat) = Some x.
Proof.
  intros Hp H. rewrite (app_removelast_last 0%nat Hp) in H at 1.
  rewrite getNode_snoc in H.
  destruct (getNode (removelast p) n) as [[s | t a cs]|]; try discriminate.
  exists t, a, cs. auto.
Qed.

Lemma replaceAt_snoc (p : path) (i : nat) (new : node) :
  forall (n : node) (t : string) (a : attrs) (cs : list node) (c : node),
    getNode p n = Some (Elem t a cs) -> nth_error cs i = Some c ->
    replaceAt (p ++ [i]) new n
    = replaceAt p (Elem t a (firstn i cs ++ new :: skipn (S i) cs)) n.
Proof.
  induction p as [|j p IH]; intros n t a cs c H Hc; simpl in *.
  - injection H as ->. rewrite Hc. reflexivity.
  - destruct n as [s | t' a' cs']; [discriminate |].
    destruct (nth_error cs' j) as [c'|]; [| discriminate].
    rewrite (IH _ _ _ _ _ H Hc). reflexivity.
Qed.

(* ===================================================================== *)
(** ** Extraction and normalization keep the text *)
(* ===================================================================== *)

(** Induction on a node with the hypothesis for every child. *)
Lemma node_induction (P : node -> Prop) :
  (forall s, P (Text s)) ->
  (forall t a cs, Forall P cs -> P (Elem t a cs)) ->
  forall n, P n.
Proof.
  intros HT HE. fix IH 1. intros [s | t a cs]; [apply HT | apply HE].
  induction cs as [|c cs IHcs]; constructor; [apply IH | exact IHcs].
Qed.

Lemma extractTail_text (p : path) (off : nat) :
  forall (n stay out : node),
    extractTail p off n = Some (stay, out) ->
    textContent stay ++ textContent out = textContent n.
Proof.
  induction p as [|i p IH]; intros n stay out H; destruct n as [s | t a cs];
    simpl in H; try discriminate.
  - injection H as <- <-. simpl. apply firstn_skipn.
  - destruct (nth_error cs i) as [c|] eqn:E; [| discriminate].
    destruct (extractTail p off c) as [[stay' out']|] eqn:E'; [| discriminate].
    injection H as <- <-. destruct (nth_error_parts _ _ _ E) as [Ecs _].
    simpl. rewrite Ecs at 3. rewrite !flat_map_app. simpl.
    rewrite <- (IH _ _ _ E'), app_nil_r, <- !app_assoc. reflexivity.
Qed.

Lemma extractHead_text (p : path) (off : nat) :
  forall (n out stay : node),
    extractHead p off n = Some (out, stay) ->
    textContent out ++ textContent stay = textContent n.
Proof.
  induction p as [|i p IH]; intros n out stay H; destruct n as [s | t a cs];
    simpl in H; try discriminate.
  - injection H as <- <-. simpl. apply firstn_skipn.
  - destruct (nth_error cs i) as [c|] eqn:E; [| discriminate].
    destruct (extractHead p off c) as [[out' stay']|] eqn:E'; [| discriminate].
    injection H as <- <-. destruct (nth_error_parts _ _ _ E) as [Ecs _].
    simpl. rewrite Ecs at 3. rewrite !flat_map_app. simpl.
    rewrite <- (IH _ _ _ E'), app_nil_r, <- !app_assoc. reflexivity.
Qed.

Lemma extractTail_defined (p : path) (off : nat) :
  forall (n : node) (s : jsString),
    getNode p n = Some (Text s) ->
    exists stay out, extractTail p off n = Some (stay, out).
Proof.
  induction p as [|i p IH]; intros n s H; simpl in *.
  - injection H as ->. eauto.
  - destruct n as [s' | t a cs]; [discriminate |].
    destruct (nth_error cs i) as [c|]; [| discriminate].
    destruct (IH _ _ H) as (stay & out & ->). eauto.
Qed.

Lemma extractHead_defined (p : path) (off : nat) :
  forall (n : node) (s : jsString),
    getNode p n = Some (Text s) ->
    exists out stay, extractHead p off n = Some (out, stay).
Proof.
  induction p as [|i p IH]; intros n s H; simpl in *.
  - injection H as ->. eauto.
  - destruct n as [s' | t a cs]; [discriminate |].
    destruct (nth_error cs i) as [c|]; [| discriminate].
    destruct (IH _ _ H) as (out & stay & ->). eauto.
Qed.

(** Cloning repeats the elements above the boundary and nothing else:
    the two parts together carry an id at least as often as the node
    did, and not at all where the node did not. *)
Lemma extractTail_count (id : string) (p : path) (off : nat) :
  forall (n stay out : node),
    extractTail p off n = Some (stay, out) ->
    (countId id n <= countId id stay + countId id out)%nat
    /\ (countId id n = 0%nat -> countId id stay = 0%nat /\ countId id out = 0%nat).
Proof.
  induction p as [|i p IH]; intros n stay out H; destruct n as [s | t a cs];
    simpl in H; try discriminate.
  - injection H as <- <-. simpl. lia.
  - destruct (nth_error cs i) as [c|] eqn:E; [| discriminate].
    destruct (extractTail p off c) as [[stay' out']|] eqn:E'; [| discriminate].
    injection H as <- <-. destruct (nth_error_parts _ _ _ E) as [Ecs _].
    destruct (IH _ _ _ E') as [H1 H2].
    simpl. rewrite Ecs at 1 4. rewrite !map_app, !list_sum_app. simpl.
    destruct (hasId id a); lia.
Qed.

Lemma extractHead_count (id : string) (p : path) (off : nat) :
  forall (n out stay : node),
    extractHead p off n = Some (out, stay) ->
    (countId id n <= countId id out + countId id stay)%nat
    /\ (countId id n = 0%nat -> countId id out = 0%nat /\ countId id stay = 0%nat).
Proof.
  induction p as [|i p IH]; intros n out stay H; destruct n as [s | t a cs];
    simpl in H; try discriminate.
  - injection H as <- <-. simpl. lia.
  - destruct (nth_error cs i) as [c|] eqn:E; [| discriminate].
    destruct (extractHead p off c) as [[out' stay']|] eqn:E'; [| discriminate].
    injection H as <- <-. destruct (nth_error_parts _ _ _ E) as [Ecs _].
    destruct (IH _ _ _ E') as [H1 H2].
    simpl. rewrite Ecs at 1 4. rewrite !map_app, !list_sum_app. simpl.
    destruct (hasId id a); lia.
Qed.

Lemma mergeText_text (cs : list node) :
  flat_map textContent (mergeText cs) = flat_map textContent cs.
Proof.
  induction cs as [|c cs IH]; [reflexivity |].
  destruct c as [[|x s] | t a ks]; simpl.
  - exact IH.
  - rewrite <- IH. destruct (mergeText cs) as [|[s' | t' a' ks'] rest]; simpl;
      rewrite <- ?app_assoc; reflexivity.
  - rewrite IH. reflexivity.
Qed.

Lemma mergeText_count (id : string) (cs : list node) :
  list_sum (map (countId id) (mergeText cs)) = list_sum (map (countId id) cs).
Proof.
  induction cs as [|c cs IH]; [reflexivity |].
  destruct c as [[|x s] | t a ks]; simpl.
  - exact IH.
  - rewrite <- IH. destruct (mergeText cs) as [|[s' | t' a' ks'] rest]; reflexivity.
  - rewrite IH. reflexivity.
Qed.

Lemma normalize_text (n : node) : textContent (normalize n) = textContent n.
Proof.
  induction n as [s | t a cs IH] using node_induction; [reflexivity |].
  simpl. rewrite mergeText_text.
  induction IH as [|c cs Hc _ IHcs]; simpl; [reflexivity |].
  rewrite Hc, IHcs. reflexivity.
Qed.

Lemma normalize_count (id : string) (n : node) :
  countId id (normalize n) = countId id n.
Proof.
  induction n as [s | t a cs IH] using node_induction; [reflexivity |].
  simpl. rewrite mergeText_count. f_equal.
  induction IH as [|c cs Hc _ IHcs]; simpl; [reflexivity |].
  rewrite Hc, IHcs. reflexivity.
Qed.

Lemma normalize_sameRoot (n : node) : sameRoot n (normalize n).
Proof. destruct n; simpl; auto. Qed.

(* ===================================================================== *)
(** ** Wrapping: extraction followed by insertion *)
(* ===================================================================== *)

Lemma parentOf_nonempty (p : path) :
  p <> [] -> parentOf p = Some (removelast p, last p 0%nat).
Proof. destruct p; [congruence | reflexivity]. Qed.

Lemma countIds_app (id : string) (l1 l2 : list node) :
  countIds id (l1 ++ l2) = (countIds id l1 + countIds id l2)%nat.
Proof. unfold countIds. rewrite map_app. apply list_sum_app. Qed.

Lemma countIds_cons (id : string) (c : node) (l : list node) :
  countIds id (c :: l) = (countId id c + countIds id l)%nat.
Proof. reflexivity. Qed.

Lemma nth_error_two_parts {A} (l : list A) (i j : nat) (x y : A) :
  nth_error l i = Some x -> nth_error l j = Some y -> (i < j)%nat ->
  l = firstn i l ++ x :: firstn (j - S i) (skipn (S i) l) ++ y :: skipn (S j) l.
Proof.
  intros Hi Hj Hlt.
  destruct (nth_error_parts _ _ _ Hi) as [E _].
  assert (Hj' : nth_error (skipn (S i) l) (j - S i) = Some y).
  { rewrite nth_error_skipn. replace (S i + (j - S i))%nat with j by lia. exact Hj. }
  destruct (nth_error_parts _ _ _ Hj') as [E' _].
  rewrite skipn_skipn in E'.
  replace (S (j - S i) + S i)%nat with (S j) in E' by lia.
  rewrite <- E'. exact E.
Qed.

(** Cutting the span [[so, eo)] out of a text and putting it back
    between the two halves of what is left gives the text again. *)
Lemma cut_and_paste (s : jsString) (so eo : nat) :
  (so <= eo)%nat ->
  firstn so (firstn so s ++ skipn eo s)
  ++ firstn (eo - so) (skipn so s)
  ++ skipn so (firstn so s ++ skipn eo s) = s.
Proof.
  intros Hle. destruct (Nat.le_gt_cases so (List.length s)) as [H | H].
  - assert (L : List.length (firstn so s) = so) by (rewrite length_firstn; lia).
    rewrite (firstn_middle _ _ _ L), (skipn_middle _ _ _ L).
    replace (skipn eo s) with (skipn (eo - so) (skipn so s))
      by (rewrite skipn_skipn; f_equal; lia).
    rewrite firstn_skipn. apply firstn_skipn.
  - rewrite (firstn_all2 (n := so) s) by lia.
    rewrite (skipn_all2 (n := eo) s) by lia.
    rewrite (skipn_all2 (n := so) s) by lia.
    rewrite app_nil_r.
    rewrite (firstn_all2 (n := so) s) by lia.
    rewrite (skipn_all2 (n := so) s) by lia.
    rewrite firstn_nil, !app_nil_r. reflexivity.
Qed.

(** What [extractContents] and then [insertNode] do to the tree: below
    one element, the common parent [q], the children [cs] become
    [l1 ++ w :: l2] for the inserted node [w]; the text of [l1], of the
    fragment and of [l2] is the text of [cs]; ids are carried at least
    as often, and nowhere when [cs] had none. *)
Lemma extract_insert_shape (body : node) (r : range)
      (body1 : node) (frag : list node) (bp : path * nat) :
  isElement body = true ->
  (startContainer r = endContainer r -> (startOffset r <= endOffset r)%nat) ->
  extractContents body r = Some (body1, frag, bp) ->
  exists (q : path) (t : string) (a : attrs) (cs l1 l2 : list node),
    getNode q body = Some (Elem t a cs)
    /\ insertedUnder body1 bp = q
    /\ (forall w, insertNode body1 bp w
                  = Some (replaceAt q (Elem t a (l1 ++ w :: l2)) body))
    /\ flat_map textContent l1 ++ flat_map textContent frag
       ++ flat_map textContent l2 = flat_map textContent cs
    /\ (forall id,
          (countIds id cs <= countIds id l1 + countIds id frag + countIds id l2)%nat
          /\ (countIds id cs = 0%nat ->
              (countIds id l1 + countIds id frag + countIds id l2 = 0)%nat)).
Proof.
  intros Hbody Horder. unfold extractContents.
  destruct (path_eqb (startContainer r) (endContainer r)) eqn:Esame.
  - (* one text node *)
    apply path_eqb_eq in Esame. specialize (Horder Esame).
    set (sc := startContainer r) in *. set (so := startOffset r) in *.
    set (eo := endOffset r) in *.
    destruct (getNode sc body) as [[s | ? ? ?]|] eqn:Hsc; try discriminate.
    intros H. injection H as <- <- <-.
    assert (Hne : sc <> []).
    { intros E. rewrite E in Hsc. simpl in Hsc. destruct body; discriminate. }
    destruct (getNode_parent _ _ _ Hne Hsc) as (t & a & cs & Hq & Hi).
    set (q := removelast sc) in *. set (i := last sc 0%nat) in *.
    assert (Esc : sc = q ++ [i]) by (apply app_removelast_last; exact Hne).
    destruct (nth_error_parts _ _ _ Hi) as [Ecs L].
    set (s' := firstn so s ++ skipn eo s).
    assert (Hbody1 : replaceAt sc (Text s') body
                     = replaceAt q (Elem t a (firstn i cs ++ Text s'
                                              :: skipn (S i) cs)) body).
    { rewrite Esc. apply (replaceAt_snoc _ _ _ _ _ _ _ _ Hq Hi). }
    exists q, t, a, cs, (firstn i cs ++ [Text (firstn so s')]),
           (Text (skipn so s') :: skipn (S i) cs).
    split; [exact Hq |]. split; [| split; [| split]].
    + unfold insertedUnder. simpl fst.
      rewrite (getNode_replaceAt _ _ _ _ Hsc). reflexivity.
    + intros w. unfold insertNode.
      rewrite (getNode_replaceAt _ _ _ _ Hsc).
      rewrite (parentOf_nonempty _ Hne). fold q. fold i.
      rewrite Hbody1, (getNode_replaceAt _ _ _ _ Hq).
      rewrite (replaceAt_twice _ _ _ _ _ Hq).
      rewrite (firstn_middle _ _ _ L), (skipn_S_middle _ _ _ _ L).
      rewrite <- app_assoc. reflexivity.
    + rewrite Ecs at 3. rewrite !flat_map_app. simpl.
      rewrite !app_nil_r, <- !app_assoc.
      f_equal. rewrite !app_assoc. f_equal. rewrite <- !app_assoc.
      apply cut_and_paste. exact Horder.
    + intros id.
      assert (Hc : countIds id cs
                   = (countIds id (firstn i cs) + countIds id (skipn (S i) cs))%nat).
      { rewrite Ecs at 1. rewrite countIds_app, countIds_cons. reflexivity. }
      rewrite Hc, !countIds_app, !countIds_cons.
      change (countIds id []) with 0%nat.
      change (countId id (Text (firstn so s'))) with 0%nat.
      change (countId id (Text (firstn (eo - so) (skipn so s)))) with 0%nat.
      change (countId id (Text (skipn so s'))) with 0%nat.
      lia.
  - (* two text nodes *)
    clear Horder.
    destruct (splitCommon (startContainer r) (endContainer r)) as [[q ps] pe].
    destruct ps as [|i ps]; [discriminate |].
    destruct pe as [|j pe]; [discriminate |].
    destruct (getNode q body) as [[s | t a cs]|] eqn:Hq; try discriminate.
    destruct (Nat.ltb_spec i j) as [Hlt | Hge]; [| discriminate].
    destruct (nth_error cs i) as [ci|] eqn:Hi; [| discriminate].
    destruct (nth_error cs j) as [cj|] eqn:Hj; [| discriminate].
    destruct (extractTail ps (startOffset r) ci) as [[stayi outi]|] eqn:Et;
      [| discriminate].
    destruct (extractHead pe (endOffset r) cj) as [[outj stayj]|] eqn:Eh;
      [| discriminate].
    intros H. injection H as <- <- <-.
    destruct (nth_error_parts _ _ _ Hi) as [_ L].
    pose proof (nth_error_two_parts _ _ _ _ _ Hi Hj Hlt) as Ecs.
    set (mid := firstn (j - S i) (skipn (S i) cs)) in *.
    exists q, t, a, cs, (firstn i cs ++ [stayi]), (stayj :: skipn (S j) cs).
    split; [exact Hq |]. split; [| split; [| split]].
    + unfold insertedUnder. simpl fst.
      rewrite (getNode_replaceAt _ _ _ _ Hq). reflexivity.
    + intros w. unfold insertNode.
      rewrite (getNode_replaceAt _ _ _ _ Hq).
      rewrite (replaceAt_twice _ _ _ _ _ Hq).
      cbn [app].
      assert (E1 : firstn (S i) (firstn i cs ++ stayi :: stayj :: skipn (S j) cs)
                   = firstn i cs ++ [stayi]).
      { change (firstn i cs ++ stayi :: stayj :: skipn (S j) cs)
          with (firstn i cs ++ [stayi] ++ stayj :: skipn (S j) cs).
        rewrite app_assoc. apply firstn_middle.
        rewrite length_app. simpl. lia. }
      rewrite E1, (skipn_S_middle _ _ _ _ L). reflexivity.
    + rewrite Ecs at 3. rewrite !flat_map_app. simpl.
      rewrite !flat_map_app. simpl.
      rewrite <- (extractTail_text _ _ _ _ _ Et), <- (extractHead_text _ _ _ _ _ Eh).
      rewrite !app_nil_r, <- !app_assoc. reflexivity.
    + intros id.
      assert (Hc : countIds id cs
                   = (countIds id (firstn i cs) + countId id ci + countIds id mid
                      + countId id cj + countIds id (skipn (S j) cs))%nat).
      { rewrite Ecs at 1.
        rewrite countIds_app, countIds_cons, countIds_app, countIds_cons. lia. }
      rewrite Hc, !countIds_app, !countIds_cons, !countIds_app, !countIds_cons.
      destruct (extractTail_count id _ _ _ _ _ Et) as [T1 T2].
      destruct (extractHead_count id _ _ _ _ _ Eh) as [H1 H2].
      change (countIds id []) with 0%nat. lia.
Qed.

Lemma hasId_wrapper (id id' color : string) :
  hasId id' (wrapperAttrs id color) = String.eqb id id'.
Proof. reflexivity. Qed.

Lemma countId_Elem (id : string) (t : string) (a : attrs) (cs : list node) :
  countId id (Elem t a cs)
  = ((if hasId id a then 1 else 0) + countIds id cs)%nat.
Proof. reflexivity. Qed.

Lemma wrappersOf_replaceAt (id : string) (q : path) (n x new : node) :
  getNode q n = Some x -> sameRoot x new ->
  (wrappersOf id (replaceAt q new n) + wrappersOf id x
   = wrappersOf id n + wrappersOf id new)%nat.
Proof.
  intros Hq Hr.
  pose proof (countId_replaceAt id _ _ _ new Hq).
  pose proof (wrappersOf_countId id _ _ Hr).
  pose proof (wrappersOf_countId id _ _ (sameRoot_replaceAt _ _ _ _ Hq Hr)).
  lia.
Qed.

Lemma wrappersOf_below (id : string) (q : path) (n x : node) :
  getNode q n = Some x -> (wrappersOf id x <= wrappersOf id n)%nat.
Proof.
  intros Hq. destruct x as [s | t a cs]; [simpl; lia |].
  pose proof (wrappersOf_replaceAt id q n _ (Elem t a []) Hq (conj eq_refl eq_refl)).
  simpl in *. lia.
Qed.

Lemma wrappersOf_normalize (id : string) (n : node) :
  wrappersOf id (normalize n) = wrappersOf id n.
Proof.
  pose proof (wrappersOf_countId id _ _ (normalize_sameRoot n)).
  pose proof (normalize_count id n). lia.
Qed.

(** [applyHighlight] either leaves the document as it is (the range is
    collapsed, or nothing can be extracted), or rebuilds one element [x]
    of it as [new], with the same text, the wrapper added and every id
    carried at least as often as before. *)
Lemma applyHighlight_cases (body : node) (r : range) (id color : string) :
  isElement body = true ->
  (startContainer r = endContainer r -> (startOffset r <= endOffset r)%nat) ->
  (applyHighlight body r id color = body
   /\ (collapsed r = true \/ extractContents body r = None))
  \/ (exists (q : path) (x new : node),
         getNode q body = Some x
         /\ applyHighlight body r id color = replaceAt q new body
         /\ sameRoot x new
         /\ textContent new = textContent x
         /\ forall id',
             (wrappersOf id' x + (if String.eqb id id' then 1 else 0)
              <= wrappersOf id' new)%nat
             /\ (wrappersOf id' x = 0%nat ->
                 wrappersOf id' new = if String.eqb id id' then 1%nat else 0%nat)).
Proof.
  intros Hbody Horder. unfold applyHighlight.
  destruct (collapsed r); [left; auto |].
  unfold surroundContents.
  destruct (extractContents body r) as [[[body1 frag] bp]|] eqn:E.
  - right.
    destruct (extract_insert_shape _ _ _ _ _ Hbody Horder E)
      as (q & t & a & cs & l1 & l2 & Hq & Hunder & Hins & Htext & Hcount).
    set (w := mkWrapper id color frag).
    assert (Hnew_text : textContent (Elem t a (l1 ++ w :: l2))
                        = textContent (Elem t a cs)).
    { unfold w, mkWrapper. simpl. rewrite flat_map_app. simpl. exact Htext. }
    assert (Hnew_count : forall id',
               (wrappersOf id' (Elem t a cs) + (if String.eqb id id' then 1 else 0)
                <= wrappersOf id' (Elem t a (l1 ++ w :: l2)))%nat
               /\ (wrappersOf id' (Elem t a cs) = 0%nat ->
                   wrappersOf id' (Elem t a (l1 ++ w :: l2))
                   = if String.eqb id id' then 1%nat else 0%nat)).
    { intros id'. unfold wrappersOf. fold (countIds id' cs).
      fold (countIds id' (l1 ++ w :: l2)).
      rewrite countIds_app, countIds_cons.
      unfold w, mkWrapper. rewrite countId_Elem, hasId_wrapper.
      destruct (Hcount id') as [C1 C2].
      destruct (String.eqb id id'); lia. }
    exists q, (Elem t a cs).
    destruct (crossesElement (startContainer r) (endContainer r)).
    + (* the fallback, with the final normalization *)
      exists (normalize (Elem t a (l1 ++ w :: l2))).
      rewrite (Hins w), Hunder. unfold normalizeAt.
      rewrite (getNode_replaceAt _ _ _ _ Hq), (replaceAt_twice _ _ _ _ _ Hq).
      split; [exact Hq |]. split; [reflexivity |].
      split; [simpl; auto |].
      split; [rewrite normalize_text; exact Hnew_text |].
      intros id'. rewrite wrappersOf_normalize. apply Hnew_count.
    + (* surroundContents *)
      exists (Elem t a (l1 ++ w :: l2)).
      rewrite (Hins w).
      split; [exact Hq |]. split; [reflexivity |].
      split; [simpl; auto |]. split; [exact Hnew_text | exact Hnew_count].
  - left. destruct (crossesElement _ _); auto.
Qed.

(** The wrapper changes no text. *)
Lemma applyHighlight_text (body : node) (r : range) (id color : string) :
  isElement body = true ->
  (startContainer r = endContainer r -> (startOffset r <= endOffset r)%nat) ->
  textContent (applyHighlight body r id color) = textContent body.
Proof.
  intros Hbody Horder.
  destruct (applyHighlight_cases body r id color Hbody Horder)
    as [[-> _] | (q & x & new & Hq & -> & _ & Ht & _)]; [reflexivity |].
  apply (textContent_replaceAt _ _ _ _ Hq Ht).
Qed.

Lemma applyHighlight_sameRoot (body : node) (r : range) (id color : string) :
  isElement body = true ->
  (startContainer r = endContainer r -> (startOffset r <= endOffset r)%nat) ->
  sameRoot body (applyHighlight body r id color).
Proof.
  intros Hbody Horder.
  destruct (applyHighlight_cases body r id color Hbody Horder)
    as [[-> _] | (q & x & new & Hq & -> & Hr & _)]; [apply sameRoot_refl |].
  apply (sameRoot_replaceAt _ _ _ _ Hq Hr).
Qed.

(** Wrappers are never lost, and a wrapper that is put in is counted. *)
Lemma applyHighlight_wrappers (body : node) (r : range) (id color id' : string) :
  isElement body = true ->
  (startContainer r = endContainer r -> (startOffset r <= endOffset r)%nat) ->
  (wrappersOf id' body <= wrappersOf id' (applyHighlight body r id color))%nat
  /\ (collapsed r = false -> extractContents body r <> None ->
      (wrappersOf id' body + (if String.eqb id id' then 1 else 0)
       <= wrappersOf id' (applyHighlight body r id color))%nat)
  /\ (wrappersOf id' body = 0%nat ->
      (wrappersOf id' (applyHighlight body r id color)
       <= if String.eqb id id' then 1 else 0)%nat).
Proof.
  intros Hbody Horder.
  destruct (applyHighlight_cases body r id color Hbody Horder)
    as [[E Hwhy] | (q & x & new & Hq & E & Hr & _ & Hc)]; rewrite E.
  - split; [lia |]. split; [| intros ->; lia].
    intros Hcol Hex. destruct Hwhy; congruence.
  - destruct (Hc id') as [C1 C2].
    pose proof (wrappersOf_replaceAt id' _ _ _ _ Hq Hr) as Hrep.
    pose proof (wrappersOf_below id' _ _ _ Hq) as Hbelow.
    split; [lia |]. split; [intros; lia |].
    intros H0. assert (Hx0 : wrappersOf id' x = 0%nat) by lia.
    specialize (C2 Hx0). lia.
Qed.

(* ===================================================================== *)
(** ** Looking a wrapper up and removing it *)
(* ===================================================================== *)

Lemma firstMatch_None (f : node -> option path) (cs : list node) :
  forall i, firstMatch f i cs = None <-> Forall (fun c => f c = None) cs.
Proof.
  induction cs as [|c cs IH]; intros i; simpl.
  - split; [constructor | reflexivity].
  - destruct (f c) eqn:E.
    + split; [discriminate |]. intros H. inversion H; congruence.
    + rewrite IH. split; [intros H; constructor; assumption |].
      intros H. inversion H; assumption.
Qed.

Lemma firstMatch_Some (f : node -> option path) (cs : list node) :
  forall i p,
    firstMatch f i cs = Some p ->
    exists k c p', p = (i + k)%nat :: p' /\ nth_error cs k = Some c /\ f c = Some p'.
Proof.
  induction cs as [|c cs IH]; intros i p H; simpl in H; [discriminate |].
  destruct (f c) as [p'|] eqn:E.
  - injection H as <-. exists 0%nat, c, p'. rewrite Nat.add_0_r. auto.
  - destruct (IH _ _ H) as (k & c' & p' & -> & Hk & Hf).
    exists (S k), c', p'. split; [f_equal; lia | auto].
Qed.

Lemma selectIn_None (id : string) (n : node) :
  selectIn id n = None <-> countId id n = 0%nat.
Proof.
  induction n as [s | t a cs IH] using node_induction; simpl; [tauto |].
  destruct (hasId id a); [split; [discriminate | lia] |].
  rewrite firstMatch_None. simpl.
  induction IH as [|c cs Hc _ IHcs]; simpl.
  - split; [reflexivity | constructor].
  - split.
    + intros H. inversion H as [|? ? H1 H2]; subst.
      apply Hc in H1. apply IHcs in H2. lia.
    + intros H. constructor; [apply Hc | apply IHcs]; lia.
Qed.

Lemma selectIn_Some (id : string) (n : node) :
  forall p,
    selectIn id n = Some p ->
    exists t a ks, getNode p n = Some (Elem t a ks) /\ hasId id a = true.
Proof.
  induction n as [s | t a cs IH] using node_induction; intros p H; simpl in H;
    [discriminate |].
  destruct (hasId id a) eqn:Ha.
  - injection H as <-. exists t, a, cs. auto.
  - destruct (firstMatch_Some _ _ _ _ H) as (k & c & p' & -> & Hk & Hf).
    rewrite Forall_forall in IH.
    destruct (IH c (nth_error_In _ _ Hk) _ Hf) as (t' & a' & ks & Hg & Hid).
    exists t', a', ks. simpl. rewrite Hk. auto.
Qed.

Lemma querySelector_None (id : string) (body : node) :
  querySelector id body = None <-> wrappersOf id body = 0%nat.
Proof.
  destruct body as [s | t a cs]; simpl; [tauto |].
  rewrite firstMatch_None.
  induction cs as [|c cs IH]; simpl.
  - split; [reflexivity | constructor].
  - split.
    + intros H. inversion H as [|? ? H1 H2]; subst.
      apply selectIn_None in H1. apply IH in H2. lia.
    + intros H. constructor; [apply selectIn_None | apply IH]; lia.
Qed.

Lemma querySelector_Some (id : string) (body : node) (p : path) :
  querySelector id body = Some p ->
  p <> []
  /\ exists t a ks, getNode p body = Some (Elem t a ks) /\ hasId id a = true.
Proof.
  destruct body as [s | t a cs]; simpl; [discriminate |]. intros H.
  destruct (firstMatch_Some _ _ _ _ H) as (k & c & p' & -> & Hk & Hf).
  split; [discriminate |].
  destruct (selectIn_Some _ _ _ Hf) as (t' & a' & ks & Hg & Hid).
  exists t', a', ks. simpl. rewrite Hk. auto.
Qed.

(** The removal either finds no element, or splices the children of
    the element found into its parent, which it normalizes. *)
Lemma removeHighlightElement_cases (body : node) (id : string) :
  (querySelector id body = None /\ removeHighlightElement body id = body)
  \/ (exists (q : path) (t : string) (a : attrs) (cs : list node) (i : nat)
             (t' : string) (a' : attrs) (kids : list node),
         getNode q body = Some (Elem t a cs)
         /\ nth_error cs i = Some (Elem t' a' kids)
         /\ hasId id a' = true
         /\ removeHighlightElement body id
            = replaceAt q
                (normalize (Elem t a (firstn i cs ++ kids ++ skipn (S i) cs)))
                body).
Proof.
  unfold removeHighlightElement.
  destruct (querySelector id body) as [p|] eqn:Hq; [right | left; auto].
  destruct (querySelector_Some _ _ _ Hq) as (Hne & t' & a' & kids & Hp & Hid).
  destruct (getNode_parent _ _ _ Hne Hp) as (t & a & cs & Hpar & Hi).
  rewrite (parentOf_nonempty _ Hne), Hp, Hpar.
  exists (removelast p), t, a, cs, (last p 0%nat), t', a', kids. auto.
Qed.

(** Removing a wrapper changes no text. *)
Lemma removeHighlightElement_text (body : node) (id : string) :
  textContent (removeHighlightElement body id) = textContent body.
Proof.
  destruct (removeHighlightElement_cases body id)
    as [[_ ->] | (q & t & a & cs & i & t' & a' & kids & Hq & Hi & _ & ->)];
    [reflexivity |].
  apply (textContent_replaceAt _ _ _ _ Hq).
  rewrite normalize_text. destruct (nth_error_parts _ _ _ Hi) as [Ecs _].
  simpl. rewrite Ecs at 3. rewrite !flat_map_app. reflexivity.
Qed.

(** It takes one element with the id away and no other element. *)
Lemma removeHighlightElement_wrappers (body : node) (id id' : string) :
  querySelector id body <> None ->
  (wrappersOf id' (removeHighlightElement body id)
   + (if String.eqb id id' then 1 else 0) = wrappersOf id' body)%nat.
Proof.
  intros Hsome.
  destruct (removeHighlightElement_cases body id)
    as [[Hnone _] | (q & t & a & cs & i & t' & a' & kids & Hq & Hi & Hid & ->)];
    [congruence |].
  pose proof (wrappersOf_replaceAt id' q body _
                (normalize (Elem t a (firstn i cs ++ kids ++ skipn (S i) cs)))
                Hq (conj eq_refl eq_refl)) as Hrep.
  rewrite wrappersOf_normalize in Hrep.
  destruct (nth_error_parts _ _ _ Hi) as [Ecs _].
  assert (Hcs : wrappersOf id' (Elem t a cs)
                = (countIds id' (firstn i cs)
                   + ((if hasId id' a' then 1 else 0) + countIds id' kids)
                   + countIds id' (skipn (S i) cs))%nat).
  { unfold wrappersOf. fold (countIds id' cs). rewrite Ecs at 1.
    rewrite countIds_app, countIds_cons, countId_Elem. lia. }
  assert (Hnew : wrappersOf id' (Elem t a (firstn i cs ++ kids ++ skipn (S i) cs))
                 = (countIds id' (firstn i cs) + countIds id' kids
                    + countIds id' (skipn (S i) cs))%nat).
  { unfold wrappersOf.
    fold (countIds id' (firstn i cs ++ kids ++ skipn (S i) cs)).
    rewrite !countIds_app. lia. }
  assert (Hsame : hasId id' a' = String.eqb id id').
  { unfold hasId in *. destruct (highlightId a') as [x|]; [| discriminate].
    apply String.eqb_eq in Hid. subst x. reflexivity. }
  rewrite Hsame in Hcs. lia.
Qed.

(* ===================================================================== *)
(** ** The ranges of the resolver can be wrapped *)
(* ===================================================================== *)

Lemma path_compare_refl (p : path) : path_compare p p = Eq.
Proof.
  induction p as [|i p IH]; simpl; [reflexivity |].
  rewrite Nat.compare_refl. exact IH.
Qed.

Lemma path_compare_app (c r1 r2 : path) :
  path_compare (c ++ r1) (c ++ r2) = path_compare r1 r2.
Proof.
  induction c as [|i c IH]; simpl; [reflexivity |].
  rewrite Nat.compare_refl. exact IH.
Qed.

Lemma splitCommon_spec (p q : path) :
  forall c r1 r2,
    splitCommon p q = (c, r1, r2) ->
    p = c ++ r1 /\ q = c ++ r2
    /\ match r1, r2 with
       | i :: _, j :: _ => i <> j
       | _, _ => True
       end.
Proof.
  revert q. induction p as [|i p IH]; intros q c r1 r2 H; simpl in H.
  - injection H as <- <- <-. auto.
  - destruct q as [|j q].
    + injection H as <- <- <-. auto.
    + destruct (Nat.eqb_spec i j) as [-> | Hne].
      * destruct (splitCommon p q) as [[c' r1'] r2'] eqn:E.
        injection H as <- <- <-.
        destruct (IH _ _ _ _ E) as (-> & -> & Hd). auto.
      * injection H as <- <- <-. auto.
Qed.

Lemma inChildren_In {A} (f : node -> list (path * A)) (cs : list node) :
  forall (i : nat) (p : path) (x : A),
    In (p, x) (inChildren f i cs) ->
    exists k c p', p = (i + k)%nat :: p' /\ nth_error cs k = Some c
                   /\ In (p', x) (f c).
Proof.
  induction cs as [|c cs IH]; intros i p x H; simpl in H; [destruct H |].
  apply in_app_or in H as [H | H].
  - apply in_map_iff in H as ([p' x'] & E & Hin). injection E as <- <-.
    exists 0%nat, c, p'. rewrite Nat.add_0_r. auto.
  - destruct (IH _ _ _ H) as (k & c' & p' & -> & Hk & Hin).
    exists (S k), c', p'. split; [f_equal; lia | auto].
Qed.

(** The handles the walk gives name text nodes, with the data given. *)
Lemma textNodesUnder_getNode (n : node) :
  forall (parent : attrs) (p : path) (a : attrs) (s : jsString),
    In (p, (a, s)) (textNodesUnder parent n) -> getNode p n = Some (Text s).
Proof.
  induction n as [s0 | t a0 cs IH] using node_induction;
    intros parent p a s H; simpl in H.
  - destruct H as [H | []]. injection H as <- _ <-. reflexivity.
  - destruct (inChildren_In _ _ _ _ _ H) as (k & c & p' & -> & Hk & Hin).
    rewrite Forall_forall in IH. simpl. rewrite Hk.
    exact (IH c (nth_error_In _ _ Hk) _ _ _ _ Hin).
Qed.

Lemma allText_getNode (body : node) (p : path) (s : jsString) :
  In (p, s) (allText body) -> getNode p body = Some (Text s).
Proof.
  unfold allText, bodyTextNodes. intros H.
  apply in_map_iff in H as ([p' [a s']] & E & Hin). simpl in E.
  injection E as <- <-.
  destruct body as [s0 | t a0 cs]; [destruct Hin |].
  apply (textNodesUnder_getNode (Elem t a0 cs) noAttrs p' a s'). exact Hin.
Qed.

Lemma splitAtNode_In (p : path) (l : list (path * jsString)) :
  forall pre s post,
    splitAtNode p l = Some (pre, s, post) ->
    In (p, s) l /\ incl post l.
Proof.
  induction l as [|[q s0] l IH]; intros pre s post H; simpl in H; [discriminate |].
  destruct (path_eqb p q) eqn:E.
  - apply path_eqb_eq in E. subst q. injection H as <- <- <-.
    split; [left; reflexivity | intros x Hx; right; exact Hx].
  - destruct (splitAtNode p l) as [[[pre' s'] post']|] eqn:E'; [| discriminate].
    injection H as <- <- <-. destruct (IH _ _ _ eq_refl) as [H1 H2].
    split; [right; exact H1 | intros x Hx; right; apply H2; exact Hx].
Qed.

Lemma createRange_Some (body : node) (sn : path) (so : Z) (en : path) (eo : Z)
      (r : range) :
  createRange body sn so en eo = Some r ->
  (r = mkRange en (Z.to_nat eo) en (Z.to_nat eo)
   \/ (r = mkRange sn (Z.to_nat so) en (Z.to_nat eo)
       /\ bpBefore en (Z.to_nat eo) sn (Z.to_nat so) = false)).
Proof.
  unfold createRange.
  destruct (getNode sn body); [| discriminate].
  destruct (getNode en body); [| discriminate].
  destruct (_ && _); [| discriminate].
  destruct (bpBefore en (Z.to_nat eo) sn (Z.to_nat so)) eqn:E;
    intros H; injection H as <-; auto.
Qed.

Lemma materialize_Some (body : node) (textNodes : list run) (idx : Z)
      (t : jsString) (r : range) :
  materialize body textNodes idx t = Some r ->
  textNodes <> []
  /\ (collapsed r = true
      \/ bpBefore (endContainer r) (endOffset r)
                  (startContainer r) (startOffset r) = false).
Proof.
  unfold materialize. intros H. split.
  - intros ->. discriminate.
  - destruct (startNode _) as [sn|]; [| discriminate].
    destruct (endNode _) as [en|]; [| discriminate].
    destruct (createRange_Some _ _ _ _ _ _ H) as [-> | [-> Hb]].
    + left. unfold collapsed. simpl. rewrite path_eqb_refl, Nat.eqb_refl. reflexivity.
    + right. exact Hb.
Qed.

(** What [applyHighlight] needs of a range, and that the ranges of the
    resolver have it. *)
Lemma resolved_range_ok (body : node) (searchText tb ta : option jsString)
      (r : range) :
  findTextWithContext body searchText tb ta = Some r ->
  isElement body = true
  /\ (startContainer r = endContainer r -> (startOffset r <= endOffset r)%nat)
  /\ collapsed r = false
  /\ extractContents body r <> None.
Proof.
  intros H.
  destruct (findTextWithContext_Some _ _ _ _ _ H)
    as (t & textNodes & fullText & -> & Hne & Hlin & _ & Hm & Hstr).
  destruct (materialize_Some _ _ _ _ _ Hm) as [Hruns Hord].
  assert (Hbody : isElement body = true).
  { destruct body; [| reflexivity]. exfalso. apply Hruns.
    unfold linearizeRestore in Hlin. simpl in Hlin. congruence. }
  assert (Hcol : collapsed r = false).
  { destruct (collapsed r) eqn:Ec; [| reflexivity]. exfalso.
    unfold collapsed in Ec. apply andb_true_iff in Ec as [E1 E2].
    apply Nat.eqb_eq in E2. unfold rangeToString in Hstr.
    rewrite E1, E2, Nat.sub_diag in Hstr.
    destruct (getNode (startContainer r) body) as [[s | ? ? ?]|];
      try discriminate.
    rewrite firstn_0 in Hstr. congruence. }
  destruct Hord as [Hord | Hord]; [congruence |].
  split; [exact Hbody |]. split; [| split; [exact Hcol |]].
  - intros E. unfold bpBefore in Hord. rewrite E, path_compare_refl in Hord.
    apply Nat.ltb_ge in Hord. exact Hord.
  - unfold rangeToString in Hstr. unfold extractContents.
    destruct (path_eqb (startContainer r) (endContainer r)) eqn:Esame.
    + destruct (getNode (startContainer r) body) as [[s | ? ? ?]|];
        discriminate.
    + destruct (splitAtNode (startContainer r) (allText body))
        as [[[pre s1] rest]|] eqn:E1; [| discriminate].
      destruct (splitAtNode (endContainer r) rest)
        as [[[mid s2] post]|] eqn:E2; [| discriminate].
      destruct (splitAtNode_In _ _ _ _ _ E1) as [In1 Hrest].
      destruct (splitAtNode_In _ _ _ _ _ E2) as [In2 _].
      apply Hrest in In2.
      apply allText_getNode in In1. apply allText_getNode in In2.
      destruct (splitCommon (startContainer r) (endContainer r))
        as [[q ps] pe] eqn:Esp.
      destruct (splitCommon_spec _ _ _ _ _ Esp) as (Es & Ee & Hd).
      rewrite Es, getNode_app in In1. rewrite Ee, getNode_app in In2.
      unfold bpBefore in Hord. rewrite Es, Ee, path_compare_app in Hord.
      destruct (getNode q body) as [m|]; [| discriminate].
      destruct ps as [|i ps].
      { simpl in In1. injection In1 as ->.
        destruct pe as [|j pe]; [| discriminate].
        rewrite Es, Ee, path_eqb_refl in Esame. discriminate. }
      destruct pe as [|j pe].
      { simpl in In2. injection In2 as ->. discriminate. }
      simpl in In1, In2, Hord.
      destruct m as [s | t' a cs]; [discriminate |].
      destruct (nth_error cs i) as [ci|] eqn:Hi; [| discriminate].
      destruct (nth_error cs j) as [cj|] eqn:Hj; [| discriminate].
      destruct (Nat.ltb_spec i j) as [Hlt | Hge].
      * destruct (extractTail_defined ps (startOffset r) _ _ In1)
          as (stay & out & ->).
        destruct (extractHead_defined pe (endOffset r) _ _ In2)
          as (out' & stay' & ->).
        discriminate.
      * exfalso. destruct (Nat.compare_spec j i) as [E | L | G];
          try discriminate; try lia.
Qed.

Lemma rangeToString_textRange (body : node) (r : range) (t : jsString) :
  rangeToString body r = Some t -> textRange body r = true.
Proof.
  unfold rangeToString, textRange.
  destruct (path_eqb (startContainer r) (endContainer r)) eqn:Esame.
  - apply path_eqb_eq in Esame. rewrite <- Esame.
    destruct (getNode (startContainer r) body) as [[s | ? ? ?]|];
      [reflexivity | discriminate | discriminate].
  - destruct (splitAtNode (startContainer r) (allText body))
      as [[[pre s1] rest]|] eqn:E1; [| discriminate].
    destruct (splitAtNode (endContainer r) rest)
      as [[[mid s2] post]|] eqn:E2; [| discriminate].
    destruct (splitAtNode_In _ _ _ _ _ E1) as [In1 Hrest].
    destruct (splitAtNode_In _ _ _ _ _ E2) as [In2 _].
    apply Hrest in In2.
    rewrite (allText_getNode _ _ _ In1), (allText_getNode _ _ _ In2).
    reflexivity.
Qed.

(** Every range of the resolver lies between two text nodes. *)
Lemma resolved_range_textRange (body : node) (searchText tb ta : option jsString)
      (r : range) :
  findTextWithContext body searchText tb ta = Some r -> textRange body r = true.
Proof.
  intros H.
  destruct (findTextWithContext_Some _ _ _ _ _ H)
    as (t & _ & _ & _ & _ & _ & _ & _ & Hstr).
  exact (rangeToString_textRange _ _ _ Hstr).
Qed.

(* ===================================================================== *)
(** ** C8: mapping the span to boundary points *)
(* ===================================================================== *)

(** C8, counterexample.  In [<p>ab</p><p>cd</p>] the span [[0, 2)] ends
    on the boundary of the two runs; the end is put at offset 2 of the
    first text node, not at offset 0 of the second. *)
Lemma C8_end_on_boundary_counterexample : ~ endOnBoundaryGoesToNextRun.
Proof.
  intros H.
  destruct (H Demo.twoRuns
              [mkRun [0; 0]%nat 0 2 (lit "ab"); mkRun [1; 0]%nat 2 4 (lit "cd")]
              (lit "abcd") 0 2 []
              [] (mkRun [0; 0]%nat 0 2 (lit "ab")) (mkRun [1; 0]%nat 2 4 (lit "cd")))
    as [Hnode _]; try reflexivity; try lia.
  vm_compute in Hnode. discriminate.
Qed.

Lemma materialize_located (body : node) (textNodes : list run) (idx : Z)
      (t : jsString) (r : range) :
  materialize body textNodes idx t = Some r -> collapsed r = false ->
  exists sn en,
    startNode (locate idx (idx + len t) textNodes notLocated) = Some sn
    /\ endNode (locate idx (idx + len t) textNodes notLocated) = Some en
    /\ r = mkRange sn
             (Z.to_nat (startNodeOffset (locate idx (idx + len t) textNodes notLocated)))
             en
             (Z.to_nat (endNodeOffset (locate idx (idx + len t) textNodes notLocated))).
Proof.
  unfold materialize. intros H Hcol.
  destruct (startNode _) as [sn|]; [| discriminate].
  destruct (endNode _) as [en|]; [| discriminate].
  destruct (createRange_Some _ _ _ _ _ _ H) as [-> | [-> _]].
  - unfold collapsed in Hcol. simpl in Hcol.
    rewrite path_eqb_refl, Nat.eqb_refl in Hcol. discriminate.
  - exists sn, en. auto.
Qed.

(** C8, as amended.  For a span [[targetStart, targetEnd)] inside the
    linear text, the start is mapped to the one run whose interval
    [[start, end)] holds [targetStart], with the local offset
    [targetStart - start]; the end is mapped to the one run whose
    interval [(start, end]] holds [targetEnd], with the local offset
    [targetEnd - start]: an end on a run boundary is the end of the
    earlier run (the local offset is the length of that run).  The
    range that [findTextWithContext] returns has these two boundary
    points, for the span that starts at the offset of the match. *)
Theorem C8_boundary_mapping :
  forall (body : node) (textNodes : list run) (fullText : jsString),
    linearizeRestore body = (textNodes, fullText) ->
    (forall targetStart targetEnd : Z,
        0 <= targetStart -> targetStart < targetEnd ->
        targetEnd <= len fullText ->
        exists rs re : run,
          let st := locate targetStart targetEnd textNodes notLocated in
          In rs textNodes /\ In re textNodes
          /\ startNode st = Some (NodeInfo.node rs)
          /\ NodeInfo.startOffset rs <= targetStart < NodeInfo.endOffset rs
          /\ startNodeOffset st = targetStart - NodeInfo.startOffset rs
          /\ (forall r, In r textNodes ->
                NodeInfo.startOffset r <= targetStart < NodeInfo.endOffset r ->
                r = rs)
          /\ endNode st = Some (NodeInfo.node re)
          /\ NodeInfo.startOffset re < targetEnd <= NodeInfo.endOffset re
          /\ endNodeOffset st = targetEnd - NodeInfo.startOffset re
          /\ (forall r, In r textNodes ->
                NodeInfo.startOffset r < targetEnd <= NodeInfo.endOffset r ->
                r = re)
          /\ (targetEnd = NodeInfo.endOffset re ->
              endNodeOffset st = len (NodeInfo.text re)))
    /\ (forall (searchText : jsString) (textBefore textAfter : option jsString)
               (r : range),
           findTextWithContext body (Some searchText) textBefore textAfter
           = Some r ->
           let offset := findSearchIndex fullText searchText textBefore textAfter in
           exists rs re : run,
             In rs textNodes /\ In re textNodes
             /\ startContainer r = NodeInfo.node rs
             /\ NodeInfo.startOffset rs <= offset < NodeInfo.endOffset rs
             /\ Z.of_nat (startOffset r) = offset - NodeInfo.startOffset rs
             /\ endContainer r = NodeInfo.node re
             /\ NodeInfo.startOffset re < offset + len searchText
                <= NodeInfo.endOffset re
             /\ Z.of_nat (endOffset r)
                = offset + len searchText - NodeInfo.startOffset re).
Proof.
  intros body textNodes fullText Hlin. split.
  - intros ts te H0 Hlt Hle.
    destruct (linearize_spec _ _ _ _ Hlin) as (Hc & Hfull & _ & _).
    subst fullText.
    destruct (locate_complete ts te textNodes 0 notLocated Hc) as [Hs He];
      [intros _; lia | intros _; lia |].
    destruct (locate_sound textNodes ts te textNodes notLocated) as [Hs' He'];
      [apply incl_refl | intros sn E; discriminate | intros en E; discriminate |].
    destruct (startNode (locate ts te textNodes notLocated)) as [sn|] eqn:Esn;
      [| congruence].
    destruct (endNode (locate ts te textNodes notLocated)) as [en|] eqn:Een;
      [| congruence].
    destruct (Hs' sn Esn) as (rs & Hrs & <- & Hins & Hoffs).
    destruct (He' en Een) as (re & Hre & <- & Hine & Hoffe).
    exists rs, re. cbv zeta.
    repeat split; try assumption; try lia.
    + intros r Hr Hin. exact (contiguous_unique _ _ _ _ ts Hc Hr Hrs Hin Hins).
    + intros r Hr Hin.
      apply (contiguous_unique _ _ _ _ (te - 1) Hc Hr Hre); lia.
    + intros E. destruct (contiguous_In _ _ _ Hc Hre) as [_ Hlen]. lia.
  - intros searchText tb ta r Hfind offset.
    destruct (resolved_range_ok _ _ _ _ _ Hfind) as (_ & _ & Hcol & _).
    destruct (findTextWithContext_Some _ _ _ _ _ Hfind)
      as (t & tn & ft & Et & _ & Hlin' & _ & Hm & _).
    injection Et as <-. rewrite Hlin in Hlin'. injection Hlin' as <- <-.
    fold offset in Hm.
    destruct (materialize_located _ _ _ _ _ Hm Hcol) as (sn & en & Esn & Een & ->).
    destruct (locate_sound textNodes offset (offset + len searchText)
                textNodes notLocated) as [Hs' He'];
      [apply incl_refl | intros x E; discriminate | intros x E; discriminate |].
    destruct (Hs' sn Esn) as (rs & Hrs & <- & Hins & Hoffs).
    destruct (He' en Een) as (re & Hre & <- & Hine & Hoffe).
    exists rs, re. simpl. rewrite Hoffs, Hoffe.
    repeat split; try assumption; try lia.
Qed.

Lemma C8_boundary_mapping_witness :
  0 <= 0 /\ 0 < 2 /\ 2 <= len (lit "abcd")
  /\ (exists rs re : run,
         startNode (locate 0 2 (fst (linearizeRestore Demo.twoRuns)) notLocated)
         = Some (NodeInfo.node rs)
         /\ endNode (locate 0 2 (fst (linearizeRestore Demo.twoRuns)) notLocated)
            = Some (NodeInfo.node re)
         /\ endNodeOffset (locate 0 2 (fst (linearizeRestore Demo.twoRuns)) notLocated)
            = 2 - NodeInfo.startOffset re)
  /\ findTextWithContext Demo.twoRuns (Some (lit "ab")) None None
     = Some (mkRange [0; 0]%nat 0 [0; 0]%nat 2)
  /\ (exists rs re : run,
         [0; 0]%nat = NodeInfo.node rs /\ [0; 0]%nat = NodeInfo.node re
         /\ Z.of_nat 2 = 0 + len (lit "ab") - NodeInfo.startOffset re).
Proof.
  split; [lia |]. split; [lia |]. split; [vm_compute; discriminate |].
  pose proof (C8_boundary_mapping Demo.twoRuns
                (fst (linearizeRestore Demo.twoRuns)) (lit "abcd") eq_refl)
    as [Hloc Hres].
  split; [| split; [reflexivity |]].
  - destruct (Hloc 0 2) as (rs & re & _ & _ & Hs & _ & _ & _ & He & _ & Ho & _).
    + lia.
    + lia.
    + vm_compute. discriminate.
    + exists rs, re. auto.
  - destruct (Hres (lit "ab") None None (mkRange [0; 0]%nat 0 [0; 0]%nat 2) eq_refl)
      as (rs & re & _ & _ & Hs & _ & _ & He & _ & Ho).
    exists rs, re. auto.
Defined.

(* ===================================================================== *)
(** ** C2: the round trip *)
(* ===================================================================== *)

Lemma createRangeFromHighlight_Some (body : node) (h : highlight) (r : range) :
  createRangeFromHighlight body h = Some r ->
  querySelector (Highlight.id h) body = None
  /\ findTextWithContext body (Some (Highlight.text h)) (Highlight.textBefore h) (Highlight.textAfter h)
     = Some r.
Proof.
  unfold createRangeFromHighlight.
  destruct (querySelector (Highlight.id h) body); [discriminate | auto].
Qed.

Lemma roundTrip_text (h : highlight) (body : node) :
  textContent (roundTrip h body) = textContent body.
Proof.
  unfold roundTrip.
  destruct (createRangeFromHighlight body h) as [r|] eqn:E; [| reflexivity].
  apply createRangeFromHighlight_Some in E as [_ E].
  destruct (resolved_range_ok _ _ _ _ _ E) as (Hbody & Hord & _).
  simpl. rewrite removeHighlightElement_text.
  apply applyHighlight_text; assumption.
Qed.

(** In one text node [surroundContents] succeeds: the node is split
    around the wrapper, and the removal, with its normalization, gives
    the page back as it was. *)
Example twoCats_round_trip :
  applyHighlight Demo.twoCats (mkRange [0; 0]%nat 4 [0; 0]%nat 7) "hl-1" "#ffeb3b"
  = el "body"
       [el "p" [txt "the "; mkWrapper "hl-1" "#ffeb3b" [txt "cat"]; txt " sat"];
        el "p" [txt "a cat ran"]]
  /\ roundTrip (mkHighlight "hl-1" (lit "cat") None None
                            "https://example.org/" 4 7 "#ffeb3b")
               Demo.twoCats
     = Demo.twoCats.
Proof. split; reflexivity. Qed.

(** The cycle on [helloBig], step by step.  The range of "Hello big"
    ends inside [<b>], so [surroundContents] refuses it; the fallback
    moves "Hello " and a clone of [<b>] with "big" into the wrapper and
    leaves [<b> </b>] behind. *)
Example helloBig_round_trip :
  applyHighlight Demo.helloBig Demo.helloBigSelection "hl-1" "#ffeb3b"
  = el "body"
       [el "p" [mkWrapper "hl-1" "#ffeb3b" [txt "Hello "; el "b" [txt "big"]];
                el "b" [txt " "]; txt "world"]]
  /\ removeHighlightElement
       (applyHighlight Demo.helloBig Demo.helloBigSelection "hl-1" "#ffeb3b")
       "hl-1"
     = el "body"
          [el "p" [txt "Hello "; el "b" [txt "big"]; el "b" [txt " "];
                   txt "world"]]
  /\ snd (linearizeRestore Demo.helloBig) = lit "Hello big world"
  /\ snd (linearizeRestore
            (removeHighlightElement
               (applyHighlight Demo.helloBig Demo.helloBigSelection
                               "hl-1" "#ffeb3b")
               "hl-1"))
     = lit "Hello bigworld".
Proof. repeat split; reflexivity. Qed.

(** C2, counterexample.  In [<p>Hello <b>big </b>world</p>] the anchor
    captured for the selection "Hello big" is resolved and wrapped by the
    fallback, which splits [<b>]; after the removal the page is
    [<p>Hello <b>big</b><b> </b>world</p>], and the blank text node
    left in the second [<b>] is no run: the linear text has become
    "Hello bigworld". *)
Lemma C2_linear_text_counterexample : ~ roundTripKeepsLinearText.
Proof.
  unfold roundTripKeepsLinearText. intros H.
  specialize (H Demo.helloBig Demo.helloBigSelection (lit "Hello big")
                "#ffeb3b"%string "hl-1"%string "https://example.org/"%string
                (mkHighlight "hl-1" (lit "Hello big") (Some [])
                             (Some (lit " world")) "https://example.org/"
                             0 9 "#ffeb3b")
                eq_refl).
  vm_compute in H. discriminate.
Qed.

(** C2, as amended.  For every anchor, the one captured for a selection
    or any other: a cycle that resolves the anchor, applies the wrapper
    and deletes the highlight again leaves the text content of the
    document (the data of all its text nodes, blank ones included, in
    document order) as it was, and so does any number of such cycles.
    When the anchor is resolved, the page has exactly one wrapper for it
    after the wrapper is applied and none after the deletion. *)
Theorem C2_round_trip_text_content :
  forall (body : node) (h : highlight),
    (forall n : nat,
        textContent (Nat.iter n (roundTrip h) body) = textContent body)
    /\ (forall r : range,
           createRangeFromHighlight body h = Some r ->
           let applied :=
             applyHighlight body r (Highlight.id h) (Highlight.color h) in
           textContent applied = textContent body
           /\ wrappersOf (Highlight.id h) applied = 1%nat
           /\ forall highlights : list highlight,
               let removed :=
                 snd (deleteHighlight true (Highlight.id h) highlights applied) in
               textContent removed = textContent body
               /\ wrappersOf (Highlight.id h) removed = 0%nat).
Proof.
  intros body h. split.
  - induction n as [|n IH]; simpl; [reflexivity |].
    rewrite roundTrip_text. exact IH.
  - intros r Hr applied.
    destruct (createRangeFromHighlight_Some _ _ _ Hr) as [Hfresh Hfind].
    destruct (resolved_range_ok _ _ _ _ _ Hfind) as (Hbody & Hord & Hcol & Hex).
    apply querySelector_None in Hfresh.
    destruct (applyHighlight_wrappers body r (Highlight.id h) (Highlight.color h)
                (Highlight.id h) Hbody Hord) as (_ & Hge & Hle).
    specialize (Hge Hcol Hex). specialize (Hle Hfresh).
    rewrite String.eqb_refl in Hge, Hle. fold applied in Hge, Hle.
    assert (Hone : wrappersOf (Highlight.id h) applied = 1%nat) by lia.
    assert (Hfound : querySelector (Highlight.id h) applied <> None).
    { rewrite querySelector_None. lia. }
    pose proof (removeHighlightElement_wrappers applied (Highlight.id h)
                  (Highlight.id h) Hfound) as Hrem.
    rewrite String.eqb_refl in Hrem.
    split; [apply applyHighlight_text; assumption |].
    split; [exact Hone |].
    intros highlights removed. subst removed. simpl.
    split; [rewrite removeHighlightElement_text;
            apply applyHighlight_text; assumption | lia].
Qed.

Lemma C2_round_trip_text_content_witness :
  createRangeFromHighlight Demo.helloBig
    (mkHighlight "hl-1" (lit "Hello big") (Some []) (Some (lit " world"))
                 "https://example.org/" 0 9 "#ffeb3b")
  = Some Demo.helloBigSelection
  /\ textContent
       (snd (deleteHighlight true "hl-1" []
          (applyHighlight Demo.helloBig Demo.helloBigSelection "hl-1" "#ffeb3b")))
     = textContent Demo.helloBig.
Proof.
  split; [reflexivity |].
  exact (proj1 (proj2 (proj2
           (proj2 (C2_round_trip_text_content Demo.helloBig
              (mkHighlight "hl-1" (lit "Hello big") (Some [])
                           (Some (lit " world")) "https://example.org/"
                           0 9 "#ffeb3b"))
              Demo.helloBigSelection eq_refl)) [])).
Defined.

(* ===================================================================== *)
(** ** The restoration loop *)
(* ===================================================================== *)

Lemma restoreOne_cases (st : restoreState) (h : highlight) :
  (createRangeFromHighlight (doc st) h = None
   /\ restoreOne st h = mkRestore (doc st) (successCount st) (S (failCount st)))
  \/ (exists r,
         createRangeFromHighlight (doc st) h = Some r
         /\ restoreOne st h
            = mkRestore (applyHighlight (doc st) r (Highlight.id h) (Highlight.color h))
                        (S (successCount st)) (failCount st)).
Proof.
  unfold restoreOne. destruct (createRangeFromHighlight (doc st) h) as [r|];
    [right; exists r; auto | left; auto].
Qed.

(** The counters do not influence what is done to the document. *)
Lemma restore_counters (hs : list highlight) :
  forall (body : node) (s f : nat),
    fold_left restoreOne hs (mkRestore body s f)
    = let st := fold_left restoreOne hs (mkRestore body 0 0) in
      mkRestore (doc st) (s + successCount st) (f + failCount st).
Proof.
  induction hs as [|h hs IH]; intros body s f; simpl.
  - rewrite !Nat.add_0_r. reflexivity.
  - destruct (restoreOne_cases (mkRestore body s f) h) as [[E ->] | (r & E & ->)];
      destruct (restoreOne_cases (mkRestore body 0 0) h) as [[E' ->] | (r' & E' & ->)];
      simpl in *; try congruence.
    + rewrite (IH body s (S f)), (IH body 0%nat 1%nat). simpl. f_equal; lia.
    + assert (r' = r) as -> by congruence.
      rewrite (IH _ (S s) f), (IH _ 1%nat 0%nat). simpl. f_equal; lia.
Qed.

Lemma restore_count (hs : list highlight) :
  forall st : restoreState,
    (successCount (fold_left restoreOne hs st)
     + failCount (fold_left restoreOne hs st)
     = successCount st + failCount st + List.length hs)%nat.
Proof.
  induction hs as [|h hs IH]; intros st; simpl; [lia |].
  rewrite IH.
  destruct (restoreOne_cases st h) as [[_ ->] | (r & _ & ->)]; simpl; lia.
Qed.

Lemma restoreOne_skips (st : restoreState) (h : highlight) :
  querySelector (Highlight.id h) (doc st) <> None ->
  restoreOne st h = mkRestore (doc st) (successCount st) (S (failCount st)).
Proof.
  intros H. unfold restoreOne, createRangeFromHighlight.
  destruct (querySelector (Highlight.id h) (doc st)); [reflexivity | congruence].
Qed.

Lemma restore_skips_all (hs : list highlight) :
  forall st : restoreState,
    (forall h, In h hs -> querySelector (Highlight.id h) (doc st) <> None) ->
    doc (fold_left restoreOne hs st) = doc st.
Proof.
  induction hs as [|h hs IH]; intros st H; simpl; [reflexivity |].
  rewrite (restoreOne_skips st h) by (apply H; left; reflexivity).
  rewrite IH; [reflexivity |]. intros h' Hin. apply H. right. exact Hin.
Qed.

(** One turn of the loop loses no wrapper, and a turn that is counted
    as a success leaves a wrapper for its anchor. *)
Lemma restoreOne_wrappers (st : restoreState) (h : highlight) (id' : string) :
  (wrappersOf id' (doc st) <= wrappersOf id' (doc (restoreOne st h)))%nat
  /\ (failCount st <= failCount (restoreOne st h))%nat
  /\ (failCount (restoreOne st h) = failCount st ->
      (1 <= wrappersOf (Highlight.id h) (doc (restoreOne st h)))%nat)
  /\ (wrappersOf (Highlight.id h) (doc st) <= 1 ->
      wrappersOf (Highlight.id h) (doc (restoreOne st h)) <= 1)%nat.
Proof.
  destruct (restoreOne_cases st h) as [[E ->] | (r & E & ->)]; simpl.
  - repeat split; try lia.
  - destruct (createRangeFromHighlight_Some _ _ _ E) as [Hfresh Hfind].
    destruct (resolved_range_ok _ _ _ _ _ Hfind) as (Hbody & Hord & Hcol & Hex).
    apply querySelector_None in Hfresh.
    destruct (applyHighlight_wrappers (doc st) r (Highlight.id h) (Highlight.color h) id'
                Hbody Hord) as (Hmono & _ & _).
    destruct (applyHighlight_wrappers (doc st) r (Highlight.id h) (Highlight.color h) (Highlight.id h)
                Hbody Hord) as (_ & Hge & Hle).
    specialize (Hge Hcol Hex). specialize (Hle Hfresh).
    rewrite String.eqb_refl in Hge, Hle.
    repeat split; try lia.
Qed.

Lemma restore_wrappers (hs : list highlight) (id' : string) :
  forall st : restoreState,
    (wrappersOf id' (doc st) <= wrappersOf id' (doc (fold_left restoreOne hs st)))%nat
    /\ (failCount st <= failCount (fold_left restoreOne hs st))%nat.
Proof.
  induction hs as [|h hs IH]; intros st; simpl; [lia |].
  destruct (IH (restoreOne st h)) as [H1 H2].
  destruct (restoreOne_wrappers st h id') as (H3 & H4 & _). lia.
Qed.

Lemma restore_all_wrapped (hs : list highlight) :
  forall st : restoreState,
    failCount (fold_left restoreOne hs st) = failCount st ->
    forall h, In h hs ->
      querySelector (Highlight.id h) (doc (fold_left restoreOne hs st)) <> None.
Proof.
  induction hs as [|h0 hs IH]; intros st Hf h Hin; [destruct Hin |].
  simpl in *.
  destruct (restoreOne_wrappers st h0 (Highlight.id h)) as (_ & Hf1 & Hone & _).
  destruct (restore_wrappers hs (Highlight.id h) (restoreOne st h0)) as [Hmono Hf2].
  assert (Hf0 : failCount (restoreOne st h0) = failCount st) by lia.
  destruct Hin as [-> | Hin].
  - rewrite querySelector_None. specialize (Hone Hf0). lia.
  - apply IH; [lia | exact Hin].
Qed.

Lemma restore_successes (hs : list highlight) :
  forall st : restoreState,
    (successCount st <= successCount (fold_left restoreOne hs st))%nat.
Proof.
  induction hs as [|h hs IH]; intros st; simpl; [lia |].
  specialize (IH (restoreOne st h)).
  destruct (restoreOne_cases st h) as [[_ E] | (r & _ & E)];
    rewrite E in *; simpl in IH; lia.
Qed.

Lemma restore_skips_count (hs : list highlight) :
  forall st : restoreState,
    (forall h, In h hs -> querySelector (Highlight.id h) (doc st) <> None) ->
    successCount (fold_left restoreOne hs st) = successCount st.
Proof.
  induction hs as [|h hs IH]; intros st H; simpl; [reflexivity |].
  rewrite (restoreOne_skips st h) by (apply H; left; reflexivity).
  rewrite IH; [reflexivity |]. intros h' Hin. apply H. right. exact Hin.
Qed.

(** *** The toast that ends the restoration *)

(** The toast carries no id. *)
Lemma showToast_wrappersOf (id : string) (message : jsString) (body : node) :
  wrappersOf id (showToast message body) = wrappersOf id body.
Proof.
  destruct body as [s | tag a cs]; simpl; [reflexivity |].
  rewrite map_app, list_sum_app. simpl. lia.
Qed.

Lemma showToast_text (message : jsString) (tag : string) (a : attrs)
      (cs : list node) :
  textContent (showToast message (Elem tag a cs))
  = textContent (Elem tag a cs) ++ message.
Proof.
  simpl. rewrite flat_map_app. simpl. rewrite !app_nil_r. reflexivity.
Qed.

Lemma showToast_sameRoot (message : jsString) (body : node) :
  sameRoot body (showToast message body).
Proof. destruct body; simpl; auto. Qed.

Lemma restoreHighlights_counters (hs : list highlight) (body : node) :
  successCount (restoreHighlights hs body) = successCount (restoreLoop hs body)
  /\ failCount (restoreHighlights hs body) = failCount (restoreLoop hs body).
Proof.
  unfold restoreHighlights.
  destruct (0 <? successCount (restoreLoop hs body))%nat; simpl; auto.
Qed.

Lemma restoreHighlights_wrappersOf (id : string) (hs : list highlight)
      (body : node) :
  wrappersOf id (doc (restoreHighlights hs body))
  = wrappersOf id (doc (restoreLoop hs body)).
Proof.
  unfold restoreHighlights.
  destruct (0 <? successCount (restoreLoop hs body))%nat; simpl;
    [apply showToast_wrappersOf | reflexivity].
Qed.

(** No toast when no anchor was restored. *)
Lemma restoreHighlights_idle (hs : list highlight) (body : node) :
  successCount (restoreLoop hs body) = 0%nat ->
  restoreHighlights hs body = restoreLoop hs body.
Proof. intros H. unfold restoreHighlights. rewrite H. reflexivity. Qed.

(** A turn for which no range is made counts one failure; the turns
    after it go as they go without it. *)
Lemma restoreLoop_failed (before after : list highlight) (h : highlight)
      (body : node) :
  createRangeFromHighlight (doc (restoreLoop before body)) h = None ->
  restoreLoop (before ++ h :: after) body
  = mkRestore (doc (restoreLoop (before ++ after) body))
              (successCount (restoreLoop (before ++ after) body))
              (S (failCount (restoreLoop (before ++ after) body))).
Proof.
  intros Hnone. unfold restoreLoop in *. rewrite !fold_left_app. simpl.
  destruct (restoreOne_cases (fold_left restoreOne before (mkRestore body 0 0)) h)
    as [[_ ->] | (r & E & _)]; [| congruence].
  destruct (fold_left restoreOne before (mkRestore body 0 0)) as [d s f]. simpl.
  rewrite (restore_counters after d s (S f)), (restore_counters after d s f).
  simpl. f_equal; lia.
Qed.

(* ===================================================================== *)
(** ** C5: an anchor that is on the page already *)
(* ===================================================================== *)

(** The restoration of the two anchors of [overlap], written out, with
    the toast that ends it. *)
Example overlap_restored :
  doc (restoreHighlights [Demo.anchorX; Demo.anchorY] Demo.overlap)
  = el "body"
       [el "p" [txt "a";
                mkWrapper "hl-X" "#ffeb3b" [txt "a"; el "b" [txt "b"]];
                mkWrapper "hl-Y" "#90caf9"
                  [mkWrapper "hl-X" "#ffeb3b" [el "b" [txt "b"]];
                   el "b" []; txt "c"];
                txt "c"];
        toastElement (10003%N :: lit " Restored 2 highlight(s)")]
  /\ wrappersOf "hl-X"
       (doc (restoreHighlights [Demo.anchorX; Demo.anchorY] Demo.overlap))
     = 2%nat.
Proof. split; reflexivity. Qed.

(** The two restorations of the anchors of [straddle], written out.
    In the first, "xy" is found at offset 0 of "xyzwxy", where the
    range reads "x y", and is dropped; "yzwx" is wrapped.  The wrapper
    takes "yz" out of the linear text, which becomes "xwxy" followed by
    the text of the toast: in the second restoration "xy" is found at
    offset 2, from inside the wrapper to the text after it, and wrapping
    it clones the wrapper.  Each restoration ends with its toast. *)
Example straddle_restored_twice :
  restoreHighlights [Demo.anchorA; Demo.anchorB] Demo.straddle
  = mkRestore
      (el "body"
          [el "p" [txt "x"; el "b" [txt " "];
                   mkWrapper "hl-B" "#90caf9" [txt "yz"; el "i" [txt "wx"]];
                   el "i" []; txt "y"];
           toastElement (10003%N :: lit " Restored 1 highlight(s)")])
      1 1
  /\ createRangeFromHighlight
       (doc (restoreHighlights [Demo.anchorA; Demo.anchorB] Demo.straddle))
       Demo.anchorA
     = Some (mkRange [0; 2; 1; 0]%nat 1 [0; 4]%nat 1)
  /\ restoreHighlights [Demo.anchorA; Demo.anchorB]
       (doc (restoreHighlights [Demo.anchorA; Demo.anchorB] Demo.straddle))
     = mkRestore
         (el "body"
             [el "p" [txt "x"; el "b" [txt " "];
                      mkWrapper "hl-B" "#90caf9" [txt "yz"; el "i" [txt "w"]];
                      mkWrapper "hl-A" "#ffeb3b"
                        [mkWrapper "hl-B" "#90caf9" [el "i" [txt "x"]];
                         el "i" []; txt "y"]];
              toastElement (10003%N :: lit " Restored 1 highlight(s)");
              toastElement (10003%N :: lit " Restored 1 highlight(s)")])
         1 1.
Proof. repeat split; reflexivity. Qed.

(** C5, counterexample.  On [<p>x<b> </b>yz<i>wx</i>y</p>] with the
    anchors "xy" and "yzwx", the first restoration leaves one wrapper,
    for "yzwx"; the second restoration skips that anchor, resolves "xy"
    to a range that starts inside the wrapper and ends after it, and
    [extractContents] clones the wrapper, attributes and all: two
    elements carry the id of "yzwx". *)
Lemma C5_second_wrapper_counterexample : ~ secondRestorationAddsNoWrapper.
Proof.
  unfold secondRestorationAddsNoWrapper. intros H.
  specialize (H [Demo.anchorA; Demo.anchorB] Demo.straddle).
  assert (Hdup : NoDup (map Highlight.id [Demo.anchorA; Demo.anchorB])).
  { repeat constructor; simpl; intuition discriminate. }
  specialize (H Hdup (fun id => eq_refl) "hl-B"%string).
  vm_compute in H. specialize (H (le_n 1)). lia.
Qed.

(** C5, as amended.  When an element with the id of the anchor is on the
    page, no range is made for the anchor, whatever its text is, and its
    turn in the restoration leaves the document as it is.  A turn never
    takes the number of elements that carry the id of its own anchor
    above one.  So a restoration in which every anchor is on the page
    already changes nothing, and a restoration all of whose anchors were
    restored changes nothing when it is invoked again. *)
Theorem C5_restoration_skips_existing_wrapper :
  forall (body : node),
    (forall (h : highlight) (s f : nat),
        querySelector (Highlight.id h) body <> None ->
        createRangeFromHighlight body h = None
        /\ restoreOne (mkRestore body s f) h = mkRestore body s (S f))
    /\ (forall (h : highlight) (s f : nat),
           (wrappersOf (Highlight.id h) body <= 1)%nat ->
           (wrappersOf (Highlight.id h) (doc (restoreOne (mkRestore body s f) h)) <= 1)%nat)
    /\ (forall highlights : list highlight,
           (forall h, In h highlights -> querySelector (Highlight.id h) body <> None) ->
           doc (restoreHighlights highlights body) = body)
    /\ (forall highlights : list highlight,
           failCount (restoreHighlights highlights body) = 0%nat ->
           doc (restoreHighlights highlights
                  (doc (restoreHighlights highlights body)))
           = doc (restoreHighlights highlights body)).
Proof.
  intros body. split; [| split; [| split]].
  - intros h s f Hex. split.
    + unfold createRangeFromHighlight.
      destruct (querySelector (Highlight.id h) body); [reflexivity | congruence].
    + apply (restoreOne_skips (mkRestore body s f) h Hex).
  - intros h s f Hle.
    apply (restoreOne_wrappers (mkRestore body s f) h (Highlight.id h)). exact Hle.
  - intros highlights Hall.
    rewrite restoreHighlights_idle.
    + apply (restore_skips_all highlights (mkRestore body 0 0) Hall).
    + apply (restore_skips_count highlights (mkRestore body 0 0) Hall).
  - intros highlights Hfail.
    rewrite (proj2 (restoreHighlights_counters highlights body)) in Hfail.
    set (page := doc (restoreHighlights highlights body)).
    assert (Hall : forall h, In h highlights ->
                     querySelector (Highlight.id h) page <> None).
    { intros h Hin. unfold page. rewrite querySelector_None.
      rewrite restoreHighlights_wrappersOf, <- querySelector_None.
      apply (restore_all_wrapped highlights (mkRestore body 0 0) Hfail h Hin). }
    rewrite restoreHighlights_idle.
    + apply (restore_skips_all highlights (mkRestore page 0 0) Hall).
    + apply (restore_skips_count highlights (mkRestore page 0 0) Hall).
Qed.

(** The wrapper of [wrappedAbc] is found, so its anchor is skipped even
    though its text "def" is on the page; and restoring the anchor "abb"
    twice on [overlap] gives the page of the first restoration. *)
Lemma C5_restoration_skips_existing_wrapper_witness :
  querySelector "hl-1" Demo.wrappedAbc <> None
  /\ restoreOne (mkRestore Demo.wrappedAbc 0 0)
                (mkHighlight "hl-1" (lit "def") None None "u" 0 0 "c")
     = mkRestore Demo.wrappedAbc 0 1
  /\ failCount (restoreHighlights [Demo.anchorX] Demo.overlap) = 0%nat
  /\ doc (restoreHighlights [Demo.anchorX]
            (doc (restoreHighlights [Demo.anchorX] Demo.overlap)))
     = doc (restoreHighlights [Demo.anchorX] Demo.overlap).
Proof.
  split; [discriminate |]. split; [| split; [reflexivity |]].
  - apply (proj1 (C5_restoration_skips_existing_wrapper Demo.wrappedAbc)
             (mkHighlight "hl-1" (lit "def") None None "u" 0 0 "c") 0%nat 0%nat).
    discriminate.
  - apply (proj2 (proj2 (proj2
             (C5_restoration_skips_existing_wrapper Demo.overlap)))
             [Demo.anchorX]).
    reflexivity.
Defined.

(* ===================================================================== *)
(** ** The restoration loop as a whole *)
(* ===================================================================== *)

Lemma restoreOne_text (st : restoreState) (h : highlight) :
  textContent (doc (restoreOne st h)) = textContent (doc st).
Proof.
  destruct (restoreOne_cases st h) as [[_ ->] | (r & E & ->)]; simpl;
    [reflexivity |].
  destruct (createRangeFromHighlight_Some _ _ _ E) as [_ Hfind].
  destruct (resolved_range_ok _ _ _ _ _ Hfind) as (Hb & Hord & _ & _).
  apply applyHighlight_text; assumption.
Qed.

Lemma restore_fold_text (hs : list highlight) :
  forall st : restoreState,
    textContent (doc (fold_left restoreOne hs st)) = textContent (doc st).
Proof.
  induction hs as [|h hs IH]; intros st; simpl; [reflexivity |].
  rewrite IH. apply restoreOne_text.
Qed.

Lemma restoreOne_sameRoot (st : restoreState) (h : highlight) :
  sameRoot (doc st) (doc (restoreOne st h)).
Proof.
  destruct (restoreOne_cases st h) as [[_ ->] | (r & E & ->)]; simpl;
    [apply sameRoot_refl |].
  destruct (createRangeFromHighlight_Some _ _ _ E) as [_ Hfind].
  destruct (resolved_range_ok _ _ _ _ _ Hfind) as (Hb & Hord & _ & _).
  apply applyHighlight_sameRoot; assumption.
Qed.

Lemma restore_fold_sameRoot (hs : list highlight) :
  forall st : restoreState, sameRoot (doc st) (doc (fold_left restoreOne hs st)).
Proof.
  induction hs as [|h hs IH]; intros st; simpl; [apply sameRoot_refl |].
  eapply sameRoot_trans; [apply restoreOne_sameRoot | apply IH].
Qed.

(** A body that is no element has no text to find. *)
Lemma restoreLoop_elements (hs : list highlight) (body : node) :
  (0 < successCount (restoreLoop hs body))%nat -> isElement body = true.
Proof.
  intros H. destruct body as [s | tag a cs]; [| reflexivity].
  exfalso. unfold restoreLoop in H.
  assert (Hall : forall (l : list highlight) (s0 f0 : nat),
             successCount (fold_left restoreOne l (mkRestore (Text s) s0 f0))
             = s0).
  { induction l as [|h l IH]; intros s0 f0; simpl; [reflexivity |].
    destruct (restoreOne_cases (mkRestore (Text s) s0 f0) h)
      as [[_ ->] | (r & E & _)]; [apply IH |].
    simpl in E. destruct (createRangeFromHighlight_Some _ _ _ E) as [_ Hfind].
    destruct (resolved_range_ok _ _ _ _ _ Hfind) as (Hb & _). discriminate. }
  rewrite Hall in H. lia.
Qed.

(** The text of the page after the restoration. *)
Lemma restoreHighlights_text (hs : list highlight) (body : node) :
  textContent (doc (restoreHighlights hs body))
  = textContent body
    ++ (if (0 <? successCount (restoreHighlights hs body))%nat
        then restoredMessage (successCount (restoreHighlights hs body))
        else []).
Proof.
  assert (Hloop : textContent (doc (restoreLoop hs body)) = textContent body)
    by apply (restore_fold_text hs (mkRestore body 0 0)).
  assert (Hroot : sameRoot body (doc (restoreLoop hs body)))
    by apply (restore_fold_sameRoot hs (mkRestore body 0 0)).
  unfold restoreHighlights.
  destruct (0 <? successCount (restoreLoop hs body))%nat eqn:Epos;
    simpl; rewrite Epos; [| rewrite app_nil_r; exact Hloop].
  apply Nat.ltb_lt in Epos.
  pose proof (restoreLoop_elements hs body Epos) as Hel.
  destruct body as [s | tag a cs]; [discriminate |].
  destruct (doc (restoreLoop hs (Elem tag a cs))) as [s' | tag' a' cs']
    eqn:Edoc; [destruct Hroot |].
  rewrite showToast_text, Hloop. reflexivity.
Qed.

(** X1.  A restoration changes the text of the page by its toast only.
    Whatever the anchors of the batch are, however their ranges overlap
    and whichever branch of [applyHighlight] wraps them, the text
    content of the document after the loop of [restoreHighlights] is
    the text content before it.  When no anchor was restored the
    function leaves it at that; when [n > 0] anchors were, the text
    content after the function is the text of the page followed by the
    text of the toast: a check mark, then "Restored n highlight(s)".
    The body element keeps its tag and attributes.  The same holds for
    what the content script does when it starts. *)
Theorem restoreHighlights_text_and_toast :
  forall (highlights : list highlight) (body : node),
    let toastText := fun n : nat =>
      if (0 <? n)%nat
      then 10003%N :: lit " Restored "
           ++ lit (NilZero.string_of_uint (Nat.to_uint n))
           ++ lit " highlight(s)"
      else [] in
    let restored := restoreHighlights highlights body in
    textContent (doc (restoreLoop highlights body)) = textContent body
    /\ textContent (doc restored)
       = textContent body ++ toastText (successCount restored)
    /\ sameRoot body (doc restored)
    /\ forall (href : string) (allHighlights : list stored),
         textContent (doc (loadAndRestore href allHighlights body))
         = textContent body
           ++ toastText (successCount (loadAndRestore href allHighlights body)).
Proof.
  intros highlights body toastText restored.
  split; [apply (restore_fold_text highlights (mkRestore body 0 0)) |].
  split; [apply restoreHighlights_text |]. split.
  - unfold restored, restoreHighlights.
    pose proof (restore_fold_sameRoot highlights (mkRestore body 0 0)) as Hroot.
    destruct (0 <? successCount (restoreLoop highlights body))%nat; simpl;
      [| exact Hroot].
    eapply sameRoot_trans; [exact Hroot | apply showToast_sameRoot].
  - intros href allHighlights. apply restoreHighlights_text.
Qed.

(** On [overlap], whose text is "aabbcc", the restoration of "abb" ends
    with the toast for one highlight. *)
Lemma restoreHighlights_text_and_toast_witness :
  textContent (doc (restoreHighlights [Demo.anchorX] Demo.overlap))
  = lit "aabbcc" ++ 10003%N :: lit " Restored 1 highlight(s)".
Proof.
  exact (proj1 (proj2 (restoreHighlights_text_and_toast
                         [Demo.anchorX] Demo.overlap))).
Defined.

(** A turn makes no wrapper for an id other than its anchor's. *)
Lemma restoreOne_foreign (st : restoreState) (h : highlight) (id' : string) :
  Highlight.id h <> id' ->
  wrappersOf id' (doc st) = 0%nat ->
  wrappersOf id' (doc (restoreOne st h)) = 0%nat.
Proof.
  intros Hne H0.
  destruct (restoreOne_cases st h) as [[_ ->] | (r & E & ->)]; simpl;
    [exact H0 |].
  destruct (createRangeFromHighlight_Some _ _ _ E) as [_ Hfind].
  destruct (resolved_range_ok _ _ _ _ _ Hfind) as (Hb & Hord & _ & _).
  destruct (applyHighlight_wrappers (doc st) r (Highlight.id h)
              (Highlight.color h) id' Hb Hord) as (_ & _ & Hle).
  specialize (Hle H0).
  destruct (String.eqb_spec (Highlight.id h) id') as [Heq | _];
    [contradiction | lia].
Qed.

Lemma restore_fold_foreign (hs : list highlight) (id' : string) :
  forall st : restoreState,
    (forall h, In h hs -> Highlight.id h <> id') ->
    wrappersOf id' (doc st) = 0%nat ->
    wrappersOf id' (doc (fold_left restoreOne hs st)) = 0%nat.
Proof.
  induction hs as [|h hs IH]; intros st Hall H0; simpl; [exact H0 |].
  apply IH.
  - intros h' Hin. apply Hall. right. exact Hin.
  - apply restoreOne_foreign; [apply Hall; left; reflexivity | exact H0].
Qed.

Lemma deleteStored_ids (id : string) (allHighlights : list stored) :
  forall h, In h (deleteStored true id allHighlights) ->
            In h allHighlights /\ Stored.id h <> id.
Proof.
  intros h Hin. unfold deleteStored in Hin. apply filter_In in Hin.
  destruct Hin as [Hin Hb]. split; [exact Hin |].
  intros Heq. rewrite Heq, String.eqb_refl in Hb. discriminate.
Qed.

(** X2.  A deleted highlight does not come back.  On a page that holds
    no element with the id, a restoration none of whose anchors has the
    id leaves the page without such an element: no turn writes the id,
    and no clone made by the fallback carries it.  In particular, once
    [deleteHighlight] has filtered the id out of the stored list, the
    restoration of the next page load makes no wrapper with it. *)
Theorem deleted_highlight_is_not_restored :
  forall (id : string) (body : node),
    wrappersOf id body = 0%nat ->
    (forall highlights : list highlight,
        (forall h, In h highlights -> Highlight.id h <> id) ->
        wrappersOf id (doc (restoreHighlights highlights body)) = 0%nat
        /\ querySelector id (doc (restoreHighlights highlights body)) = None)
    /\ (forall (href : string) (allHighlights : list stored),
           querySelector id
             (doc (loadAndRestore href (deleteStored true id allHighlights) body))
           = None).
Proof.
  intros id body H0. split.
  - intros highlights Hall.
    assert (H : wrappersOf id (doc (restoreHighlights highlights body)) = 0%nat)
      by (rewrite restoreHighlights_wrappersOf;
          apply (restore_fold_foreign highlights id (mkRestore body 0 0));
          assumption).
    split; [exact H | apply querySelector_None; exact H].
  - intros href allHighlights. apply querySelector_None.
    unfold loadAndRestore. rewrite restoreHighlights_wrappersOf.
    apply (restore_fold_foreign _ id (mkRestore body 0 0)); [| exact H0].
    intros h Hin. apply in_map_iff in Hin. destruct Hin as (s & <- & Hin).
    unfold loadHighlights in Hin. apply filter_In in Hin. destruct Hin as [Hin _].
    apply (deleteStored_ids id allHighlights s Hin).
Qed.

(** The anchor "bc" of [overlap] is restored by the fallback, which
    clones elements; no element with the id of "abb" appears. *)
Lemma deleted_highlight_is_not_restored_witness :
  wrappersOf "hl-X" Demo.overlap = 0%nat
  /\ querySelector "hl-X" (doc (restoreHighlights [Demo.anchorY] Demo.overlap))
     = None.
Proof.
  split; [reflexivity |].
  apply (proj1 (deleted_highlight_is_not_restored "hl-X" Demo.overlap eq_refl)
           [Demo.anchorY]).
  intros h [<- | []]. discriminate.
Defined.

(** X3.  A highlight that was restored in its turn is still on the page
    when the batch is over: the later turns, the ones that go through
    [extractContents] included, take no wrapper away.  The same holds
    for a wrapper that was on the page before the restoration.  (The
    document of the turn is the one the loop has made of the page with
    the anchors before it.) *)
Theorem restored_highlight_stays :
  forall (before after : list highlight) (h : highlight) (body : node)
         (r : range),
    createRangeFromHighlight (doc (restoreLoop before body)) h = Some r ->
    (1 <= wrappersOf (Highlight.id h)
            (doc (restoreHighlights (before ++ h :: after) body)))%nat
    /\ querySelector (Highlight.id h)
         (doc (restoreHighlights (before ++ h :: after) body)) <> None
    /\ forall id : string,
         (wrappersOf id body
          <= wrappersOf id (doc (restoreHighlights (before ++ h :: after) body)))%nat.
Proof.
  intros before after h body r E.
  assert (Hone : (1 <= wrappersOf (Highlight.id h)
                    (doc (restoreHighlights (before ++ h :: after) body)))%nat).
  { rewrite restoreHighlights_wrappersOf.
    unfold restoreLoop in *. rewrite fold_left_app. simpl.
    set (st := fold_left restoreOne before (mkRestore body 0 0)) in *.
    destruct (restoreOne_wrappers st h (Highlight.id h)) as (_ & _ & Hsucc & _).
    destruct (restore_wrappers after (Highlight.id h) (restoreOne st h))
      as [Hmono _].
    assert (Hf : failCount (restoreOne st h) = failCount st)
      by (unfold restoreOne; rewrite E; reflexivity).
    specialize (Hsucc Hf). lia. }
  split; [exact Hone | split].
  - rewrite querySelector_None. lia.
  - intros id. rewrite restoreHighlights_wrappersOf.
    apply (restore_wrappers (before ++ h :: after) id (mkRestore body 0 0)).
Qed.

(** "abb" is restored first on [overlap]; the fallback that then wraps
    "bc" cuts through its wrapper, which stays. *)
Lemma restored_highlight_stays_witness :
  createRangeFromHighlight (doc (restoreLoop [] Demo.overlap)) Demo.anchorX
  = Some (mkRange [0; 0]%nat 1 [0; 1; 0]%nat 2)
  /\ querySelector "hl-X"
       (doc (restoreHighlights [Demo.anchorX; Demo.anchorY] Demo.overlap))
     <> None.
Proof.
  split; [reflexivity |].
  apply (restored_highlight_stays [] [Demo.anchorY] Demo.anchorX Demo.overlap
           (mkRange [0; 0]%nat 1 [0; 1; 0]%nat 2) eq_refl).
Defined.

(* ===================================================================== *)
(** ** The runs of the linearizer *)
(* ===================================================================== *)

Lemma substring_length (s : jsString) (a b : Z) :
  len (substring s a b)
  = Z.abs (Z.min (Z.max a 0) (len s) - Z.min (Z.max b 0) (len s)).
Proof.
  unfold substring, clamp, len. rewrite length_firstn, length_skipn. lia.
Qed.

Lemma substring_exact (s : jsString) (a b : nat) :
  (a <= b <= List.length s)%nat ->
  substring s (Z.of_nat a) (Z.of_nat b) = firstn (b - a) (skipn a s).
Proof.
  intros H. unfold substring, clamp, len.
  replace (Z.to_nat (Z.min (Z.max (Z.of_nat a) 0) (Z.of_nat (List.length s))))
    with a by lia.
  replace (Z.to_nat (Z.min (Z.max (Z.of_nat b) 0) (Z.of_nat (List.length s))))
    with b by lia.
  rewrite Nat.min_l, Nat.max_r by lia. reflexivity.
Qed.

Lemma substring_middle (pre t post : jsString) :
  substring (pre ++ t ++ post) (len pre) (len pre + len t) = t.
Proof.
  unfold len at 1 2 3.
  replace (Z.of_nat (List.length pre) + Z.of_nat (List.length t))
    with (Z.of_nat (List.length pre + List.length t)) by lia.
  rewrite substring_exact by (rewrite !length_app; lia).
  rewrite skipn_middle by reflexivity.
  replace (List.length pre + List.length t - List.length pre)%nat
    with (List.length t) by lia.
  apply firstn_middle. reflexivity.
Qed.

Lemma contiguous_substring (runs : list run) :
  forall (from : Z) (pre : jsString),
    len pre = from -> contiguous from runs ->
    forall r, In r runs ->
      substring (pre ++ flat_map NodeInfo.text runs)
                (NodeInfo.startOffset r) (NodeInfo.endOffset r)
      = NodeInfo.text r.
Proof.
  induction runs as [|r0 runs IH]; intros from pre Hpre Hc r Hin;
    [destruct Hin |].
  destruct Hc as (Hs & He & Hc). simpl flat_map.
  destruct Hin as [<- | Hin].
  - rewrite Hs, He, <- Hpre. apply substring_middle.
  - rewrite app_assoc. apply (IH (NodeInfo.endOffset r0)); [| exact Hc | exact Hin].
    rewrite len_app. lia.
Qed.

Lemma contiguous_bound (runs : list run) :
  forall (from : Z) (r : run),
    contiguous from runs -> In r runs ->
    NodeInfo.endOffset r <= from + len (flat_map NodeInfo.text runs).
Proof.
  induction runs as [|r0 runs IH]; intros from r Hc Hin; [destruct Hin |].
  destruct Hc as (Hs & He & Hc). simpl flat_map. rewrite len_app.
  pose proof (len_nonneg (flat_map NodeInfo.text runs)).
  destruct Hin as [<- | Hin]; [lia |].
  specialize (IH _ _ Hc Hin). lia.
Qed.

Lemma In_two_maps {A B C} (f : A -> B) (g : A -> C) (l : list A) :
  forall (w : list (B * C)),
    map f l = map fst w -> map g l = map snd w ->
    forall x, In x l -> In (f x, g x) w.
Proof.
  induction l as [|y l IH]; intros w Hf Hg x Hin; [destruct Hin |].
  destruct w as [|[b c] w]; [discriminate |]. simpl in Hf, Hg.
  injection Hf as Hb Hf. injection Hg as Hc Hg.
  destruct Hin as [<- | Hin].
  - left. rewrite Hb, Hc. reflexivity.
  - right. apply IH; assumption.
Qed.

Lemma walk_In (accept : attrs -> jsString -> bool) (body : node)
      (p : path) (s : jsString) :
  In (p, s) (walk accept body) ->
  exists a, In (p, (a, s)) (bodyTextNodes body) /\ accept a s = true.
Proof.
  unfold walk. intros H.
  apply in_map_iff in H as ([p' [a s']] & E & Hin). simpl in E.
  injection E as <- <-. apply filter_In in Hin as [Hin Hacc].
  exists a. split; [exact Hin | exact Hacc].
Qed.

Lemma bodyTextNodes_getNode (body : node) (p : path) (a : attrs) (s : jsString) :
  In (p, (a, s)) (bodyTextNodes body) -> getNode p body = Some (Text s).
Proof.
  intros H. apply allText_getNode. unfold allText.
  apply in_map_iff. exists (p, (a, s)). split; [reflexivity | exact H].
Qed.

Lemma isBlank_nonempty (s : jsString) : isBlank s = false -> 0 < len s.
Proof.
  destruct s as [|c s]; [discriminate |]. intros _. unfold len. simpl. lia.
Qed.

(** What every run of a walk is. *)
Lemma runs_spec (accept : attrs -> jsString -> bool) (body : node)
      (textNodes : list run) (fullText : jsString) :
  collect (walk accept body) [] [] = (textNodes, fullText) ->
  forall r, In r textNodes ->
    (exists parent,
        In (NodeInfo.node r, (parent, NodeInfo.text r)) (bodyTextNodes body)
        /\ accept parent (NodeInfo.text r) = true)
    /\ getNode (NodeInfo.node r) body = Some (Text (NodeInfo.text r))
    /\ 0 <= NodeInfo.startOffset r
    /\ NodeInfo.endOffset r = NodeInfo.startOffset r + len (NodeInfo.text r)
    /\ NodeInfo.endOffset r <= len fullText
    /\ substring fullText (NodeInfo.startOffset r) (NodeInfo.endOffset r)
       = NodeInfo.text r.
Proof.
  intros E r Hin.
  destruct (linearize_spec accept body textNodes fullText E)
    as (Hc & Hfull & Hn & Ht).
  pose proof (In_two_maps _ _ textNodes (walk accept body) Hn Ht r Hin) as Hw.
  destruct (walk_In accept body _ _ Hw) as (a & Hb & Hacc).
  destruct (contiguous_In textNodes 0 r Hc Hin) as [H0 Hend].
  split; [exists a; split; assumption |].
  split; [apply (bodyTextNodes_getNode body _ a); exact Hb |].
  split; [exact H0 |]. split; [exact Hend |]. split.
  - rewrite Hfull. apply (contiguous_bound textNodes 0 r Hc Hin).
  - rewrite Hfull. apply (contiguous_substring textNodes 0 [] eq_refl Hc r Hin).
Qed.

(** X4.  The runs of the resolver's walk.  They follow one another from
    offset 0, and the linear text is their texts put together.  Every
    run is a text node of the page with exactly the data the run holds,
    is not blank, has no wrapper as its parent, covers a non-empty
    interval inside the linear text, and the linear text between its two
    offsets is its text.  The runs of the capture walk have the same
    properties, the one on the parent apart. *)
Theorem linearizer_runs :
  forall (body : node) (textNodes : list run) (fullText : jsString),
    (linearizeRestore body = (textNodes, fullText) ->
     contiguous 0 textNodes
     /\ fullText = flat_map NodeInfo.text textNodes
     /\ forall r, In r textNodes ->
          getNode (NodeInfo.node r) body = Some (Text (NodeInfo.text r))
          /\ isBlank (NodeInfo.text r) = false
          /\ (exists parent,
                 In (NodeInfo.node r, (parent, NodeInfo.text r))
                    (bodyTextNodes body)
                 /\ isWrapper parent = false)
          /\ 0 <= NodeInfo.startOffset r < NodeInfo.endOffset r
          /\ NodeInfo.endOffset r <= len fullText
          /\ substring fullText (NodeInfo.startOffset r) (NodeInfo.endOffset r)
             = NodeInfo.text r)
    /\ (linearizeCapture body = (textNodes, fullText) ->
        contiguous 0 textNodes
        /\ fullText = flat_map NodeInfo.text textNodes
        /\ forall r, In r textNodes ->
             getNode (NodeInfo.node r) body = Some (Text (NodeInfo.text r))
             /\ isBlank (NodeInfo.text r) = false
             /\ 0 <= NodeInfo.startOffset r < NodeInfo.endOffset r
             /\ NodeInfo.endOffset r <= len fullText
             /\ substring fullText (NodeInfo.startOffset r) (NodeInfo.endOffset r)
                = NodeInfo.text r).
Proof.
  intros body textNodes fullText. split; intros E.
  - destruct (linearize_spec acceptRestore body textNodes fullText E)
      as (Hc & Hfull & _ & _).
    split; [exact Hc |]. split; [exact Hfull |]. intros r Hin.
    destruct (runs_spec acceptRestore body textNodes fullText E r Hin)
      as ((a & Hb & Hacc) & Hg & H0 & Hend & Hle & Hsub).
    unfold acceptRestore in Hacc. apply negb_true_iff, orb_false_iff in Hacc.
    destruct Hacc as [Hblank Hwrap].
    pose proof (isBlank_nonempty _ Hblank).
    split; [exact Hg |]. split; [exact Hblank |].
    split; [exists a; split; assumption |].
    split; [lia |]. split; [exact Hle | exact Hsub].
  - destruct (linearize_spec acceptCapture body textNodes fullText E)
      as (Hc & Hfull & _ & _).
    split; [exact Hc |]. split; [exact Hfull |]. intros r Hin.
    destruct (runs_spec acceptCapture body textNodes fullText E r Hin)
      as ((a & Hb & Hacc) & Hg & H0 & Hend & Hle & Hsub).
    unfold acceptCapture in Hacc. apply negb_true_iff in Hacc.
    pose proof (isBlank_nonempty _ Hacc).
    split; [exact Hg |]. split; [exact Hacc |].
    split; [lia |]. split; [exact Hle | exact Hsub].
Qed.

(** The runs of [blankBetween]: the blank node between "foo" and "bar"
    is no run. *)
Lemma linearizer_runs_witness :
  linearizeRestore Demo.blankBetween
  = ([mkRun [0; 0]%nat 0 3 (lit "foo"); mkRun [0; 2]%nat 3 6 (lit "bar")],
     lit "foobar")
  /\ contiguous 0 [mkRun [0; 0]%nat 0 3 (lit "foo");
                   mkRun [0; 2]%nat 3 6 (lit "bar")].
Proof.
  split; [reflexivity |].
  apply (proj1 (linearizer_runs Demo.blankBetween
                  [mkRun [0; 0]%nat 0 3 (lit "foo");
                   mkRun [0; 2]%nat 3 6 (lit "bar")]
                  (lit "foobar")) eq_refl).
Defined.

(* ===================================================================== *)
(** ** Capture followed by the search *)
(* ===================================================================== *)

Lemma findStart_cases (textNodes : list run) (r : range) (text : jsString) :
  findStart textNodes r text = (0, 0)
  \/ exists x, In x textNodes
               /\ NodeInfo.node x = startContainer r
               /\ findStart textNodes r text
                  = (NodeInfo.startOffset x + Z.of_nat (startOffset r),
                     NodeInfo.startOffset x + Z.of_nat (startOffset r) + len text).
Proof.
  induction textNodes as [|x l IH]; simpl; [left; reflexivity |].
  destruct (path_eqb (NodeInfo.node x) (startContainer r)) eqn:E.
  - right. exists x. apply path_eqb_eq in E. auto.
  - destruct IH as [IH | (y & Hy & Hn & IH)]; [left; exact IH |].
    right. exists y. auto.
Qed.

(** The two context windows around a text that the linear text holds at
    offset [n]. *)
Lemma context_occurs (s text : jsString) (n : nat) :
  firstn (List.length text) (skipn n s) = text ->
  (n + List.length text <= List.length s)%nat ->
  let before := substring s (Z.max 0 (Z.of_nat n - contextLength)) (Z.of_nat n) in
  let after := substring s (Z.of_nat n + len text)
                 (Z.min (len s) (Z.of_nat n + len text + contextLength)) in
  (List.length before <= n)%nat
  /\ occursAt (before ++ text ++ after) s (n - List.length before).
Proof.
  intros Htext Hle before after.
  set (m := List.length text) in *.
  set (a := (n - 50)%nat).
  set (b := Nat.min (List.length s) (n + m + 50)).
  assert (Eb : before = skipn a (firstn n s)).
  { unfold before, contextLength.
    replace (Z.max 0 (Z.of_nat n - 50)) with (Z.of_nat a) by (unfold a; lia).
    rewrite substring_exact by (unfold a; lia).
    rewrite firstn_skipn_comm. f_equal. f_equal. unfold a. lia. }
  assert (Ea : after = firstn (b - (n + m)) (skipn (n + m) s)).
  { unfold after, contextLength, len. fold m.
    replace (Z.of_nat n + Z.of_nat m) with (Z.of_nat (n + m)) by lia.
    replace (Z.min (Z.of_nat (List.length s)) (Z.of_nat (n + m) + 50))
      with (Z.of_nat b) by (unfold b; lia).
    apply substring_exact. unfold b. lia. }
  assert (Lb : List.length before = (n - a)%nat).
  { rewrite Eb, length_skipn, length_firstn. lia. }
  split; [lia |].
  exists (firstn a (firstn n s)), (skipn (b - (n + m)) (skipn (n + m) s)).
  split.
  - rewrite Eb, Ea. rewrite <- !app_assoc.
    rewrite (app_assoc (firstn a (firstn n s))). rewrite !firstn_skipn.
    replace (n + m)%nat with (m + n)%nat by lia.
    rewrite <- skipn_skipn. rewrite <- Htext at 1.
    rewrite !firstn_skipn. reflexivity.
  - rewrite length_firstn, length_firstn. lia.
Qed.

(** X5.  What capture stores and what the search then finds.  The two
    context strings never have more than 50 code units, and the start
    offset is never negative.  When the linear text holds the selected
    text at the captured offsets, the pattern context-before + text +
    context-after occurs in it, with the text at the captured start
    offset; the search of the resolver on that linear text (the one its
    own walk makes on a page without wrappers) therefore finds the text,
    at the captured offset or to its left, and at the captured offset
    when the pattern occurs nowhere earlier. *)
Theorem capture_context_is_found :
  forall (body : node) (r : range) (text : jsString) (color id url : string)
         (textNodes : list run) (fullText : jsString) (h : highlight),
    linearizeCapture body = (textNodes, fullText) ->
    createHighlightFromText body r text color id url = Some h ->
    let before := orEmpty (Highlight.textBefore h) in
    let after := orEmpty (Highlight.textAfter h) in
    let startOffset := Highlight.startOffset h in
    Highlight.text h = text
    /\ len before <= contextLength /\ len after <= contextLength
    /\ 0 <= startOffset
    /\ (substring fullText startOffset (Highlight.endOffset h) = text ->
        occursAt (before ++ text ++ after) fullText
                 (Z.to_nat (startOffset - len before))
        /\ exists q : nat,
             findSearchIndex fullText text
                             (Highlight.textBefore h) (Highlight.textAfter h)
             = Z.of_nat q
             /\ Z.of_nat q <= startOffset
             /\ occursAt text fullText q
             /\ ((forall p, occursAt (before ++ text ++ after) fullText p ->
                            startOffset - len before <= Z.of_nat p) ->
                 Z.of_nat q = startOffset)).
Proof.
  intros body r text color id url textNodes fullText h Hlin Hc.
  unfold createHighlightFromText in Hc.
  destruct text as [|c t]; [discriminate |].
  rewrite Hlin in Hc.
  destruct (findStart textNodes r (c :: t)) as [so eo] eqn:Ef.
  injection Hc as <-. cbn [Highlight.text Highlight.textBefore Highlight.textAfter
                            Highlight.startOffset Highlight.endOffset orEmpty].
  set (text := c :: t) in *.
  pose proof (len_nonneg fullText) as HL.
  assert (Hso : 0 <= so /\ (eo = 0 /\ so = 0 \/ eo = so + len text)).
  { destruct (findStart_cases textNodes r text) as [E | (x & Hx & _ & E)];
      rewrite E in Ef; injection Ef as <- <-; [lia |].
    destruct (linearize_spec acceptCapture body textNodes fullText Hlin)
      as (Hcont & _).
    destruct (contiguous_In textNodes 0 x Hcont Hx) as [H0 _]. lia. }
  destruct Hso as [Hso Heo].
  split; [reflexivity |].
  split; [rewrite substring_length; unfold contextLength; lia |].
  split; [rewrite substring_length; unfold contextLength; lia |].
  split; [exact Hso |].
  intros Hsub.
  assert (Hlen : 0 < len text) by (unfold text, len; simpl; lia).
  pose proof (f_equal len Hsub) as Hl. rewrite substring_length in Hl.
  destruct Heo as [[-> ->] | ->]; [lia |].
  assert (Hin : so + len text <= len fullText) by lia.
  set (n := Z.to_nat so).
  assert (En : so = Z.of_nat n) by (unfold n; lia).
  rewrite En in *. clear En Hso.
  assert (Hle : (n + List.length text <= List.length fullText)%nat)
    by (unfold len in Hin; lia).
  assert (Htext : firstn (List.length text) (skipn n fullText) = text).
  { rewrite <- Hsub at 2. unfold len.
    replace (Z.of_nat n + Z.of_nat (List.length text))
      with (Z.of_nat (n + List.length text)) by lia.
    rewrite substring_exact by lia. f_equal. lia. }
  destruct (context_occurs fullText text n Htext Hle) as [Hbn Hocc].
  set (before := substring fullText (Z.max 0 (Z.of_nat n - contextLength))
                           (Z.of_nat n)) in *.
  set (after := substring fullText (Z.of_nat n + len text)
                  (Z.min (len fullText) (Z.of_nat n + len text + contextLength)))
    in *.
  assert (Ea : Z.to_nat (Z.of_nat n - len before) = (n - List.length before)%nat)
    by (unfold len; lia).
  split; [rewrite Ea; exact Hocc |].
  destruct (truthy (Some before) || truthy (Some after)) eqn:Etr.
  - destruct (indexOf_cases fullText (before ++ text ++ after))
      as [[_ Hno] | (p0 & Ei & Hp0 & Hmin)];
      [exfalso; exact (Hno _ Hocc) |].
    exists (p0 + List.length before)%nat.
    pose proof (Hmin _ Hocc) as Hp.
    split; [apply findSearchIndex_context; assumption |].
    split; [lia |]. split; [apply occursAt_inner with (after := after); exact Hp0 |].
    intros Hleft. specialize (Hleft _ Hp0). unfold len in Hleft. lia.
  - apply orb_false_iff in Etr as [Eb Eaf].
    assert (Hb : before = []) by (destruct before; [reflexivity | discriminate]).
    assert (Haf : after = []) by (destruct after; [reflexivity | discriminate]).
    rewrite Hb, Haf in *. simpl in Hocc, Ea. rewrite app_nil_r in Hocc.
    rewrite Nat.sub_0_r in Hocc.
    destruct (indexOf_cases fullText text)
      as [[_ Hno] | (p0 & Ei & Hp0 & Hmin)];
      [exfalso; exact (Hno _ Hocc) |].
    exists p0. pose proof (Hmin _ Hocc) as Hp.
    split.
    { rewrite findSearchIndex_fallback; [exact Ei | left; reflexivity]. }
    split; [lia |]. split; [exact Hp0 |].
    intros Hleft. simpl in Hleft. rewrite app_nil_r in Hleft.
    specialize (Hleft _ Hp0). unfold len in Hleft. simpl in Hleft. lia.
Qed.

(** "cat" selected in the second paragraph of [twoCats]: the pattern is
    found, at offset 13. *)
Lemma capture_context_is_found_witness :
  exists q : nat,
    findSearchIndex (lit "the cat sata cat ran") (lit "cat")
                    (Some (lit "the cat sata ")) (Some (lit " ran"))
    = Z.of_nat q
    /\ Z.of_nat q <= 13.
Proof.
  destruct (capture_context_is_found Demo.twoCats
              (mkRange [1; 0]%nat 2 [1; 0]%nat 5) (lit "cat")
              "#ffeb3b" "hl-1" "https://example.org/"
              [mkRun [0; 0]%nat 0 11 (lit "the cat sat");
               mkRun [1; 0]%nat 11 20 (lit "a cat ran")]
              (lit "the cat sata cat ran")
              (mkHighlight "hl-1" (lit "cat") (Some (lit "the cat sata "))
                           (Some (lit " ran")) "https://example.org/" 13 16
                           "#ffeb3b")
              eq_refl eq_refl) as (_ & _ & _ & _ & H).
  destruct (H eq_refl) as (_ & q & E & Hle & _).
  exists q. split; [exact E | exact Hle].
Defined.

(* ===================================================================== *)
(** ** Capture followed by resolution *)
(* ===================================================================== *)

Lemma NoDup_map_cons (i : nat) (l : list path) :
  NoDup l -> NoDup (map (cons i) l).
Proof.
  induction 1 as [|p l Hnot Hnd IH]; simpl; constructor; [| exact IH].
  intros Hin. apply in_map_iff in Hin as (q & E & Hq).
  injection E as E. subst q. contradiction.
Qed.

Lemma inChildren_NoDup {A} (f : node -> list (path * A)) (cs : list node) :
  Forall (fun c => NoDup (map fst (f c))) cs ->
  forall i, NoDup (map fst (inChildren f i cs)).
Proof.
  induction cs as [|c cs IH]; intros HF i; simpl; [constructor |].
  inversion HF as [|? ? Hc HF']; subst.
  rewrite map_app. apply NoDup_app.
  - rewrite map_map.
    rewrite (map_ext _ (fun x => i :: fst x)) by (intros [p y]; reflexivity).
    rewrite <- (map_map fst (cons i)). apply NoDup_map_cons. exact Hc.
  - apply IH. exact HF'.
  - intros p H1 H2.
    apply in_map_iff in H1 as (z & E1 & Hz).
    apply in_map_iff in Hz as ([p1 y1] & Ez & _). subst z. simpl in E1.
    apply in_map_iff in H2 as ([p2 y2] & E2 & Hin2).
    simpl in E2. subst p2 p.
    destruct (inChildren_In _ _ _ _ _ Hin2) as (k & c' & p' & E & _).
    injection E as E _. lia.
Qed.

Lemma textNodesUnder_NoDup (n : node) :
  forall parent, NoDup (map fst (textNodesUnder parent n)).
Proof.
  induction n as [s | t a cs IH] using node_induction; intros parent; simpl.
  - constructor; [intros [] | constructor].
  - apply inChildren_NoDup. eapply Forall_impl; [| exact IH].
    intros c Hc. apply Hc.
Qed.

Lemma NoDup_map_filter {A B} (g : A -> B) (p : A -> bool) (l : list A) :
  NoDup (map g l) -> NoDup (map g (filter p l)).
Proof.
  induction l as [|x l IH]; simpl; intros H; [constructor |].
  inversion H as [|? ? Hnot Hnd]; subst.
  destruct (p x); simpl; [constructor |]; try (apply IH; exact Hnd).
  intros Hin. apply Hnot. apply in_map_iff in Hin as (y & E & Hy).
  apply filter_In in Hy as [Hy _]. rewrite <- E. apply in_map. exact Hy.
Qed.

(** No text node is visited twice. *)
Lemma walk_NoDup (accept : attrs -> jsString -> bool) (body : node) :
  NoDup (map fst (walk accept body)).
Proof.
  unfold walk. rewrite map_map. simpl.
  apply NoDup_map_filter.
  destruct body as [s | t a cs]; [constructor |].
  exact (textNodesUnder_NoDup (Elem t a cs) noAttrs).
Qed.

Lemma findStart_found (textNodes : list run) (r : range) (text : jsString)
      (x : run) :
  NoDup (map NodeInfo.node textNodes) ->
  In x textNodes -> NodeInfo.node x = startContainer r ->
  findStart textNodes r text
  = (NodeInfo.startOffset x + Z.of_nat (startOffset r),
     NodeInfo.startOffset x + Z.of_nat (startOffset r) + len text).
Proof.
  induction textNodes as [|y l IH]; intros Hnd Hin Hx; [destruct Hin |].
  simpl. inversion Hnd as [|? ? Hnot Hnd']; subst.
  destruct Hin as [-> | Hin].
  - rewrite Hx, path_eqb_refl. reflexivity.
  - destruct (path_eqb (NodeInfo.node y) (startContainer r)) eqn:E.
    + apply path_eqb_eq in E. exfalso. apply Hnot.
      rewrite E, <- Hx. apply in_map. exact Hin.
    + apply IH; assumption.
Qed.

Lemma findSearchIndex_at (s t b a : jsString) (p : nat) :
  occursAt (b ++ t ++ a) s p ->
  (forall q, occursAt (b ++ t ++ a) s q -> (p <= q)%nat) ->
  findSearchIndex s t (Some b) (Some a) = Z.of_nat (p + List.length b).
Proof.
  intros Hocc Hmin.
  destruct (truthy (Some b) || truthy (Some a)) eqn:Etr.
  - apply findSearchIndex_context; [exact Etr |].
    apply indexOf_leftmost; assumption.
  - apply orb_false_iff in Etr as [Eb Ea].
    assert (Hb : b = []) by (destruct b; [reflexivity | discriminate]).
    assert (Ha : a = []) by (destruct a; [reflexivity | discriminate]).
    subst b a. simpl in *. rewrite app_nil_r in *. rewrite Nat.add_0_r.
    rewrite findSearchIndex_fallback by (left; reflexivity).
    apply indexOf_leftmost; assumption.
Qed.

(** X6.  Capture followed by resolution gives the selection back.  On a
    page where no text node has a wrapper as its parent, take a
    selection that starts inside a run and ends inside a run, whose end
    is not before its start, whose text is what the linear text holds
    from the offset of its start on, and whose pattern context-before +
    text + context-after occurs nowhere before that offset.  Then the
    record that [createHighlightFromText] stores has the offset of the
    selection in the linear text as its start offset and, as long as no
    element carries its id, [createRangeFromHighlight] resolves it to
    the very range that was selected. *)
Theorem capture_then_resolve :
  forall (body : node) (r : range) (text : jsString) (color id url : string)
         (textNodes : list run) (fullText : jsString) (xs xe : run),
    (forall x, In x (bodyTextNodes body) -> isWrapper (fst (snd x)) = false) ->
    querySelector id body = None ->
    linearizeCapture body = (textNodes, fullText) ->
    In xs textNodes -> NodeInfo.node xs = startContainer r ->
    (startOffset r < List.length (NodeInfo.text xs))%nat ->
    In xe textNodes -> NodeInfo.node xe = endContainer r ->
    (0 < endOffset r <= List.length (NodeInfo.text xe))%nat ->
    bpBefore (endContainer r) (endOffset r) (startContainer r) (startOffset r)
    = false ->
    rangeToString body r = Some text ->
    text <> [] ->
    let selectionStart := NodeInfo.startOffset xs + Z.of_nat (startOffset r) in
    NodeInfo.startOffset xe + Z.of_nat (endOffset r) = selectionStart + len text ->
    substring fullText selectionStart (selectionStart + len text) = text ->
    (forall p,
        occursAt (substring fullText (Z.max 0 (selectionStart - contextLength))
                            selectionStart
                  ++ text
                  ++ substring fullText (selectionStart + len text)
                       (Z.min (len fullText)
                              (selectionStart + len text + contextLength)))
                 fullText p ->
        selectionStart
        - len (substring fullText (Z.max 0 (selectionStart - contextLength))
                         selectionStart)
        <= Z.of_nat p) ->
    exists h : highlight,
      createHighlightFromText body r text color id url = Some h
      /\ Highlight.text h = text
      /\ Highlight.startOffset h = selectionStart
      /\ createRangeFromHighlight body h = Some r.
Proof.
  intros body r text color id url textNodes fullText xs xe
         Hnowrap Hq Hlin Hxs Hns Hos Hxe Hne Hoe Hbp Hstr Htext so Heo Hsub Hleft.
  pose proof (walks_agree_without_wrappers body Hnowrap) as Hw.
  destruct (linearize_spec acceptCapture body textNodes fullText Hlin)
    as (Hcont & Hfull & Hn & _).
  assert (Hnd : NoDup (map NodeInfo.node textNodes))
    by (rewrite Hn; apply walk_NoDup).
  pose proof (findStart_found textNodes r text xs Hnd Hxs Hns) as Ef.
  fold so in Ef.
  destruct (runs_spec acceptCapture body textNodes fullText Hlin xs Hxs)
    as (_ & Hgs & Hs0 & Hsend & Hsle & _).
  destruct (runs_spec acceptCapture body textNodes fullText Hlin xe Hxe)
    as (_ & Hge & He0 & Heend & Hele & _).
  assert (Hlen : 0 < len text)
    by (destruct text; [congruence | unfold len; simpl; lia]).
  assert (Hso0 : 0 <= so) by (unfold so; lia).
  assert (Hin : so + len text <= len fullText)
    by (unfold len in *; lia).
  set (n := Z.to_nat so).
  assert (En : so = Z.of_nat n) by (unfold n; lia).
  assert (Hle : (n + List.length text <= List.length fullText)%nat)
    by (unfold len in Hin; lia).
  assert (Htx : firstn (List.length text) (skipn n fullText) = text).
  { rewrite <- Hsub at 2. rewrite En. unfold len.
    replace (Z.of_nat n + Z.of_nat (List.length text))
      with (Z.of_nat (n + List.length text)) by lia.
    rewrite substring_exact by lia. f_equal. lia. }
  destruct (context_occurs fullText text n Htx Hle) as [Hbn Hocc].
  rewrite <- En in Hocc, Hbn.
  set (before := substring fullText (Z.max 0 (so - contextLength)) so) in *.
  set (after := substring fullText (so + len text)
                  (Z.min (len fullText) (so + len text + contextLength))) in *.
  assert (Hidx : findSearchIndex fullText text (Some before) (Some after) = so).
  { rewrite (findSearchIndex_at fullText text before after
               (n - List.length before) Hocc).
    - lia.
    - intros q Hq'. specialize (Hleft q Hq'). unfold len in Hleft. lia. }
  exists (mkHighlight id text (Some before) (Some after) url so (so + len text)
                      color).
  split.
  { unfold createHighlightFromText. destruct text as [|c t]; [congruence |].
    rewrite Hlin, Ef. reflexivity. }
  split; [reflexivity |]. split; [reflexivity |].
  unfold createRangeFromHighlight.
  cbn [Highlight.id Highlight.text Highlight.textBefore Highlight.textAfter].
  rewrite Hq. unfold findTextWithContext.
  destruct text as [|c t] eqn:Et; [congruence |]. rewrite <- Et in *.
  rewrite Hw, Hlin, Hidx.
  replace (so =? -1) with false by (symmetry; apply Z.eqb_neq; lia).
  unfold resolveAt, materialize.
  destruct (locate_complete so (so + len text) textNodes 0 notLocated Hcont)
    as [Hs He]; [rewrite <- Hfull; intros _; lia
                | rewrite <- Hfull; intros _; lia |].
  destruct (locate_sound textNodes so (so + len text) textNodes notLocated)
    as [Hs' He'];
    [apply incl_refl | intros x E; discriminate | intros x E; discriminate |].
  destruct (startNode (locate so (so + len text) textNodes notLocated))
    as [sn|] eqn:Esn; [| congruence].
  destruct (endNode (locate so (so + len text) textNodes notLocated))
    as [en|] eqn:Een; [| congruence].
  destruct (Hs' sn Esn) as (rs & Hrs & <- & Hins & Hoffs).
  destruct (He' en Een) as (re & Hre & <- & Hine & Hoffe).
  assert (Ers : rs = xs).
  { apply (contiguous_unique textNodes 0 rs xs so Hcont Hrs Hxs Hins).
    unfold so. unfold len in Hsend. lia. }
  assert (Ere : re = xe).
  { destruct (contiguous_In textNodes 0 re Hcont Hre) as [_ Hreend].
    apply (contiguous_unique textNodes 0 re xe (so + len text - 1)
             Hcont Hre Hxe); unfold len in *; lia. }
  subst rs re. rewrite Hoffs, Hoffe.
  replace (so - NodeInfo.startOffset xs) with (Z.of_nat (startOffset r))
    by (unfold so; lia).
  replace (so + len text - NodeInfo.startOffset xe)
    with (Z.of_nat (endOffset r)) by lia.
  unfold createRange. rewrite Hgs, Hge. simpl nodeLength.
  replace ((0 <=? Z.of_nat (startOffset r))
           && (Z.of_nat (startOffset r)
               <=? Z.of_nat (List.length (NodeInfo.text xs)))
           && (0 <=? Z.of_nat (endOffset r))
           && (Z.of_nat (endOffset r)
               <=? Z.of_nat (List.length (NodeInfo.text xe))))
    with true
    by (symmetry; repeat (apply andb_true_iff; split); apply Z.leb_le; lia).
  rewrite !Nat2Z.id, Hns, Hne, Hbp.
  unfold verified.
  replace (mkRange (startContainer r) (startOffset r)
                   (endContainer r) (endOffset r)) with r
    by (destruct r; reflexivity).
  rewrite Hstr.
  replace (JS.eqb text text) with true
    by (symmetry; apply jsString_eqb_eq; reflexivity).
  reflexivity.
Qed.

(** The second "cat" of [twoCats], selected, captured and resolved. *)
Lemma capture_then_resolve_witness :
  exists h : highlight,
    createHighlightFromText Demo.twoCats (mkRange [1; 0]%nat 2 [1; 0]%nat 5)
      (lit "cat") "#ffeb3b" "hl-1" "https://example.org/" = Some h
    /\ createRangeFromHighlight Demo.twoCats h
       = Some (mkRange [1; 0]%nat 2 [1; 0]%nat 5).
Proof.
  destruct (capture_then_resolve Demo.twoCats
              (mkRange [1; 0]%nat 2 [1; 0]%nat 5) (lit "cat")
              "#ffeb3b" "hl-1" "https://example.org/"
              [mkRun [0; 0]%nat 0 11 (lit "the cat sat");
               mkRun [1; 0]%nat 11 20 (lit "a cat ran")]
              (lit "the cat sata cat ran")
              (mkRun [1; 0]%nat 11 20 (lit "a cat ran"))
              (mkRun [1; 0]%nat 11 20 (lit "a cat ran")))
    as (h & Hc & _ & _ & Hr).
  - intros x Hin. vm_compute in Hin.
    destruct Hin as [<- | [<- | []]]; reflexivity.
  - reflexivity.
  - reflexivity.
  - right. left. reflexivity.
  - reflexivity.
  - vm_compute. lia.
  - right. left. reflexivity.
  - reflexivity.
  - vm_compute. lia.
  - reflexivity.
  - reflexivity.
  - discriminate.
  - reflexivity.
  - reflexivity.
  - intros p _. apply (Z.le_trans _ 0); [vm_compute; discriminate | lia].
  - exists h. split; [exact Hc | exact Hr].
Defined.

(* ===================================================================== *)
(** ** The stored list: addresses *)
(* ===================================================================== *)

Lemma beforeHash_idem (s : string) : beforeHash (beforeHash s) = beforeHash s.
Proof.
  induction s as [|c s IH]; simpl; [reflexivity |].
  destruct (Ascii.eqb c "#") eqn:E; simpl; [reflexivity |].
  rewrite E, IH. reflexivity.
Qed.

Lemma locationHash_beforeHash (s : string) :
  locationHash (beforeHash s) = EmptyString.
Proof.
  induction s as [|c s IH]; simpl; [reflexivity |].
  destruct (Ascii.eqb c "#") eqn:E; simpl; [reflexivity |].
  rewrite E. exact IH.
Qed.

Lemma filter_snoc {A} (p : A -> bool) (l : list A) (x : A) :
  filter p (l ++ [x]) = filter p l ++ (if p x then [x] else []).
Proof. rewrite filter_app. reflexivity. Qed.

(** X7.  A highlight that was just saved belongs to its page, whatever
    fragment the address has.  Capturing a non-empty text on the page at
    [href] pushes one record at the end of the stored list; its address
    is the address without its fragment, so that [loadHighlights] on any
    address that differs from [href] in the fragment only gives the
    records it gave before followed by the new one.  Stored addresses
    stay free of fragments. *)
Theorem saved_highlight_is_loaded :
  forall (body : node) (href href' : string) (title : jsString) (now : Z)
         (r : range) (text : jsString) (color id : string)
         (allHighlights highlights : list stored),
    text <> [] ->
    beforeHash href' = beforeHash href ->
    exists h : highlight,
      createHighlightFromText body r text color id (beforeHash href) = Some h
      /\ saveHighlight body href title now r text color id allHighlights highlights
         = (allHighlights ++ [highlightData h title now],
            highlights ++ [highlightData h title now])
      /\ loadHighlights href'
           (fst (saveHighlight body href title now r text color id
                               allHighlights highlights))
         = loadHighlights href' allHighlights ++ [highlightData h title now]
      /\ (fragmentFree allHighlights ->
          fragmentFree
            (fst (saveHighlight body href title now r text color id
                                allHighlights highlights))).
Proof.
  intros body href href' title now r text color id allHighlights highlights
         Htext Hhref.
  assert (Hc : exists h,
             createHighlightFromText body r text color id (beforeHash href)
             = Some h /\ Highlight.url h = beforeHash href).
  { unfold createHighlightFromText. destruct text as [|c t]; [congruence |].
    destruct (linearizeCapture body) as [tn ft].
    destruct (findStart tn r (c :: t)) as [so eo].
    eexists. split; reflexivity. }
  destruct Hc as (h & Hc & Hurl). exists h.
  split; [exact Hc |].
  assert (Es : saveHighlight body href title now r text color id
                 allHighlights highlights
               = (allHighlights ++ [highlightData h title now],
                  highlights ++ [highlightData h title now]))
    by (unfold saveHighlight; rewrite Hc; reflexivity).
  split; [exact Es |]. rewrite Es. simpl fst. split.
  - unfold loadHighlights. rewrite filter_snoc. f_equal.
    unfold Stored.url, highlightData. simpl. rewrite Hurl, beforeHash_idem, Hhref.
    rewrite String.eqb_refl. reflexivity.
  - intros Hfree x Hin. apply in_app_or in Hin as [Hin | [<- | []]].
    + apply Hfree. exact Hin.
    + unfold Stored.url, highlightData. simpl. rewrite Hurl.
      apply beforeHash_idem.
Qed.

(** "cat" saved on the page [https://example.org/#top], then loaded on
    [https://example.org/#sensenote-hl-1]. *)
Lemma saved_highlight_is_loaded_witness :
  exists h : highlight,
    loadHighlights "https://example.org/#sensenote-hl-1"
      (fst (saveHighlight Demo.twoCats "https://example.org/#top" (lit "Cats")
              1700000000000 (mkRange [1; 0]%nat 2 [1; 0]%nat 5) (lit "cat")
              "#ffeb3b" "hl-1" [] []))
    = [highlightData h (lit "Cats") 1700000000000].
Proof.
  destruct (saved_highlight_is_loaded Demo.twoCats "https://example.org/#top"
              "https://example.org/#sensenote-hl-1" (lit "Cats") 1700000000000
              (mkRange [1; 0]%nat 2 [1; 0]%nat 5) (lit "cat")
              "#ffeb3b" "hl-1" [] [])
    as (h & _ & _ & Hl & _).
  - discriminate.
  - reflexivity.
  - exists h. exact Hl.
Defined.

(** X8.  [showHighlightMenu] compares the stored address with the whole
    address of the page, fragment included, where [loadHighlights]
    compares the two without their fragments.  The stored addresses have
    no fragment; so while the address of the page has a [#],
    [showHighlightMenu] finds no record at all, replaces the list of the
    page by the empty list and shows nothing, even for the records of
    this page, which [loadHighlights] does load.  On an address without
    [#] the two lists are the same. *)
Theorem showHighlightMenu_on_fragment :
  forall (href highlightId : string) (allHighlights : list stored),
    fragmentFree allHighlights ->
    (beforeHash href <> href ->
     showHighlightMenu href highlightId allHighlights = ([], None))
    /\ (beforeHash href = href ->
        showHighlightMenu href highlightId allHighlights
        = (loadHighlights href allHighlights,
           findById highlightId (loadHighlights href allHighlights)))
    /\ (forall h, In h allHighlights -> Stored.url h = beforeHash href ->
                  In h (loadHighlights href allHighlights)).
Proof.
  intros href highlightId allHighlights Hfree. split; [| split].
  - intros Hfrag. unfold showHighlightMenu.
    assert (E : filter (fun h => String.eqb (Stored.url h) href) allHighlights
                = []).
    { induction allHighlights as [|x l IH]; simpl; [reflexivity |].
      destruct (String.eqb_spec (Stored.url x) href) as [Heq | _].
      - exfalso. apply Hfrag. rewrite <- Heq. apply Hfree. left. reflexivity.
      - apply IH. intros h Hin. apply Hfree. right. exact Hin. }
    rewrite E. reflexivity.
  - intros Hplain. unfold showHighlightMenu, loadHighlights.
    assert (E : filter (fun h => String.eqb (Stored.url h) href) allHighlights
                = filter (fun h => String.eqb (beforeHash (Stored.url h))
                                              (beforeHash href))
                         allHighlights).
    { rewrite Hplain.
      induction allHighlights as [|x l IH]; simpl; [reflexivity |].
      rewrite (Hfree x) by (left; reflexivity).
      rewrite IH by (intros h Hin; apply Hfree; right; exact Hin).
      reflexivity. }
    rewrite E. reflexivity.
  - intros h Hin Hurl. unfold loadHighlights. apply filter_In.
    split; [exact Hin |]. rewrite Hurl, beforeHash_idem.
    apply String.eqb_refl.
Qed.

(** A record of [https://example.org/] while the address of the page is
    [https://example.org/#intro]. *)
Lemma showHighlightMenu_on_fragment_witness :
  showHighlightMenu "https://example.org/#intro" "hl-X"
    [highlightData Demo.anchorX (lit "Example") 1700000000000]
  = ([], None)
  /\ loadHighlights "https://example.org/#intro"
       [highlightData Demo.anchorX (lit "Example") 1700000000000]
     = [highlightData Demo.anchorX (lit "Example") 1700000000000].
Proof.
  split; [| reflexivity].
  apply (proj1 (showHighlightMenu_on_fragment "https://example.org/#intro" "hl-X"
                  [highlightData Demo.anchorX (lit "Example") 1700000000000]
                  ltac:(intros h [<- | []]; reflexivity))).
  discriminate.
Defined.

(* ===================================================================== *)
(** ** The stored list: annotations *)
(* ===================================================================== *)

Lemma updateFound_map {B} (g : stored -> B) (f : stored -> stored)
      (id : string) (l : list stored) :
  (forall h, g (f h) = g h) -> map g (updateFound id f l) = map g l.
Proof.
  intros Hg. induction l as [|x l IH]; simpl; [reflexivity |].
  destruct (String.eqb (Stored.id x) id); simpl;
    [rewrite Hg | rewrite IH]; reflexivity.
Qed.

Lemma findById_updateFound (f : stored -> stored) (id : string)
      (l : list stored) (h : stored) :
  (forall x, Stored.id (f x) = Stored.id x) ->
  findById id l = Some h ->
  findById id (updateFound id f l) = Some (f h).
Proof.
  intros Hid. unfold findById.
  induction l as [|x l IH]; simpl; [discriminate |].
  destruct (String.eqb (Stored.id x) id) eqn:E; simpl.
  - intros H. injection H as <-. rewrite Hid, E. reflexivity.
  - rewrite E. exact IH.
Qed.

Lemma findById_updateFound_other (f : stored -> stored) (id id' : string)
      (l : list stored) :
  (forall x, Stored.id (f x) = Stored.id x) ->
  id' <> id ->
  findById id' (updateFound id f l) = findById id' l.
Proof.
  intros Hid Hne. unfold findById.
  induction l as [|x l IH]; simpl; [reflexivity |].
  destruct (String.eqb (Stored.id x) id) eqn:E; simpl.
  - rewrite Hid. apply String.eqb_eq in E.
    destruct (String.eqb_spec (Stored.id x) id') as [E' | _];
      [congruence | reflexivity].
  - rewrite IH. reflexivity.
Qed.

Lemma filter_anchors (g : highlight -> bool) (l : list stored) :
  map Stored.anchor (filter (fun h => g (Stored.anchor h)) l)
  = filter g (map Stored.anchor l).
Proof.
  induction l as [|x l IH]; simpl; [reflexivity |].
  destruct (g (Stored.anchor x)); simpl; rewrite IH; reflexivity.
Qed.

(** What a page load restores depends on the anchors only. *)
Lemma loadAndRestore_anchors (href : string) (l1 l2 : list stored) (body : node) :
  map Stored.anchor l1 = map Stored.anchor l2 ->
  loadAndRestore href l1 body = loadAndRestore href l2 body.
Proof.
  intros H. unfold loadAndRestore, loadHighlights, Stored.url.
  rewrite (filter_anchors
             (fun a => String.eqb (beforeHash (Highlight.url a)) (beforeHash href))
             l1).
  rewrite (filter_anchors
             (fun a => String.eqb (beforeHash (Highlight.url a)) (beforeHash href))
             l2).
  rewrite H. reflexivity.
Qed.

Lemma setDetails_anchor (note category : option jsString) (h : stored) :
  Stored.anchor (setDetails note category h) = Stored.anchor h.
Proof. reflexivity. Qed.

(** X9.  Editing the annotations never changes what is restored.
    [saveHighlightDetails] (and so [saveNote]), and in the popup
    [updateNote] and [toggleFavorite], leave every anchor of the stored
    list as it is, in the same order: the id, the text, the two context
    strings, the address and the colour of no record change.  The
    restoration of a page load after any of them is therefore the one
    before it. *)
Theorem annotations_keep_anchors :
  forall (highlightId : string) (note category : option jsString) (now : Z)
         (allHighlights highlights : list stored),
    map Stored.anchor
        (fst (saveHighlightDetails highlightId note category now
                                   allHighlights highlights))
    = map Stored.anchor allHighlights
    /\ map Stored.anchor
           (snd (saveHighlightDetails highlightId note category now
                                      allHighlights highlights))
       = map Stored.anchor highlights
    /\ (forall n : jsString,
           map Stored.anchor (Popup.updateNote highlightId n now allHighlights)
           = map Stored.anchor allHighlights)
    /\ map Stored.anchor (Popup.toggleFavorite highlightId allHighlights)
       = map Stored.anchor allHighlights
    /\ (forall (href : string) (body : node),
           loadAndRestore href
             (fst (saveHighlightDetails highlightId note category now
                                        allHighlights highlights)) body
           = loadAndRestore href allHighlights body
           /\ (forall n : jsString,
                  loadAndRestore href
                    (Popup.updateNote highlightId n now allHighlights) body
                  = loadAndRestore href allHighlights body)
           /\ loadAndRestore href
                (Popup.toggleFavorite highlightId allHighlights) body
              = loadAndRestore href allHighlights body).
Proof.
  intros highlightId note category now allHighlights highlights.
  assert (H1 : map Stored.anchor
                 (fst (saveHighlightDetails highlightId note category now
                                            allHighlights highlights))
               = map Stored.anchor allHighlights).
  { unfold saveHighlightDetails.
    destruct (findById highlightId allHighlights); [| reflexivity].
    apply updateFound_map. reflexivity. }
  assert (H2 : map Stored.anchor
                 (snd (saveHighlightDetails highlightId note category now
                                            allHighlights highlights))
               = map Stored.anchor highlights).
  { unfold saveHighlightDetails.
    destruct (findById highlightId allHighlights); [| reflexivity].
    apply updateFound_map. reflexivity. }
  assert (H3 : forall n,
             map Stored.anchor (Popup.updateNote highlightId n now allHighlights)
             = map Stored.anchor allHighlights).
  { intros n. unfold Popup.updateNote.
    destruct (findById highlightId allHighlights); [| reflexivity].
    apply updateFound_map. reflexivity. }
  assert (H4 : map Stored.anchor (Popup.toggleFavorite highlightId allHighlights)
               = map Stored.anchor allHighlights).
  { unfold Popup.toggleFavorite.
    destruct (findById highlightId allHighlights); [| reflexivity].
    apply updateFound_map. reflexivity. }
  split; [exact H1 |]. split; [exact H2 |]. split; [exact H3 |].
  split; [exact H4 |]. intros href body.
  split; [apply loadAndRestore_anchors; exact H1 |].
  split; [intros n; apply loadAndRestore_anchors; apply H3 |].
  apply loadAndRestore_anchors; exact H4.
Qed.

(** X10.  What [saveHighlightDetails] writes and what it leaves.  When
    no stored record has the id, nothing changes, in the stored list and
    in the list of the page.  Otherwise the first stored record with the
    id receives the note and the category that are not [null] and the
    time of the change, and keeps everything else; a [null] argument
    keeps the field ([saveNote] never touches the category); looking any
    other id up gives what it gave before, and no record is added or
    lost. *)
Theorem saveHighlightDetails_lookup :
  forall (highlightId : string) (note category : option jsString) (now : Z)
         (allHighlights highlights : list stored),
    (findById highlightId allHighlights = None ->
     saveHighlightDetails highlightId note category now allHighlights highlights
     = (allHighlights, highlights))
    /\ (forall h : stored,
           findById highlightId allHighlights = Some h ->
           let saved :=
             fst (saveHighlightDetails highlightId note category now
                                       allHighlights highlights) in
           (exists h' : stored,
               findById highlightId saved = Some h'
               /\ Stored.note h'
                  = match note with Some n => n | None => Stored.note h end
               /\ Stored.category h'
                  = match category with
                    | Some c => c
                    | None => Stored.category h
                    end
               /\ Stored.lastModified h' = Some now
               /\ Stored.anchor h' = Stored.anchor h
               /\ Stored.pageTitle h' = Stored.pageTitle h
               /\ Stored.timestamp h' = Stored.timestamp h
               /\ Stored.favorite h' = Stored.favorite h)
           /\ (forall id', id' <> highlightId ->
                           findById id' saved = findById id' allHighlights)
           /\ List.length saved = List.length allHighlights
           /\ forall n : jsString,
               exists h' : stored,
                 findById highlightId
                   (fst (saveNote highlightId n now allHighlights highlights))
                 = Some h'
                 /\ Stored.note h' = n
                 /\ Stored.category h' = Stored.category h).
Proof.
  intros highlightId note category now allHighlights highlights. split.
  - intros Hnone. unfold saveHighlightDetails. rewrite Hnone. reflexivity.
  - intros h Hfind. cbv zeta.
    assert (Hsave : forall nt ct,
               fst (saveHighlightDetails highlightId nt ct now
                                         allHighlights highlights)
               = updateFound highlightId
                   (fun x => setLastModified now (setDetails nt ct x))
                   allHighlights)
      by (intros nt ct; unfold saveHighlightDetails; rewrite Hfind; reflexivity).
    rewrite Hsave. split; [| split; [| split]].
    + exists (setLastModified now (setDetails note category h)).
      split; [| repeat split].
      apply (findById_updateFound
               (fun x => setLastModified now (setDetails note category x)));
        [reflexivity | exact Hfind].
    + intros id' Hne.
      apply (findById_updateFound_other
               (fun x => setLastModified now (setDetails note category x)));
        [reflexivity | exact Hne].
    + rewrite <- (length_map Stored.anchor), updateFound_map by reflexivity.
      apply length_map.
    + intros n. unfold saveNote. rewrite Hsave.
      exists (setLastModified now (setDetails (Some n) None h)).
      split; [| split; reflexivity].
      apply (findById_updateFound
               (fun x => setLastModified now (setDetails (Some n) None x)));
        [reflexivity | exact Hfind].
Qed.

(** A note is saved for the second of two stored records. *)
Lemma saveHighlightDetails_lookup_witness :
  exists h' : stored,
    findById "hl-Y"
      (fst (saveHighlightDetails "hl-Y" (Some (lit "see p. 3")) None 1700000000500
              [highlightData Demo.anchorX (lit "Example") 1700000000000;
               highlightData Demo.anchorY (lit "Example") 1700000000100]
              []))
    = Some h'
    /\ Stored.note h' = lit "see p. 3"
    /\ Stored.category h' = [].
Proof.
  destruct (proj2 (saveHighlightDetails_lookup "hl-Y" (Some (lit "see p. 3")) None
                     1700000000500
                     [highlightData Demo.anchorX (lit "Example") 1700000000000;
                      highlightData Demo.anchorY (lit "Example") 1700000000100]
                     [])
                  (highlightData Demo.anchorY (lit "Example") 1700000000100)
                  eq_refl)
    as ((h' & Hf & Hn & Hc & _) & _).
  exists h'. split; [exact Hf | split; [exact Hn | exact Hc]].
Defined.

(** X11.  The popup opens a highlight at its stored address, and the
    stored address has no fragment (capture stores the address without
    it).  So on the page that [navigateToHighlight] opens
    [window.location.hash] is empty and [scrollToHighlightFromHash] does
    nothing at all: no lookup, no scroll, whatever the page holds. *)
Theorem popup_navigation_never_scrolls :
  forall (highlight : stored) (docAt : nat -> node),
    beforeHash (Stored.url highlight) = Stored.url highlight ->
    locationHash (Popup.navigateToHighlight highlight) = EmptyString
    /\ scrollToHighlightFromHash
         (locationHash (Popup.navigateToHighlight highlight)) docAt
       = [].
Proof.
  intros highlight docAt Hfree. unfold Popup.navigateToHighlight.
  rewrite <- Hfree, locationHash_beforeHash. split; reflexivity.
Qed.

Lemma popup_navigation_never_scrolls_witness :
  scrollToHighlightFromHash
    (locationHash
       (Popup.navigateToHighlight
          (highlightData Demo.anchorX (lit "Example") 1700000000000)))
    (fun _ => Demo.wrappedAbc)
  = [].
Proof.
  apply (popup_navigation_never_scrolls
           (highlightData Demo.anchorX (lit "Example") 1700000000000)
           (fun _ => Demo.wrappedAbc) eq_refl).
Defined.

(* ===================================================================== *)
(** ** The popup: sorting *)
(* ===================================================================== *)

Section ArraySortFacts.

Context {A : Type}.
Variable compareFn : A -> A -> Z.

(** The comparator is consistent. *)
Hypothesis compare_total :
  forall x y, compareFn x y > 0 -> compareFn y x <= 0.
Hypothesis compare_trans :
  forall x y z, compareFn x y <= 0 -> compareFn y z <= 0 -> compareFn x z <= 0.

Lemma insertSorted_perm (x : A) (l : list A) :
  Permutation (x :: l) (insertSorted compareFn x l).
Proof.
  induction l as [|y l IH]; simpl; [apply Permutation_refl |].
  destruct (compareFn x y >? 0); [| apply Permutation_refl].
  eapply perm_trans; [apply perm_swap |]. apply perm_skip. exact IH.
Qed.

Lemma arraySort_perm (l : list A) : Permutation l (arraySort compareFn l).
Proof.
  induction l as [|x l IH]; simpl; [apply perm_nil |].
  eapply perm_trans; [apply perm_skip; exact IH | apply insertSorted_perm].
Qed.

Lemma insertSorted_sorted (x : A) (l : list A) :
  StronglySorted (inOrder compareFn) l ->
  StronglySorted (inOrder compareFn) (insertSorted compareFn x l).
Proof.
  induction 1 as [|y l Hs IH Hall]; simpl.
  - constructor; constructor.
  - destruct (compareFn x y >? 0) eqn:E.
    + constructor; [exact IH |].
      apply Forall_forall. intros z Hz.
      apply (Permutation_in _ (Permutation_sym (insertSorted_perm x l))) in Hz.
      destruct Hz as [<- | Hz].
      * apply compare_total. apply Z.gtb_lt in E. lia.
      * rewrite Forall_forall in Hall. apply Hall. exact Hz.
    + assert (Hxy : inOrder compareFn x y).
      { unfold inOrder. destruct (Z.gtb_spec (compareFn x y) 0); [discriminate | lia]. }
      constructor; [constructor; assumption |].
      constructor; [exact Hxy |].
      eapply Forall_impl; [| exact Hall].
      intros z Hz. exact (compare_trans _ _ _ Hxy Hz).
Qed.

Lemma arraySort_sorted (l : list A) :
  StronglySorted (inOrder compareFn) (arraySort compareFn l).
Proof.
  induction l as [|x l IH]; simpl; [constructor |].
  apply insertSorted_sorted. exact IH.
Qed.

(** Inserting and filtering commute on a sorted array. *)
Lemma insertSorted_filter (p : A -> bool) (x : A) (l : list A) :
  StronglySorted (inOrder compareFn) l ->
  filter p (insertSorted compareFn x l)
  = if p x then insertSorted compareFn x (filter p l) else filter p l.
Proof.
  induction 1 as [|y l Hs IH Hall]; simpl.
  - destruct (p x); reflexivity.
  - destruct (compareFn x y >? 0) eqn:E; simpl.
    + rewrite IH. destruct (p y), (p x); simpl; try rewrite E; reflexivity.
    + assert (Hxy : inOrder compareFn x y).
      { unfold inOrder. destruct (Z.gtb_spec (compareFn x y) 0); [discriminate | lia]. }
      destruct (p x); [| reflexivity].
      destruct (p y) eqn:Ey; simpl; [rewrite E; reflexivity |].
      destruct (filter p l) as [|z l'] eqn:Ef; [reflexivity |]. simpl.
      assert (Hz : In z l).
      { assert (H : In z (filter p l)) by (rewrite Ef; left; reflexivity).
        apply filter_In in H. apply H. }
      rewrite Forall_forall in Hall.
      pose proof (compare_trans _ _ _ Hxy (Hall z Hz)) as Hxz.
      destruct (Z.gtb_spec (compareFn x z) 0); [lia | reflexivity].
Qed.

(** Sorting and filtering commute: the sort moves no element past
    another one that it need not pass. *)
Lemma arraySort_filter (p : A -> bool) (l : list A) :
  filter p (arraySort compareFn l) = arraySort compareFn (filter p l).
Proof.
  induction l as [|x l IH]; simpl; [reflexivity |].
  rewrite insertSorted_filter by apply arraySort_sorted.
  rewrite IH. destruct (p x); reflexivity.
Qed.

(** An array that is in order is left as it is. *)
Lemma arraySort_sorted_id (l : list A) :
  StronglySorted (inOrder compareFn) l -> arraySort compareFn l = l.
Proof.
  induction 1 as [|x l Hs IH Hall]; simpl; [reflexivity |].
  rewrite IH. destruct l as [|y l]; [reflexivity |]. simpl.
  inversion Hall as [|? ? Hxy _]; subst. unfold inOrder in Hxy.
  destruct (Z.gtb_spec (compareFn x y) 0); [lia | reflexivity].
Qed.

End ArraySortFacts.

Lemma sorted_equal_keys {A} (key : A -> Z) (compareFn : A -> A -> Z) (t : Z)
      (l : list A) :
  (forall x y, key x = key y -> compareFn x y <= 0) ->
  StronglySorted (inOrder compareFn) (filter (fun x => key x =? t) l).
Proof.
  intros Heq. induction l as [|x l IH]; simpl; [constructor |].
  destruct (key x =? t) eqn:E; [| exact IH].
  constructor; [exact IH |].
  apply Forall_forall. intros y Hy. apply filter_In in Hy as [_ Hy].
  apply Heq. apply Z.eqb_eq in E, Hy. lia.
Qed.

(** The sort by date, in both directions. *)
Lemma sortByDate_spec (currentFilters : Popup.filters) (l : list stored) :
  Permutation l (Popup.sortByDate currentFilters l)
  /\ StronglySorted (byDate currentFilters) (Popup.sortByDate currentFilters l)
  /\ (forall p, filter p (Popup.sortByDate currentFilters l)
                = Popup.sortByDate currentFilters (filter p l))
  /\ (forall t,
         filter (fun h => Stored.timestamp h =? t)
                (Popup.sortByDate currentFilters l)
         = filter (fun h => Stored.timestamp h =? t) l).
Proof.
  unfold Popup.sortByDate, byDate.
  destruct (String.eqb (Popup.dateSort currentFilters) "newest").
  - set (cmp := fun a b : stored => Stored.timestamp b - Stored.timestamp a).
    assert (Ht : forall x y, cmp x y > 0 -> cmp y x <= 0)
      by (unfold cmp; intros; lia).
    assert (Htr : forall x y z, cmp x y <= 0 -> cmp y z <= 0 -> cmp x z <= 0)
      by (unfold cmp; intros; lia).
    split; [apply arraySort_perm |]. split; [| split].
    + eapply StronglySorted_ind
        with (P := StronglySorted (fun a b => Stored.timestamp b <= Stored.timestamp a));
        [constructor | | apply (arraySort_sorted cmp Ht Htr l)].
      intros a l' _ IH Hall. constructor; [exact IH |].
      eapply Forall_impl; [| exact Hall]. unfold inOrder, cmp. intros; lia.
    + intros p. apply arraySort_filter; assumption.
    + intros t. rewrite (arraySort_filter cmp Ht Htr).
      apply (arraySort_sorted_id cmp).
      apply (sorted_equal_keys Stored.timestamp). unfold cmp. intros; lia.
  - set (cmp := fun a b : stored => Stored.timestamp a - Stored.timestamp b).
    assert (Ht : forall x y, cmp x y > 0 -> cmp y x <= 0)
      by (unfold cmp; intros; lia).
    assert (Htr : forall x y z, cmp x y <= 0 -> cmp y z <= 0 -> cmp x z <= 0)
      by (unfold cmp; intros; lia).
    split; [apply arraySort_perm |]. split; [| split].
    + eapply StronglySorted_ind
        with (P := StronglySorted (fun a b => Stored.timestamp a <= Stored.timestamp b));
        [constructor | | apply (arraySort_sorted cmp Ht Htr l)].
      intros a l' _ IH Hall. constructor; [exact IH |].
      eapply Forall_impl; [| exact Hall]. unfold inOrder, cmp. intros; lia.
    + intros p. apply arraySort_filter; assumption.
    + intros t. rewrite (arraySort_filter cmp Ht Htr).
      apply (arraySort_sorted_id cmp).
      apply (sorted_equal_keys Stored.timestamp). unfold cmp. intros; lia.
Qed.

(* ===================================================================== *)
(** ** The popup: what is shown *)
(* ===================================================================== *)

Lemma isFavorite_true (h : stored) :
  Popup.isFavorite h = true <-> Stored.favorite h = Some true.
Proof.
  unfold Popup.isFavorite. destruct (Stored.favorite h) as [[|]|];
    split; intros H; congruence.
Qed.

Lemma applyFilters_In (currentFilters : Popup.filters) (l : list stored)
      (h : stored) :
  In h (Popup.applyFilters currentFilters l) <-> In h l /\ shown currentFilters h.
Proof.
  unfold Popup.applyFilters, shown.
  destruct (Popup.favoriteOnly currentFilters) eqn:Ef;
    destruct (String.eqb_spec (Popup.color currentFilters) Popup.all) as [Ec | Ec];
    destruct (JS.eqb (Popup.category currentFilters) (lit Popup.all)) eqn:Ecat;
    cbn [negb];
    try (apply jsString_eqb_eq in Ecat);
    try (assert (Hcat : Popup.category currentFilters <> lit Popup.all)
          by (intros E; apply jsString_eqb_eq in E; congruence));
    rewrite ?filter_In, ?isFavorite_true, ?String.eqb_eq, ?jsString_eqb_eq;
    intuition congruence.
Qed.

Lemma filter_comm {A} (p q : A -> bool) (l : list A) :
  filter p (filter q l) = filter q (filter p l).
Proof.
  induction l as [|x l IH]; simpl; [reflexivity |].
  destruct (p x) eqn:Ep, (q x) eqn:Eq; simpl; rewrite ?Ep, ?Eq, IH; reflexivity.
Qed.

Lemma applyFilters_filter (currentFilters : Popup.filters) (p : stored -> bool)
      (l : list stored) :
  Popup.applyFilters currentFilters (filter p l)
  = filter p (Popup.applyFilters currentFilters l).
Proof.
  unfold Popup.applyFilters.
  destruct (Popup.favoriteOnly currentFilters),
           (negb (String.eqb (Popup.color currentFilters) Popup.all)),
           (negb (JS.eqb (Popup.category currentFilters) (lit Popup.all)));
    repeat rewrite (filter_comm p); reflexivity.
Qed.

Lemma filter_filter_and {A} (p q : A -> bool) (l : list A) :
  filter p (filter q l) = filter (fun x => q x && p x) l.
Proof.
  induction l as [|x l IH]; simpl; [reflexivity |].
  destruct (q x) eqn:Eq; simpl; [destruct (p x) |]; rewrite IH; reflexivity.
Qed.

Lemma filter_all {A} (l : list A) : filter (fun _ => true) l = l.
Proof. induction l as [|x l IH]; simpl; [| rewrite IH]; reflexivity. Qed.

Lemma passes_shown (currentFilters : Popup.filters) (h : stored) :
  passes currentFilters h = true <-> shown currentFilters h.
Proof.
  unfold passes, shown.
  destruct (Popup.favoriteOnly currentFilters) eqn:Ef;
    destruct (String.eqb_spec (Popup.color currentFilters) Popup.all) as [Ec | Ec];
    destruct (JS.eqb (Popup.category currentFilters) (lit Popup.all)) eqn:Ecat;
    destruct (Stored.favorite h) as [[|]|];
    cbn [negb orb andb];
    try (apply jsString_eqb_eq in Ecat);
    try (assert (Hcat : Popup.category currentFilters <> lit Popup.all)
          by (intros E; apply jsString_eqb_eq in E; congruence));
    rewrite ?andb_true_iff, ?String.eqb_eq, ?jsString_eqb_eq;
    intuition congruence.
Qed.

(** The three filters in a row keep the records that pass, where they
    are. *)
Lemma applyFilters_passes (currentFilters : Popup.filters) (l : list stored) :
  Popup.applyFilters currentFilters l = filter (passes currentFilters) l.
Proof.
  unfold Popup.applyFilters, passes, Popup.isFavorite.
  destruct (Popup.favoriteOnly currentFilters),
           (String.eqb (Popup.color currentFilters) Popup.all),
           (JS.eqb (Popup.category currentFilters) (lit Popup.all));
    cbn [negb orb andb];
    rewrite ?filter_filter_and;
    try (symmetry; apply filter_all);
    apply filter_ext; intros h;
    repeat match goal with
           | |- context [match ?x with _ => _ end] => destruct x
           | |- context [String.eqb ?x ?y] => destruct (String.eqb x y)
           | |- context [JS.eqb ?x ?y] => destruct (JS.eqb x y)
           end; reflexivity.
Qed.

(** X12.  The cards of the popup.  The records that pass the filters
    are those of the stored list for which every filter that is set
    holds: the favorite flag is [true], the colour is the chosen one, the
    category is the chosen one; the filters keep each of them where it
    is in the stored list, as often as it is there.  [renderHighlights]
    makes one card for each of them and for no other record, ordered by
    date, newest first or oldest first as chosen, and the records of one
    date that pass are shown in the order of the stored list.  When no
    record passes, the empty state is shown instead, headed "No
    highlights yet" when nothing is stored and "No matches found" when
    the filters hide everything.  The filters the popup starts with let
    every record pass. *)
Theorem renderHighlights_cards :
  forall (currentFilters : Popup.filters) (allHighlights : list stored),
    (forall h, passes currentFilters h = true <-> shown currentFilters h)
    /\ Popup.applyFilters currentFilters allHighlights
       = filter (passes currentFilters) allHighlights
    /\ Popup.applyFilters Popup.defaultFilters allHighlights = allHighlights
    /\ match Popup.renderHighlights currentFilters allHighlights with
       | Popup.Cards cards =>
           cards <> []
           /\ Permutation (filter (passes currentFilters) allHighlights) cards
           /\ StronglySorted (byDate currentFilters) cards
           /\ forall t : Z,
               filter (fun h => Stored.timestamp h =? t) cards
               = filter (fun h => passes currentFilters h
                                  && (Stored.timestamp h =? t))
                        allHighlights
       | Popup.EmptyState heading =>
           (forall h, In h allHighlights -> ~ shown currentFilters h)
           /\ filter (passes currentFilters) allHighlights = []
           /\ heading = match allHighlights with
                        | [] => "No highlights yet"%string
                        | _ :: _ => "No matches found"%string
                        end
       end.
Proof.
  intros currentFilters allHighlights.
  split; [intros h; apply passes_shown |].
  split; [apply applyFilters_passes |].
  split; [reflexivity |].
  unfold Popup.renderHighlights.
  destruct (sortByDate_spec currentFilters
              (Popup.applyFilters currentFilters allHighlights))
    as (Hperm & Hsorted & _ & Hstable).
  destruct (Popup.sortByDate currentFilters
              (Popup.applyFilters currentFilters allHighlights))
    as [|c cards] eqn:E.
  - apply Permutation_sym, Permutation_nil in Hperm.
    assert (Hnone : forall h, In h allHighlights -> ~ shown currentFilters h).
    { intros h Hin Hs.
      assert (H : In h (Popup.applyFilters currentFilters allHighlights))
        by (apply applyFilters_In; split; assumption).
      rewrite Hperm in H. destruct H. }
    rewrite applyFilters_passes in Hperm.
    destruct allHighlights as [|x l]; simpl; split; auto.
  - rewrite applyFilters_passes in Hperm, Hstable.
    split; [discriminate |]. split; [exact Hperm |].
    split; [exact Hsorted |]. intros t.
    rewrite Hstable. apply filter_filter_and.
Qed.

(** Three records of one date, the second of which is no favorite: with
    the favorites filter the first and the third pass, in that order. *)
Lemma renderHighlights_cards_witness :
  Popup.applyFilters (Popup.mkFilters true Popup.all (lit Popup.all) "newest")
    [Stored.mk Demo.anchorX [] [] [] 0 None (Some true);
     Stored.mk Demo.anchorY [] [] [] 0 None None;
     Stored.mk Demo.anchorA [] [] [] 0 None (Some true)]
  = [Stored.mk Demo.anchorX [] [] [] 0 None (Some true);
     Stored.mk Demo.anchorA [] [] [] 0 None (Some true)].
Proof.
  rewrite (proj1 (proj2 (renderHighlights_cards
                           (Popup.mkFilters true Popup.all (lit Popup.all)
                                            "newest")
                           [Stored.mk Demo.anchorX [] [] [] 0 None (Some true);
                            Stored.mk Demo.anchorY [] [] [] 0 None None;
                            Stored.mk Demo.anchorA [] [] [] 0 None (Some true)]))).
  reflexivity.
Defined.

(** X13.  Deleting from the popup takes away the cards of the deleted
    highlight and nothing else.  After [handleDelete] has been confirmed
    no stored record has the id of the highlight and every other record
    is kept; under any filters, the records that are shown afterwards
    are the ones shown before without those of that id, in the same
    order.  A delete or a clear that is not confirmed changes nothing,
    and a confirmed [handleClearAll] leaves the empty state "No
    highlights yet". *)
Theorem handleDelete_removes_its_cards :
  forall (currentFilters : Popup.filters) (highlight : stored)
         (highlights : list stored),
    (forall h, In h (Popup.handleDelete true highlight highlights)
               <-> In h highlights /\ Stored.id h <> Stored.id highlight)
    /\ Popup.sortByDate currentFilters
         (Popup.applyFilters currentFilters
            (Popup.handleDelete true highlight highlights))
       = filter (fun h => negb (String.eqb (Stored.id h) (Stored.id highlight)))
                (Popup.sortByDate currentFilters
                   (Popup.applyFilters currentFilters highlights))
    /\ Popup.handleDelete false highlight highlights = highlights
    /\ Popup.handleClearAll false highlights = highlights
    /\ Popup.renderHighlights currentFilters
         (Popup.handleClearAll true highlights)
       = Popup.EmptyState "No highlights yet".
Proof.
  intros currentFilters highlight highlights. split; [| split].
  - intros h. unfold Popup.handleDelete. rewrite filter_In.
    destruct (String.eqb_spec (Stored.id h) (Stored.id highlight));
      simpl; intuition congruence.
  - unfold Popup.handleDelete. rewrite applyFilters_filter.
    destruct (sortByDate_spec currentFilters
                (Popup.applyFilters currentFilters highlights))
      as (_ & _ & Hcomm & _).
    symmetry. apply Hcomm.
  - split; [reflexivity |]. split; [reflexivity |].
    unfold Popup.handleClearAll, Popup.renderHighlights, Popup.sortByDate,
      Popup.applyFilters.
    destruct (Popup.favoriteOnly currentFilters),
      (negb (String.eqb (Popup.color currentFilters) Popup.all)),
      (negb (JS.eqb (Popup.category currentFilters) (lit Popup.all))),
      (String.eqb (Popup.dateSort currentFilters) "newest"); reflexivity.
Qed.

(* ===================================================================== *)
(** ** The popup: favorites and categories *)
(* ===================================================================== *)

Lemma updateFound_twice (f g : stored -> stored) (id : string) (l : list stored) :
  (forall x, Stored.id (f x) = Stored.id x) ->
  updateFound id g (updateFound id f l) = updateFound id (fun x => g (f x)) l.
Proof.
  intros Hid. induction l as [|x l IH]; simpl; [reflexivity |].
  destruct (String.eqb (Stored.id x) id) eqn:E; simpl.
  - rewrite Hid, E. reflexivity.
  - rewrite E, IH. reflexivity.
Qed.

Lemma updateFound_absent (f : stored -> stored) (id : string) (l : list stored) :
  findById id l = None -> updateFound id f l = l.
Proof.
  unfold findById. induction l as [|x l IH]; simpl; [reflexivity |].
  destruct (String.eqb (Stored.id x) id); [discriminate |].
  intros H. rewrite IH by exact H. reflexivity.
Qed.

(** X14.  [toggleFavorite] flips the favorite flag of the first stored
    record with the id and touches nothing else: a flag that was never
    set counts as false, so the first toggle of a new highlight makes it
    a favorite.  Looking up any other id gives the record it gave
    before.  Toggling twice gives back, for every record, the data its
    card is made of; with an id that no record has, nothing is
    written. *)
Theorem toggleFavorite_flips :
  forall (highlightId : string) (highlights : list stored),
    (findById highlightId highlights = None ->
     Popup.toggleFavorite highlightId highlights = highlights)
    /\ (forall h : stored,
           findById highlightId highlights = Some h ->
           findById highlightId (Popup.toggleFavorite highlightId highlights)
           = Some (Popup.flipFavorite h)
           /\ Popup.isFavorite (Popup.flipFavorite h) = negb (Popup.isFavorite h)
           /\ (Stored.favorite h = None ->
               Popup.isFavorite (Popup.flipFavorite h) = true)
           /\ forall id', id' <> highlightId ->
                findById id' (Popup.toggleFavorite highlightId highlights)
                = findById id' highlights)
    /\ map Popup.cardData
           (Popup.toggleFavorite highlightId
              (Popup.toggleFavorite highlightId highlights))
       = map Popup.cardData highlights
    /\ List.length (Popup.toggleFavorite highlightId highlights)
       = List.length highlights.
Proof.
  intros highlightId highlights.
  assert (Hid : forall x, Stored.id (Popup.flipFavorite x) = Stored.id x)
    by reflexivity.
  split; [| split; [| split]].
  - intros Hnone. unfold Popup.toggleFavorite. rewrite Hnone. reflexivity.
  - intros h Hfind. unfold Popup.toggleFavorite. rewrite Hfind.
    split; [apply findById_updateFound; [exact Hid | exact Hfind] |].
    split; [unfold Popup.isFavorite, Popup.flipFavorite; simpl;
            destruct (Stored.favorite h) as [[|]|]; reflexivity |].
    split; [intros Hn; unfold Popup.isFavorite, Popup.flipFavorite; simpl;
            rewrite Hn; reflexivity |].
    intros id' Hne. apply findById_updateFound_other; [exact Hid | exact Hne].
  - unfold Popup.toggleFavorite.
    destruct (findById highlightId highlights) as [h|] eqn:Hfind.
    + rewrite (findById_updateFound Popup.flipFavorite _ _ _ Hid Hfind).
      rewrite (updateFound_twice _ _ _ _ Hid).
      apply updateFound_map. intros x.
      unfold Popup.cardData, Popup.flipFavorite. simpl.
      destruct (Stored.favorite x) as [[|]|]; reflexivity.
    + rewrite Hfind. reflexivity.
  - unfold Popup.toggleFavorite.
    destruct (findById highlightId highlights); [| reflexivity].
    rewrite <- (length_map Stored.anchor), updateFound_map by reflexivity.
    apply length_map.
Qed.

Lemma compareStrings_total (x : jsString) :
  forall y, compareStrings x y > 0 -> compareStrings y x <= 0.
Proof.
  induction x as [|a x IH]; intros [|b y]; simpl; try lia.
  destruct (N.ltb_spec a b), (N.ltb_spec b a); try lia. apply IH.
Qed.

Lemma compareStrings_trans (x : jsString) :
  forall y z, compareStrings x y <= 0 -> compareStrings y z <= 0 ->
              compareStrings x z <= 0.
Proof.
  induction x as [|a x IH]; intros [|b y] [|c z]; simpl; try lia.
  destruct (N.ltb_spec a b), (N.ltb_spec b a), (N.ltb_spec b c),
           (N.ltb_spec c b), (N.ltb_spec a c), (N.ltb_spec c a);
    try lia.
  apply IH.
Qed.

Lemma setOf_In (l : list jsString) (x : jsString) : In x (setOf l) <-> In x l.
Proof.
  induction l as [|a l IH]; simpl; [tauto |].
  rewrite filter_In, IH.
  destruct (JS.eqb a x) eqn:E.
  - apply jsString_eqb_eq in E. subst. simpl. intuition congruence.
  - assert (a <> x) by (intros ->; rewrite (proj2 (jsString_eqb_eq x x) eq_refl) in E;
                        discriminate).
    simpl. intuition congruence.
Qed.

Lemma setOf_NoDup (l : list jsString) : NoDup (setOf l).
Proof.
  induction l as [|a l IH]; simpl; constructor.
  - intros Hin. apply filter_In in Hin as [_ Hin].
    rewrite (proj2 (jsString_eqb_eq a a) eq_refl) in Hin. discriminate.
  - apply NoDup_filter. exact IH.
Qed.

Lemma existingCategories_In (allHighlights : list stored) (c : jsString) :
  In c (existingCategories allHighlights)
  <-> nonBlank c = true
      /\ exists h, In h allHighlights /\ Stored.category h = c.
Proof.
  unfold existingCategories. rewrite setOf_In, filter_In, in_map_iff.
  split.
  - intros [(h & E & Hin) Hb]. split; [exact Hb | exists h; auto].
  - intros [Hb (h & Hin & E)]. split; [exists h; auto | exact Hb].
Qed.

Lemma existsb_filter_other (x y : jsString) (l : list jsString) :
  JS.eqb y x = false ->
  existsb (JS.eqb y) (filter (fun z => negb (JS.eqb x z)) l)
  = existsb (JS.eqb y) l.
Proof.
  intros Hne. induction l as [|z l IH]; simpl; [reflexivity |].
  destruct (JS.eqb x z) eqn:E; simpl; rewrite IH; [| reflexivity].
  apply jsString_eqb_eq in E. subst z. rewrite Hne. reflexivity.
Qed.

(** The distinct values of two arrays in a row: those of the first, then
    those of the second that the first has not. *)
Lemma setOf_app (a b : list jsString) :
  setOf (a ++ b)
  = setOf a
    ++ filter (fun y => negb (existsb (JS.eqb y) (setOf a))) (setOf b).
Proof.
  induction a as [|x a IH]; simpl; [symmetry; apply filter_all |].
  f_equal. rewrite IH, filter_app. f_equal.
  rewrite filter_filter_and. apply filter_ext. intros y.
  destruct (JS.eqb y x) eqn:E.
  - apply jsString_eqb_eq in E. subst y.
    rewrite (proj2 (jsString_eqb_eq x x) eq_refl). simpl.
    apply andb_false_r.
  - assert (E' : JS.eqb x y = false).
    { destruct (JS.eqb x y) eqn:E'; [| reflexivity].
      apply jsString_eqb_eq in E'. subst y.
      rewrite (proj2 (jsString_eqb_eq x x) eq_refl) in E. discriminate. }
    rewrite E'. simpl. rewrite andb_true_r.
    rewrite (existsb_filter_other x y _ E). reflexivity.
Qed.

(** X15.  The categories that are offered.  The list of the filter
    dialog holds exactly the categories that some stored record has and
    that are not blank, each of them once, in ascending order of their
    code units.  The suggestions of the note dialog are the same
    categories in the order in which the stored list first has them: a
    list of one record suggests its category when that is not blank,
    and the suggestions of a list followed by another are those of the
    first, in their order, followed by those of the second that the
    first has not.  The first five of them, at most, become tags. *)
Theorem categories_offered :
  forall allHighlights : list stored,
    NoDup (Popup.categories allHighlights)
    /\ (forall c, In c (Popup.categories allHighlights)
                  <-> nonBlank c = true
                      /\ exists h, In h allHighlights /\ Stored.category h = c)
    /\ StronglySorted (inOrder compareStrings) (Popup.categories allHighlights)
    /\ NoDup (existingCategories allHighlights)
    /\ Permutation (existingCategories allHighlights)
                   (Popup.categories allHighlights)
    /\ (forall h : stored,
           existingCategories [h]
           = if nonBlank (Stored.category h) then [Stored.category h] else [])
    /\ (forall earlier later : list stored,
           allHighlights = earlier ++ later ->
           existingCategories allHighlights
           = existingCategories earlier
             ++ filter (fun c => negb (existsb (JS.eqb c)
                                         (existingCategories earlier)))
                       (existingCategories later))
    /\ (List.length (categoryTags allHighlights) <= 5)%nat
    /\ categoryTags allHighlights
       = firstn 5 (existingCategories allHighlights).
Proof.
  intros allHighlights.
  assert (Hperm : Permutation (existingCategories allHighlights)
                              (Popup.categories allHighlights))
    by apply arraySort_perm.
  split; [apply (Permutation_NoDup Hperm), setOf_NoDup |].
  split.
  { intros c. rewrite <- existingCategories_In. split; intros H.
    - apply (Permutation_in _ (Permutation_sym Hperm)). exact H.
    - apply (Permutation_in _ Hperm). exact H. }
  split.
  { apply arraySort_sorted.
    - intros x y. apply compareStrings_total.
    - intros x y z. apply compareStrings_trans. }
  split; [apply setOf_NoDup |]. split; [exact Hperm |].
  split.
  { intros h. unfold existingCategories. simpl.
    destruct (nonBlank (Stored.category h)); reflexivity. }
  split.
  { intros earlier later ->. unfold existingCategories.
    rewrite map_app, filter_app. apply setOf_app. }
  split; [unfold categoryTags; rewrite length_firstn; lia | reflexivity].
Qed.

(** Three records with the categories "b", "a" and "b" again: the
    suggestions are "b", then "a". *)
Lemma categories_offered_witness :
  existingCategories
    [Stored.mk Demo.anchorX [] [] (lit "b") 0 None None;
     Stored.mk Demo.anchorY [] [] (lit "a") 0 None None;
     Stored.mk Demo.anchorA [] [] (lit "b") 0 None None]
  = [lit "b"; lit "a"].
Proof.
  destruct (categories_offered
              [Stored.mk Demo.anchorX [] [] (lit "b") 0 None None;
               Stored.mk Demo.anchorY [] [] (lit "a") 0 None None;
               Stored.mk Demo.anchorA [] [] (lit "b") 0 None None])
    as (_ & _ & _ & _ & _ & _ & Happ & _).
  rewrite (Happ [Stored.mk Demo.anchorX [] [] (lit "b") 0 None None]
                [Stored.mk Demo.anchorY [] [] (lit "a") 0 None None;
                 Stored.mk Demo.anchorA [] [] (lit "b") 0 None None] eq_refl).
  reflexivity.
Defined.

(* ===================================================================== *)
(** ** Escaping *)
(* ===================================================================== *)

Lemma escapeUnit_cases (c : N) :
  (c = 38%N /\ escapeUnit c = [38; 97; 109; 112; 59]%N)
  \/ (c = 160%N /\ escapeUnit c = [38; 110; 98; 115; 112; 59]%N)
  \/ (c = 60%N /\ escapeUnit c = [38; 108; 116; 59]%N)
  \/ (c = 62%N /\ escapeUnit c = [38; 103; 116; 59]%N)
  \/ (c <> 38%N /\ c <> 160%N /\ c <> 60%N /\ c <> 62%N /\ escapeUnit c = [c]).
Proof.
  unfold escapeUnit.
  destruct (N.eqb_spec c 38); [left; subst; auto |].
  destruct (N.eqb_spec c 160); [right; left; subst; auto |].
  destruct (N.eqb_spec c 60); [right; right; left; subst; auto |].
  destruct (N.eqb_spec c 62); [right; right; right; left; subst; auto |].
  right; right; right; right. auto.
Qed.

Lemma escapeHtml_cons (c : N) (s : jsString) :
  escapeHtml (c :: s) = escapeUnit c ++ escapeHtml s.
Proof. reflexivity. Qed.

Lemma escapeHtml_injective (a : jsString) :
  forall b, escapeHtml a = escapeHtml b -> a = b.
Proof.
  induction a as [|x a IH]; intros [|y b] H.
  - reflexivity.
  - rewrite escapeHtml_cons in H.
    destruct (escapeUnit_cases y) as [[_ E] | [[_ E] | [[_ E] | [[_ E] | (_ & _ & _ & _ & E)]]]];
      rewrite E in H; discriminate.
  - rewrite escapeHtml_cons in H.
    destruct (escapeUnit_cases x) as [[_ E] | [[_ E] | [[_ E] | [[_ E] | (_ & _ & _ & _ & E)]]]];
      rewrite E in H; discriminate.
  - rewrite !escapeHtml_cons in H.
    destruct (escapeUnit_cases x)
      as [[Hx E] | [[Hx E] | [[Hx E] | [[Hx E] | (X1 & X2 & X3 & X4 & E)]]]];
      destruct (escapeUnit_cases y)
        as [[Hy E'] | [[Hy E'] | [[Hy E'] | [[Hy E'] | (Y1 & Y2 & Y3 & Y4 & E')]]]];
      rewrite E, E' in H; simpl in H;
      try discriminate;
      try (injection H as H; subst; f_equal; apply IH; assumption);
      try (injection H as H0 H; subst; f_equal; apply IH; assumption);
      try (injection H as H0 H; subst; congruence).
Qed.

(** X16.  [escapeHtml] replaces the ampersand, the two angle brackets
    and the no-break space by their entities and leaves every other code
    unit as it is.  Its result holds no angle bracket, two different
    texts never give the same result, and a text without the four
    characters is returned unchanged.  Quotation marks are among the
    code units it leaves: the result has as many double and single
    quotes as the text. *)
Theorem escapeHtml_escapes :
  forall text : jsString,
    ~ In 60%N (escapeHtml text)
    /\ ~ In 62%N (escapeHtml text)
    /\ (forall other : jsString, escapeHtml text = escapeHtml other -> text = other)
    /\ ((forall c, In c text -> c <> 38%N /\ c <> 160%N /\ c <> 60%N /\ c <> 62%N) ->
        escapeHtml text = text)
    /\ count_occ N.eq_dec (escapeHtml text) 34%N = count_occ N.eq_dec text 34%N
    /\ count_occ N.eq_dec (escapeHtml text) 39%N = count_occ N.eq_dec text 39%N
    /\ (List.length text <= List.length (escapeHtml text))%nat.
Proof.
  intros text.
  split; [| split; [| split; [apply escapeHtml_injective |]]].
  - induction text as [|c s IH]; [intros [] |].
    rewrite escapeHtml_cons. intros Hin. apply in_app_or in Hin as [Hin | Hin];
      [| exact (IH Hin)].
    destruct (escapeUnit_cases c)
      as [[_ E] | [[_ E] | [[_ E] | [[_ E] | (_ & _ & X3 & _ & E)]]]];
      rewrite E in Hin; simpl in Hin;
      repeat (destruct Hin as [Hin | Hin]; [try discriminate; congruence |]);
      exact Hin.
  - induction text as [|c s IH]; [intros [] |].
    rewrite escapeHtml_cons. intros Hin. apply in_app_or in Hin as [Hin | Hin];
      [| exact (IH Hin)].
    destruct (escapeUnit_cases c)
      as [[_ E] | [[_ E] | [[_ E] | [[_ E] | (_ & _ & _ & X4 & E)]]]];
      rewrite E in Hin; simpl in Hin;
      repeat (destruct Hin as [Hin | Hin]; [try discriminate; congruence |]);
      exact Hin.
  - split; [| split; [| split]].
    + induction text as [|c s IH]; intros Hall; [reflexivity |].
      rewrite escapeHtml_cons, IH by (intros c' Hc'; apply Hall; right; exact Hc').
      destruct (Hall c (or_introl eq_refl)) as (H1 & H2 & H3 & H4).
      destruct (escapeUnit_cases c)
        as [[E _] | [[E _] | [[E _] | [[E _] | (_ & _ & _ & _ & E)]]]];
        try contradiction.
      rewrite E. reflexivity.
    + induction text as [|c s IH]; [reflexivity |].
      rewrite escapeHtml_cons, count_occ_app, IH.
      destruct (escapeUnit_cases c)
        as [[Hc E] | [[Hc E] | [[Hc E] | [[Hc E] | (_ & _ & _ & _ & E)]]]];
        rewrite E; try (subst c; reflexivity).
      simpl. destruct (N.eq_dec c 34); reflexivity.
    + induction text as [|c s IH]; [reflexivity |].
      rewrite escapeHtml_cons, count_occ_app, IH.
      destruct (escapeUnit_cases c)
        as [[Hc E] | [[Hc E] | [[Hc E] | [[Hc E] | (_ & _ & _ & _ & E)]]]];
        rewrite E; try (subst c; reflexivity).
      simpl. destruct (N.eq_dec c 39); reflexivity.
    + induction text as [|c s IH]; [simpl; lia |].
      rewrite escapeHtml_cons, length_app.
      destruct (escapeUnit_cases c)
        as [[_ E] | [[_ E] | [[_ E] | [[_ E] | (_ & _ & _ & _ & E)]]]];
        rewrite E; simpl in *; lia.
Qed.

(* ===================================================================== *)
(** ** What a range extracts is what it reads *)
(* ===================================================================== *)

Lemma flat_map_snd_under (q : path) (l : list (path * jsString)) :
  flat_map snd (map (under q) l) = flat_map snd l.
Proof.
  induction l as [|x l IH]; simpl; [reflexivity | rewrite IH; reflexivity].
Qed.

Lemma childTextList_cons (a : attrs) (k : nat) (c : node) (cs : list node) :
  childTextList a k (c :: cs)
  = map (under [k]) (textList a c) ++ childTextList a (S k) cs.
Proof.
  unfold childTextList, textList. simpl inChildren.
  rewrite map_app, !map_map. f_equal.
  apply map_ext. intros [p [a' s]]. reflexivity.
Qed.

Lemma childTextList_nth (a : attrs) (cs : list node) :
  forall (i k : nat) (c : node),
    nth_error cs i = Some c ->
    childTextList a k cs
    = childTextList a k (firstn i cs)
      ++ map (under [(k + i)%nat]) (textList a c)
      ++ childTextList a (k + S i) (skipn (S i) cs).
Proof.
  induction cs as [|c0 cs IH]; intros i k c Hi; [destruct i; discriminate |].
  destruct i as [|i]; simpl in Hi.
  - injection Hi as ->. rewrite childTextList_cons.
    rewrite Nat.add_0_r, Nat.add_1_r. reflexivity.
  - change (firstn (S i) (c0 :: cs)) with (c0 :: firstn i cs).
    change (skipn (S (S i)) (c0 :: cs)) with (skipn (S i) cs).
    rewrite !childTextList_cons, (IH i (S k) c Hi), <- app_assoc.
    replace (S k + i)%nat with (k + S i)%nat by lia.
    replace (S k + S i)%nat with (k + S (S i))%nat by lia.
    reflexivity.
Qed.

Lemma textList_text (n : node) :
  forall parent, flat_map snd (textList parent n) = textContent n.
Proof.
  induction n as [s | t a cs IH] using node_induction; intros parent.
  - simpl. apply app_nil_r.
  - change (textList parent (Elem t a cs)) with (childTextList a 0 cs).
    simpl textContent. generalize 0%nat.
    induction IH as [|c cs Hc _ IHcs]; intros k; [reflexivity |].
    rewrite childTextList_cons, flat_map_app, flat_map_snd_under, Hc, IHcs.
    reflexivity.
Qed.

Lemma childTextList_text (a : attrs) (k : nat) (cs : list node) :
  flat_map snd (childTextList a k cs) = flat_map textContent cs.
Proof.
  revert k. induction cs as [|c cs IH]; intros k; [reflexivity |].
  rewrite childTextList_cons, flat_map_app, flat_map_snd_under, textList_text, IH.
  reflexivity.
Qed.

(** The clone that [extractTail] fills holds the rest of the start node
    and every text node after it. *)
Lemma extractTail_split (p : path) :
  forall (n : node) (off : nat) (stay out : node) (parent : attrs),
    extractTail p off n = Some (stay, out) ->
    exists s pre post,
      textList parent n = pre ++ (p, s) :: post
      /\ textContent out = skipn off s ++ flat_map snd post.
Proof.
  induction p as [|i p IH]; intros n off stay out parent H;
    destruct n as [s | t a cs]; simpl in H; try discriminate.
  - injection H as <- <-. exists s, [], []. split; [reflexivity |].
    simpl. rewrite app_nil_r. reflexivity.
  - destruct (nth_error cs i) as [c|] eqn:Hi; [| discriminate].
    destruct (extractTail p off c) as [[stay' out']|] eqn:E; [| discriminate].
    injection H as <- <-.
    destruct (IH c off stay' out' a E) as (s & pre & post & Hl & Ht).
    exists s, (childTextList a 0 (firstn i cs) ++ map (under [i]) pre),
      (map (under [i]) post ++ childTextList a (S i) (skipn (S i) cs)).
    split.
    + change (textList parent (Elem t a cs)) with (childTextList a 0 cs).
      rewrite (childTextList_nth a cs i 0 c Hi), Hl, map_app. simpl.
      rewrite <- !app_assoc. reflexivity.
    + simpl. rewrite Ht, flat_map_app, flat_map_snd_under, childTextList_text.
      rewrite <- app_assoc. reflexivity.
Qed.

(** The clone that [extractHead] fills holds every text node before the
    end node and the beginning of the end node. *)
Lemma extractHead_split (p : path) :
  forall (n : node) (off : nat) (out stay : node) (parent : attrs),
    extractHead p off n = Some (out, stay) ->
    exists s pre post,
      textList parent n = pre ++ (p, s) :: post
      /\ textContent out = flat_map snd pre ++ firstn off s.
Proof.
  induction p as [|i p IH]; intros n off out stay parent H;
    destruct n as [s | t a cs]; simpl in H; try discriminate.
  - injection H as <- <-. exists s, [], []. split; reflexivity.
  - destruct (nth_error cs i) as [c|] eqn:Hi; [| discriminate].
    destruct (extractHead p off c) as [[out' stay']|] eqn:E; [| discriminate].
    injection H as <- <-.
    destruct (IH c off out' stay' a E) as (s & pre & post & Hl & Ht).
    exists s, (childTextList a 0 (firstn i cs) ++ map (under [i]) pre),
      (map (under [i]) post ++ childTextList a (S i) (skipn (S i) cs)).
    split.
    + change (textList parent (Elem t a cs)) with (childTextList a 0 cs).
      rewrite (childTextList_nth a cs i 0 c Hi), Hl, map_app. simpl.
      rewrite <- !app_assoc. reflexivity.
    + simpl. rewrite flat_map_app. simpl. rewrite Ht, app_nil_r.
      rewrite flat_map_app, flat_map_snd_under, childTextList_text.
      rewrite <- app_assoc. reflexivity.
Qed.

(** The text nodes below an element of the tree are a segment of the
    text nodes of the tree. *)
Lemma textList_below (q : path) :
  forall (n : node) (t : string) (a : attrs) (cs : list node) (parent : attrs),
    getNode q n = Some (Elem t a cs) ->
    exists L1 L2,
      textList parent n = L1 ++ map (under q) (childTextList a 0 cs) ++ L2.
Proof.
  induction q as [|k q IH]; intros n t a cs parent H.
  - simpl in H. injection H as ->. exists [], [].
    rewrite app_nil_r. simpl.
    change (textList parent (Elem t a cs)) with (childTextList a 0 cs).
    rewrite (map_ext (under []) (fun x => x)) by (intros [p s]; reflexivity).
    symmetry. apply map_id.
  - destruct n as [s | t0 a0 cs0]; [discriminate |]. simpl in H.
    destruct (nth_error cs0 k) as [c|] eqn:Hk; [| discriminate].
    destruct (IH c t a cs a0 H) as (L1 & L2 & Hl).
    exists (childTextList a0 0 (firstn k cs0) ++ map (under [k]) L1),
      (map (under [k]) L2 ++ childTextList a0 (S k) (skipn (S k) cs0)).
    change (textList parent (Elem t0 a0 cs0)) with (childTextList a0 0 cs0).
    rewrite (childTextList_nth a0 cs0 k 0 c Hk), Hl. simpl.
    rewrite !map_app, map_map, <- !app_assoc. reflexivity.
Qed.

Lemma splitAtNode_NoDup (p : path) (s : jsString)
      (l1 l2 : list (path * jsString)) :
  NoDup (map fst (l1 ++ (p, s) :: l2)) ->
  splitAtNode p (l1 ++ (p, s) :: l2) = Some (l1, s, l2).
Proof.
  induction l1 as [|[q0 s0] l1 IH]; simpl; intros Hnd.
  - rewrite path_eqb_refl. reflexivity.
  - inversion Hnd as [|? ? Hnot Hnd']; subst.
    destruct (path_eqb p q0) eqn:E.
    + apply path_eqb_eq in E. subst q0. exfalso. apply Hnot.
      rewrite map_app. apply in_or_app. right. left. reflexivity.
    + rewrite (IH Hnd'). reflexivity.
Qed.

Lemma allText_NoDup (body : node) : NoDup (map fst (allText body)).
Proof.
  unfold allText. rewrite map_map. simpl.
  destruct body as [s | t a cs]; [constructor |].
  exact (textNodesUnder_NoDup (Elem t a cs) noAttrs).
Qed.

(** The contents that [extractContents] moves out of the document are
    the text that [toString] reads in the range. *)
Lemma extract_is_toString (body : node) (r : range)
      (body1 : node) (frag : list node) (bp : path * nat) :
  isElement body = true ->
  extractContents body r = Some (body1, frag, bp) ->
  rangeToString body r = Some (flat_map textContent frag).
Proof.
  intros Hbody. unfold extractContents, rangeToString.
  destruct (path_eqb (startContainer r) (endContainer r)) eqn:Esame.
  - destruct (getNode (startContainer r) body) as [[s | ? ? ?]|];
      try discriminate.
    intros H. injection H as _ <- _. simpl. rewrite app_nil_r. reflexivity.
  - destruct (splitCommon (startContainer r) (endContainer r))
      as [[q ps] pe] eqn:Esp.
    destruct (splitCommon_spec _ _ _ _ _ Esp) as (Es & Ee & _).
    destruct ps as [|i ps]; [discriminate |].
    destruct pe as [|j pe]; [discriminate |].
    destruct (getNode q body) as [[s | t a cs]|] eqn:Hq; try discriminate.
    destruct (Nat.ltb_spec i j) as [Hlt | Hge]; [| discriminate].
    destruct (nth_error cs i) as [ci|] eqn:Hi; [| discriminate].
    destruct (nth_error cs j) as [cj|] eqn:Hj; [| discriminate].
    destruct (extractTail ps (startOffset r) ci) as [[stayi outi]|] eqn:Et;
      [| discriminate].
    destruct (extractHead pe (endOffset r) cj) as [[outj stayj]|] eqn:Eh;
      [| discriminate].
    intros H. injection H as _ <- _.
    destruct (extractTail_split _ _ _ _ _ a Et) as (s1 & prei & posti & Hli & Hti).
    destruct (extractHead_split _ _ _ _ _ a Eh) as (s2 & prej & postj & Hlj & Htj).
    destruct body as [s0 | tb ab csb]; [discriminate |].
    destruct (textList_below q (Elem tb ab csb) t a cs noAttrs Hq)
      as (L1 & L2 & Hall).
    assert (Hj' : nth_error (skipn (S i) cs) (j - S i) = Some cj).
    { rewrite nth_error_skipn. replace (S i + (j - S i))%nat with j by lia.
      exact Hj. }
    set (mids := firstn (j - S i) (skipn (S i) cs)) in *.
    assert (Hcs : childTextList a 0 cs
                  = (childTextList a 0 (firstn i cs) ++ map (under [i]) prei)
                    ++ (i :: ps, s1)
                    :: (map (under [i]) posti ++ childTextList a (S i) mids
                        ++ map (under [j]) prej)
                    ++ (j :: pe, s2)
                    :: (map (under [j]) postj
                        ++ childTextList a (S j)
                             (skipn (S (j - S i)) (skipn (S i) cs)))).
    { rewrite (childTextList_nth a cs i 0 ci Hi).
      rewrite (childTextList_nth a (skipn (S i) cs) (j - S i) (0 + S i) cj Hj').
      fold mids. rewrite Hli, Hlj, !map_app. simpl.
      replace (S (i + (j - S i))) with j by lia.
      replace (S (i + S (j - S i))) with (S j) by lia.
      rewrite <- ?app_assoc. simpl. rewrite <- ?app_assoc. reflexivity. }
    set (X := L1 ++ map (under q)
                        (childTextList a 0 (firstn i cs) ++ map (under [i]) prei)).
    set (M := map (under q)
                  (map (under [i]) posti ++ childTextList a (S i) mids
                   ++ map (under [j]) prej)).
    set (Y := map (under q)
                  (map (under [j]) postj
                   ++ childTextList a (S j)
                        (skipn (S (j - S i)) (skipn (S i) cs)))
              ++ L2).
    assert (Hshape : allText (Elem tb ab csb)
                     = X ++ (startContainer r, s1)
                       :: M ++ (endContainer r, s2) :: Y).
    { change (allText (Elem tb ab csb)) with (textList noAttrs (Elem tb ab csb)).
      rewrite Hall, Hcs. unfold X, M, Y. rewrite Es, Ee.
      repeat first [ rewrite map_app | rewrite <- app_assoc
                   | progress cbn [map app] ].
      reflexivity. }
    pose proof (allText_NoDup (Elem tb ab csb)) as Hnd.
    rewrite Hshape in Hnd. rewrite Hshape.
    rewrite (splitAtNode_NoDup _ _ _ _ Hnd).
    assert (Hnd' : NoDup (map fst (M ++ (endContainer r, s2) :: Y))).
    { rewrite map_app in Hnd. apply NoDup_app_remove_l in Hnd.
      simpl in Hnd. inversion Hnd; assumption. }
    rewrite (splitAtNode_NoDup _ _ _ _ Hnd').
    f_equal. simpl. rewrite flat_map_app. simpl. rewrite Hti, Htj, app_nil_r.
    unfold M. rewrite flat_map_snd_under, !flat_map_app, !flat_map_snd_under.
    rewrite childTextList_text, <- !app_assoc. reflexivity.
Qed.

(* ===================================================================== *)
(** ** The wrapper holds the text of its anchor *)
(* ===================================================================== *)

Lemma countIds_zero (id : string) (cs : list node) :
  countIds id cs = 0%nat -> forall c, In c cs -> countId id c = 0%nat.
Proof.
  induction cs as [|c0 cs IH]; intros H c Hin; [destruct Hin |].
  rewrite countIds_cons in H. destruct Hin as [<- | Hin]; [lia |].
  apply IH; [lia | exact Hin].
Qed.

Lemma elementsWithId_none (id : string) (n : node) :
  countId id n = 0%nat -> elementsWithId id n = [].
Proof.
  induction n as [s | t a cs IH] using node_induction; [reflexivity |].
  rewrite countId_Elem. intros H. simpl.
  destruct (hasId id a); [lia |]. simpl.
  assert (H0 : countIds id cs = 0%nat) by lia. clear H.
  induction IH as [|c cs Hc _ IHcs]; [reflexivity |].
  rewrite countIds_cons in H0. simpl.
  rewrite Hc, IHcs by lia. reflexivity.
Qed.

Lemma elementsWithId_none_list (id : string) (cs : list node) :
  countIds id cs = 0%nat -> flat_map (elementsWithId id) cs = [].
Proof.
  induction cs as [|c cs IH]; intros H; [reflexivity |].
  rewrite countIds_cons in H. simpl.
  rewrite elementsWithId_none, IH by lia. reflexivity.
Qed.

Lemma mergeText_elements (id : string) (cs : list node) :
  flat_map (elementsWithId id) (mergeText cs) = flat_map (elementsWithId id) cs.
Proof.
  induction cs as [|c cs IH]; [reflexivity |].
  destruct c as [[|x s] | t a ks]; simpl.
  - exact IH.
  - rewrite <- IH. destruct (mergeText cs) as [|[s' | t' a' ks'] rest]; reflexivity.
  - rewrite IH. reflexivity.
Qed.

Lemma normalize_elements (id : string) (n : node) :
  elementsWithId id (normalize n) = elementsWithId id n.
Proof.
  induction n as [s | t a cs IH] using node_induction; [reflexivity |].
  pose proof (normalize_text (Elem t a cs)) as Ht. simpl in Ht.
  simpl. rewrite Ht, mergeText_elements. f_equal.
  induction IH as [|c cs Hc _ IHcs]; simpl; [reflexivity |].
  rewrite Hc, IHcs; [reflexivity |].
  pose proof (normalize_text (Elem t a cs)) as Ht'. exact Ht'.
Qed.

Lemma normalize_wrappersWithId (id : string) (n : node) :
  wrappersWithId id (normalize n) = wrappersWithId id n.
Proof.
  destruct n as [s | t a cs]; [reflexivity |].
  pose proof (normalize_elements id (Elem t a cs)) as H. simpl in H.
  pose proof (normalize_text (Elem t a cs)) as Ht. simpl in Ht.
  rewrite Ht in H. simpl.
  destruct (hasId id a); [injection H as H |]; exact H.
Qed.

Lemma countId_nth (id : string) (cs : list node) (i : nat) (c : node) :
  nth_error cs i = Some c -> (countId id c <= countIds id cs)%nat.
Proof.
  intros Hi. destruct (nth_error_parts _ _ _ Hi) as [E _].
  rewrite E, countIds_app, countIds_cons. lia.
Qed.

Lemma countId_below (id : string) (q : path) :
  forall (n x : node),
    getNode q n = Some x -> (countId id x <= countId id n)%nat.
Proof.
  induction q as [|i q IH]; intros n x H; simpl in H.
  - injection H as <-. lia.
  - destruct n as [s | t a cs]; [discriminate |].
    destruct (nth_error cs i) as [c|] eqn:Hi; [| discriminate].
    specialize (IH c x H). pose proof (countId_nth id cs i c Hi).
    rewrite countId_Elem. lia.
Qed.

(** Replacing a subtree of a tree in which no element carries the id. *)
Lemma elementsWithId_replaceAt (id : string) (q : path) (new : node) :
  forall (n x : node),
    countId id n = 0%nat -> getNode q n = Some x ->
    elementsWithId id (replaceAt q new n) = elementsWithId id new.
Proof.
  induction q as [|i q IH]; intros n x H0 H; [reflexivity |].
  destruct n as [s | t a cs]; [discriminate |]. simpl in H. simpl replaceAt.
  destruct (nth_error cs i) as [c|] eqn:Hi; [| discriminate].
  rewrite countId_Elem in H0.
  destruct (hasId id a) eqn:Ea; [lia |].
  assert (Hcs : countIds id cs = 0%nat) by lia.
  destruct (nth_error_parts _ _ _ Hi) as [E _].
  assert (H1 : countIds id (firstn i cs) = 0%nat
               /\ countId id c = 0%nat
               /\ countIds id (skipn (S i) cs) = 0%nat).
  { rewrite E, countIds_app, countIds_cons in Hcs. lia. }
  destruct H1 as (H1 & H2 & H3).
  simpl. rewrite Ea, flat_map_app. simpl.
  rewrite (elementsWithId_none_list id _ H1), (elementsWithId_none_list id _ H3).
  rewrite (IH c x H2 H), app_nil_r. reflexivity.
Qed.

Lemma wrappersWithId_replaceAt (id : string) (q : path) (body x new : node) :
  wrappersOf id body = 0%nat -> getNode q body = Some x -> sameRoot x new ->
  wrappersWithId id (replaceAt q new body) = wrappersWithId id new.
Proof.
  intros H0 Hq Hroot. destruct q as [|i q]; [reflexivity |].
  destruct body as [s | t a cs]; [discriminate |]. simpl in Hq. simpl replaceAt.
  destruct (nth_error cs i) as [c|] eqn:Hi; [| discriminate].
  unfold wrappersOf in H0. fold (countIds id cs) in H0.
  destruct (nth_error_parts _ _ _ Hi) as [E _].
  assert (H1 : countIds id (firstn i cs) = 0%nat
               /\ countId id c = 0%nat
               /\ countIds id (skipn (S i) cs) = 0%nat).
  { rewrite E, countIds_app, countIds_cons in H0. lia. }
  destruct H1 as (H1 & H2 & H3).
  simpl. rewrite flat_map_app. simpl.
  rewrite (elementsWithId_none_list id _ H1), (elementsWithId_none_list id _ H3).
  rewrite (elementsWithId_replaceAt id q new c x H2 Hq), app_nil_r. simpl.
  pose proof (countId_below id q c x Hq) as Hx.
  destruct x as [sx | tx ax csx], new as [sn | tn an csn];
    simpl in Hroot; try contradiction; [reflexivity |].
  destruct Hroot as [<- <-]. rewrite countId_Elem in Hx. simpl.
  destruct (hasId id ax); [lia | reflexivity].
Qed.

Lemma firstMatch_first (f : node -> option path) (cs : list node) :
  forall i p,
    firstMatch f i cs = Some p ->
    exists k c p',
      p = (i + k)%nat :: p' /\ nth_error cs k = Some c /\ f c = Some p'
      /\ forall c', In c' (firstn k cs) -> f c' = None.
Proof.
  induction cs as [|c cs IH]; intros i p H; simpl in H; [discriminate |].
  destruct (f c) as [p0|] eqn:E.
  - injection H as <-. exists 0%nat, c, p0. rewrite Nat.add_0_r.
    split; [reflexivity |]. split; [reflexivity |]. split; [exact E |].
    intros c' [].
  - destruct (IH _ _ H) as (k & c1 & p' & -> & Hk & Hf & Hbefore).
    exists (S k), c1, p'. split; [f_equal; lia |]. split; [exact Hk |].
    split; [exact Hf |].
    intros c' Hin. change (firstn (S k) (c :: cs)) with (c :: firstn k cs) in Hin.
    destruct Hin as [<- | Hin]; [exact E | apply Hbefore; exact Hin].
Qed.

Lemma firstMatch_elements (id : string) (cs : list node) (p : path) :
  Forall (fun c => forall p',
              selectIn id c = Some p' ->
              exists t a ks rest,
                getNode p' c = Some (Elem t a ks)
                /\ elementsWithId id c = (t, a, flat_map textContent ks) :: rest)
         cs ->
  firstMatch (selectIn id) 0 cs = Some p ->
  exists i p' c t a ks rest,
    p = i :: p' /\ nth_error cs i = Some c
    /\ getNode p' c = Some (Elem t a ks)
    /\ flat_map (elementsWithId id) cs = (t, a, flat_map textContent ks) :: rest.
Proof.
  intros IH H.
  destruct (firstMatch_first _ _ _ _ H) as (k & c & p' & -> & Hk & Hsel & Hbefore).
  rewrite Forall_forall in IH.
  destruct (IH c (nth_error_In _ _ Hk) p' Hsel) as (t & a & ks & rest & Hg & He).
  destruct (nth_error_parts _ _ _ Hk) as [E _].
  exists k, p', c, t, a, ks,
    (rest ++ flat_map (elementsWithId id) (skipn (S k) cs)).
  split; [reflexivity |]. split; [exact Hk |]. split; [exact Hg |].
  rewrite E at 1. rewrite flat_map_app. simpl. rewrite He.
  assert (H0 : flat_map (elementsWithId id) (firstn k cs) = []).
  { clear E. induction (firstn k cs) as [|c' l IHl]; [reflexivity |]. simpl.
    rewrite (elementsWithId_none id c')
      by (apply selectIn_None; apply Hbefore; left; reflexivity).
    apply IHl. intros c'' Hin. apply Hbefore. right. exact Hin. }
  rewrite H0. reflexivity.
Qed.

Lemma selectIn_elements (id : string) (n : node) :
  forall p,
    selectIn id n = Some p ->
    exists t a ks rest,
      getNode p n = Some (Elem t a ks)
      /\ elementsWithId id n = (t, a, flat_map textContent ks) :: rest.
Proof.
  induction n as [s | t a cs IH] using node_induction; intros p H;
    [discriminate |].
  simpl in H. simpl elementsWithId. destruct (hasId id a).
  - injection H as <-. exists t, a, cs, (flat_map (elementsWithId id) cs).
    split; reflexivity.
  - destruct (firstMatch_elements id cs p IH H)
      as (i & p' & c & t' & a' & ks & rest & -> & Hi & Hg & He).
    exists t', a', ks, rest. simpl. rewrite Hi. split; [exact Hg | exact He].
Qed.

(** What [querySelector] finds is the first of the elements with the
    id. *)
Lemma querySelector_elements (id : string) (body : node) (p : path) :
  querySelector id body = Some p ->
  exists t a ks rest,
    getNode p body = Some (Elem t a ks)
    /\ wrappersWithId id body = (t, a, flat_map textContent ks) :: rest.
Proof.
  destruct body as [s | tb ab cs]; [discriminate |]. simpl. intros H.
  assert (IH : Forall (fun c => forall p',
                          selectIn id c = Some p' ->
                          exists t a ks rest,
                            getNode p' c = Some (Elem t a ks)
                            /\ elementsWithId id c
                               = (t, a, flat_map textContent ks) :: rest) cs)
    by (apply Forall_forall; intros c _; apply selectIn_elements).
  destruct (firstMatch_elements id cs p IH H)
    as (i & p' & c & t' & a' & ks & rest & -> & Hi & Hg & He).
  exists t', a', ks, rest. simpl. rewrite Hi. split; [exact Hg | exact He].
Qed.

(** Where [applyHighlight] puts the wrapper. *)
Lemma applyHighlight_shape (body : node) (r : range) (id color : string)
      (body1 : node) (frag : list node) (bp : path * nat) :
  isElement body = true ->
  (startContainer r = endContainer r -> (startOffset r <= endOffset r)%nat) ->
  collapsed r = false ->
  extractContents body r = Some (body1, frag, bp) ->
  exists (q : path) (t : string) (a : attrs) (cs l1 l2 : list node) (new : node),
    getNode q body = Some (Elem t a cs)
    /\ (forall id', countIds id' cs = 0%nat ->
                    (countIds id' l1 + countIds id' frag + countIds id' l2 = 0)%nat)
    /\ applyHighlight body r id color = replaceAt q new body
    /\ (new = Elem t a (l1 ++ mkWrapper id color frag :: l2)
        \/ new = normalize (Elem t a (l1 ++ mkWrapper id color frag :: l2))).
Proof.
  intros Hbody Horder Hcol E. unfold applyHighlight, surroundContents.
  rewrite Hcol, E.
  destruct (extract_insert_shape _ _ _ _ _ Hbody Horder E)
    as (q & t & a & cs & l1 & l2 & Hq & Hunder & Hins & _ & Hcount).
  exists q, t, a, cs, l1, l2.
  destruct (crossesElement (startContainer r) (endContainer r)).
  - exists (normalize (Elem t a (l1 ++ mkWrapper id color frag :: l2))).
    split; [exact Hq |]. split; [intros id'; apply Hcount |].
    split; [| right; reflexivity].
    rewrite (Hins (mkWrapper id color frag)), Hunder. unfold normalizeAt.
    rewrite (getNode_replaceAt _ _ _ _ Hq), (replaceAt_twice _ _ _ _ _ Hq).
    reflexivity.
  - exists (Elem t a (l1 ++ mkWrapper id color frag :: l2)).
    split; [exact Hq |]. split; [intros id'; apply Hcount |].
    split; [| left; reflexivity].
    rewrite (Hins (mkWrapper id color frag)). reflexivity.
Qed.

(** The elements with the id after the wrapper has been applied to a
    range of a document that has none. *)
Lemma applyHighlight_elements (body : node) (r : range) (id color : string)
      (t : jsString) :
  isElement body = true ->
  (startContainer r = endContainer r -> (startOffset r <= endOffset r)%nat) ->
  collapsed r = false ->
  extractContents body r <> None ->
  rangeToString body r = Some t ->
  wrappersOf id body = 0%nat ->
  wrappersWithId id (applyHighlight body r id color)
  = [("span"%string, wrapperAttrs id color, t)].
Proof.
  intros Hbody Horder Hcol Hex Hstr H0.
  destruct (extractContents body r) as [[[body1 frag] bp]|] eqn:E;
    [| congruence].
  pose proof (extract_is_toString body r body1 frag bp Hbody E) as Hfrag.
  rewrite Hstr in Hfrag. injection Hfrag as Hfrag.
  destruct (applyHighlight_shape body r id color body1 frag bp
              Hbody Horder Hcol E)
    as (q & tg & a & cs & l1 & l2 & new & Hq & Hcount & -> & Hnew).
  assert (Hcs : countIds id cs = 0%nat).
  { pose proof (wrappersOf_below id q body _ Hq) as Hle.
    unfold wrappersOf in Hle at 1. fold (countIds id cs) in Hle. lia. }
  specialize (Hcount id Hcs).
  assert (Hlist : flat_map (elementsWithId id)
                           (l1 ++ mkWrapper id color frag :: l2)
                  = [("span"%string, wrapperAttrs id color, t)]).
  { rewrite flat_map_app. cbn [flat_map]. unfold mkWrapper.
    cbn [elementsWithId]. rewrite hasId_wrapper, String.eqb_refl.
    rewrite (elementsWithId_none_list id l1) by lia.
    rewrite (elementsWithId_none_list id l2) by lia.
    rewrite (elementsWithId_none_list id frag) by lia.
    rewrite <- Hfrag. reflexivity. }
  rewrite (wrappersWithId_replaceAt id q body (Elem tg a cs) new H0 Hq).
  - destruct Hnew as [-> | ->];
      [| rewrite normalize_wrappersWithId]; exact Hlist.
  - destruct Hnew as [-> | ->]; simpl; auto.
Qed.

(** X17.  The wrapper holds the text of its anchor.  When an anchor is
    restored, the document afterwards has exactly one element that
    carries its id: a [span] with the marker class, the id and the
    colour of the anchor, whose text content is the anchor's text, code
    unit for code unit, whichever branch of [applyHighlight] made it and
    however many elements the range went through.  It is the element
    that [querySelector] finds for the id. *)
Theorem wrapper_holds_anchor_text :
  forall (body : node) (h : highlight) (r : range),
    createRangeFromHighlight body h = Some r ->
    let applied := applyHighlight body r (Highlight.id h) (Highlight.color h) in
    wrappersWithId (Highlight.id h) applied
    = [("span"%string, wrapperAttrs (Highlight.id h) (Highlight.color h),
        Highlight.text h)]
    /\ exists (p : path) (kids : list node),
         querySelector (Highlight.id h) applied = Some p
         /\ getNode p applied
            = Some (Elem "span"
                         (wrapperAttrs (Highlight.id h) (Highlight.color h)) kids)
         /\ flat_map textContent kids = Highlight.text h.
Proof.
  intros body h r Hr applied.
  destruct (createRangeFromHighlight_Some _ _ _ Hr) as [Hfresh Hfind].
  destruct (resolved_range_ok _ _ _ _ _ Hfind) as (Hbody & Hord & Hcol & Hex).
  destruct (findTextWithContext_Some _ _ _ _ _ Hfind)
    as (t & _ & _ & Et & _ & _ & _ & _ & Hstr).
  injection Et as <-.
  apply querySelector_None in Hfresh.
  pose proof (applyHighlight_elements body r (Highlight.id h) (Highlight.color h)
                _ Hbody Hord Hcol Hex Hstr Hfresh) as Hlist.
  fold applied in Hlist. split; [exact Hlist |].
  destruct (querySelector (Highlight.id h) applied) as [p|] eqn:Eq.
  - destruct (querySelector_elements _ _ _ Eq) as (tg & a & ks & rest & Hg & He).
    rewrite Hlist in He. injection He as <- <- Htext _.
    exists p, ks. split; [reflexivity |]. split; [exact Hg | symmetry; exact Htext].
  - exfalso. apply querySelector_None in Eq.
    destruct (applyHighlight_wrappers body r (Highlight.id h) (Highlight.color h)
                (Highlight.id h) Hbody Hord) as (_ & Hadd & _).
    specialize (Hadd Hcol Hex). rewrite String.eqb_refl in Hadd.
    fold applied in Hadd. lia.
Qed.

(** "Hello big" on [helloBig] goes through the fallback, which splits
    the [b] element; the wrapper holds "Hello big". *)
Lemma wrapper_holds_anchor_text_witness :
  wrappersWithId "hl-1"
    (applyHighlight Demo.helloBig Demo.helloBigSelection "hl-1" "#ffeb3b")
  = [("span"%string, wrapperAttrs "hl-1" "#ffeb3b", lit "Hello big")].
Proof.
  apply (proj1 (wrapper_holds_anchor_text Demo.helloBig
                  (mkHighlight "hl-1" (lit "Hello big") (Some [])
                               (Some (lit " world")) "https://example.org/" 0 9
                               "#ffeb3b")
                  Demo.helloBigSelection eq_refl)).
Defined.

(* ===================================================================== *)
(** ** C4: an anchor that is not found *)
(* ===================================================================== *)

(** C4.  When the pattern with the context is absent the search is the
    one for the bare text, which takes the leftmost occurrence; when the
    text is absent too the resolver returns [null] and no range is made
    for the anchor.  In the batch, the turn of an anchor for which no
    range is made counts one failure and changes nothing else: the
    document and the count of successes at the end are those of the
    batch without it, and every anchor of the batch is counted once.
    An anchor that comes after it and for which a range is made, in the
    document that the turns before it have left, is wrapped in its turn:
    the turn applies the highlight to that range and counts a success,
    the document then holds exactly one element with the id of the
    anchor, a [span] with the marker class and the colour of the anchor
    whose text is the text of the anchor, and when the batch is over an
    element with the id is still there for [querySelector] to find. *)
Theorem C4_not_found_is_isolated :
  (forall (fullText text : jsString) (tb ta : option jsString),
      (forall q, ~ occursAt (orEmpty tb ++ text ++ orEmpty ta) fullText q) ->
      findSearchIndex fullText text tb ta = indexOf fullText text
      /\ forall p, occursAt text fullText p ->
           exists p0 : nat,
             (p0 <= p)%nat /\ occursAt text fullText p0
             /\ (forall q, occursAt text fullText q -> (p0 <= q)%nat)
             /\ findSearchIndex fullText text tb ta = Z.of_nat p0)
  /\ (forall (body : node) (h : highlight),
         (forall q, ~ occursAt (Highlight.text h) (snd (linearizeRestore body)) q) ->
         findTextWithContext body (Some (Highlight.text h))
                             (Highlight.textBefore h) (Highlight.textAfter h)
         = None
         /\ createRangeFromHighlight body h = None)
  /\ (forall (before after : list highlight) (h : highlight) (body : node),
         createRangeFromHighlight (doc (restoreLoop before body)) h = None ->
         doc (restoreLoop (before ++ h :: after) body)
         = doc (restoreLoop (before ++ after) body)
         /\ doc (restoreHighlights (before ++ h :: after) body)
            = doc (restoreHighlights (before ++ after) body)
         /\ successCount (restoreHighlights (before ++ h :: after) body)
            = successCount (restoreHighlights (before ++ after) body)
         /\ failCount (restoreHighlights (before ++ h :: after) body)
            = S (failCount (restoreHighlights (before ++ after) body)))
  /\ (forall (highlights : list highlight) (body : node),
         (successCount (restoreHighlights highlights body)
          + failCount (restoreHighlights highlights body)
          = List.length highlights)%nat)
  /\ (forall (before middle after : list highlight) (h h' : highlight)
             (body : node) (r : range),
         createRangeFromHighlight (doc (restoreLoop before body)) h = None ->
         createRangeFromHighlight (doc (restoreLoop (before ++ middle) body)) h'
         = Some r ->
         let previous := restoreLoop (before ++ middle) body in
         let turn := restoreLoop (before ++ h :: middle ++ [h']) body in
         let batch := before ++ h :: middle ++ h' :: after in
         turn
         = mkRestore (applyHighlight (doc previous) r
                                     (Highlight.id h') (Highlight.color h'))
                     (S (successCount previous)) (S (failCount previous))
         /\ wrappersWithId (Highlight.id h') (doc turn)
            = [("span"%string,
                wrapperAttrs (Highlight.id h') (Highlight.color h'),
                Highlight.text h')]
         /\ (1 <= wrappersOf (Highlight.id h')
                    (doc (restoreHighlights batch body)))%nat
         /\ querySelector (Highlight.id h') (doc (restoreHighlights batch body))
            <> None
         /\ (1 <= successCount (restoreHighlights batch body))%nat).
Proof.
  split; [| split; [| split; [| split]]].
  - intros fullText text tb ta Habs.
    assert (E : findSearchIndex fullText text tb ta = indexOf fullText text).
    { apply findSearchIndex_fallback. right. apply indexOf_absent. exact Habs. }
    split; [exact E |]. intros p Hp. rewrite E.
    destruct (indexOf_cases fullText text) as [[_ Hno] | (p0 & Hidx & Hp0 & Hmin)].
    + destruct (Hno p Hp).
    + exists p0. auto.
  - intros body h Habs.
    assert (E : findTextWithContext body (Some (Highlight.text h))
                  (Highlight.textBefore h) (Highlight.textAfter h) = None).
    { unfold findTextWithContext.
      destruct (Highlight.text h) as [|c text]; [reflexivity |].
      destruct (linearizeRestore body) as [textNodes fullText]. simpl in Habs.
      rewrite findSearchIndex_fallback.
      - rewrite (indexOf_absent _ _ Habs). reflexivity.
      - right. apply indexOf_absent. intros q Hq.
        apply occursAt_inner in Hq. exact (Habs _ Hq). }
    split; [exact E |]. unfold createRangeFromHighlight. rewrite E.
    destruct (querySelector (Highlight.id h) body); reflexivity.
  - intros before after h body Hnone.
    pose proof (restoreLoop_failed before after h body Hnone) as Hloop.
    split; [rewrite Hloop; reflexivity |].
    unfold restoreHighlights. rewrite Hloop. simpl.
    destruct (0 <? successCount (restoreLoop (before ++ after) body))%nat;
      simpl; auto.
  - intros highlights body.
    destruct (restoreHighlights_counters highlights body) as [-> ->].
    unfold restoreLoop. rewrite restore_count. simpl. lia.
  - intros before middle after h h' body r Hnone Hsome previous turn batch.
    pose proof (restoreLoop_failed before middle h body Hnone) as Hmid.
    fold previous in Hmid.
    assert (Hturn : turn
                    = mkRestore (applyHighlight (doc previous) r
                                   (Highlight.id h') (Highlight.color h'))
                                (S (successCount previous))
                                (S (failCount previous))).
    { unfold turn.
      change (h :: middle ++ [h']) with ((h :: middle) ++ [h']).
      rewrite app_assoc. unfold restoreLoop. rewrite fold_left_app.
      fold (restoreLoop (before ++ h :: middle) body). rewrite Hmid.
      simpl. unfold restoreOne. simpl. fold previous in Hsome.
      rewrite Hsome. reflexivity. }
    fold previous in Hsome.
    destruct (createRangeFromHighlight_Some _ _ _ Hsome) as [Hfresh Hfind].
    destruct (resolved_range_ok _ _ _ _ _ Hfind) as (Hbody & Hord & Hcol & Hex).
    destruct (findTextWithContext_Some _ _ _ _ _ Hfind)
      as (t & _ & _ & Et & _ & _ & _ & _ & Hstr).
    injection Et as <-.
    apply querySelector_None in Hfresh.
    assert (Hone : (1 <= wrappersOf (Highlight.id h') (doc turn))%nat).
    { rewrite Hturn. simpl.
      destruct (applyHighlight_wrappers (doc previous) r (Highlight.id h')
                  (Highlight.color h') (Highlight.id h') Hbody Hord)
        as (_ & Hadd & _).
      specialize (Hadd Hcol Hex). rewrite String.eqb_refl in Hadd. lia. }
    assert (Hbatch : restoreLoop batch body = fold_left restoreOne after turn).
    { unfold batch, turn, restoreLoop. rewrite <- fold_left_app.
      f_equal. rewrite <- app_assoc. simpl. rewrite <- app_assoc. reflexivity. }
    assert (Hend : (1 <= wrappersOf (Highlight.id h')
                          (doc (restoreHighlights batch body)))%nat).
    { rewrite restoreHighlights_wrappersOf, Hbatch.
      destruct (restore_wrappers after (Highlight.id h') turn) as [Hmono _].
      lia. }
    split; [exact Hturn |]. split; [| split; [exact Hend | split]].
    + rewrite Hturn. simpl.
      apply (applyHighlight_elements (doc previous) r (Highlight.id h')
               (Highlight.color h') _ Hbody Hord Hcol Hex Hstr Hfresh).
    + rewrite querySelector_None. lia.
    + rewrite (proj1 (restoreHighlights_counters batch body)), Hbatch.
      pose proof (restore_count after turn) as Hc1.
      pose proof (restore_wrappers after (Highlight.id h') turn) as [_ Hf].
      pose proof (restore_successes after turn) as Hs.
      rewrite Hturn in Hs at 1. simpl in Hs. lia.
Qed.

(** The anchor "dog" is nowhere in [twoCats]: its turn counts a failure,
    and "ran", which comes after it, is wrapped.  With "dog" first in
    the batch, "the" and "ran" are both wrapped. *)
Lemma C4_not_found_is_isolated_witness :
  findTextWithContext Demo.twoCats (Some (lit "dog")) None None = None
  /\ failCount
       (restoreHighlights
          [mkHighlight "hl-1" (lit "the") None None "u" 0 0 "c";
           mkHighlight "hl-2" (lit "dog") None None "u" 0 0 "c";
           mkHighlight "hl-3" (lit "ran") None None "u" 0 0 "c"]
          Demo.twoCats)
     = S (failCount
            (restoreHighlights
               [mkHighlight "hl-1" (lit "the") None None "u" 0 0 "c";
                mkHighlight "hl-3" (lit "ran") None None "u" 0 0 "c"]
               Demo.twoCats))
  /\ wrappersWithId "hl-3"
       (doc (restoreLoop
               [mkHighlight "hl-1" (lit "the") None None "u" 0 0 "c";
                mkHighlight "hl-2" (lit "dog") None None "u" 0 0 "c";
                mkHighlight "hl-3" (lit "ran") None None "u" 0 0 "c"]
               Demo.twoCats))
     = [("span"%string, wrapperAttrs "hl-3" "c", lit "ran")]
  /\ querySelector "hl-3"
       (doc (restoreHighlights
               [mkHighlight "hl-1" (lit "the") None None "u" 0 0 "c";
                mkHighlight "hl-2" (lit "dog") None None "u" 0 0 "c";
                mkHighlight "hl-3" (lit "ran") None None "u" 0 0 "c"]
               Demo.twoCats))
     <> None
  /\ wrappersWithId "hl-1"
       (doc (restoreLoop
               [mkHighlight "hl-2" (lit "dog") None None "u" 0 0 "c";
                mkHighlight "hl-1" (lit "the") None None "u" 0 0 "c"]
               Demo.twoCats))
     = [("span"%string, wrapperAttrs "hl-1" "c", lit "the")]
  /\ querySelector "hl-1"
       (doc (restoreHighlights
               [mkHighlight "hl-2" (lit "dog") None None "u" 0 0 "c";
                mkHighlight "hl-1" (lit "the") None None "u" 0 0 "c";
                mkHighlight "hl-3" (lit "ran") None None "u" 0 0 "c"]
               Demo.twoCats))
     <> None
  /\ querySelector "hl-3"
       (doc (restoreHighlights
               [mkHighlight "hl-2" (lit "dog") None None "u" 0 0 "c";
                mkHighlight "hl-1" (lit "the") None None "u" 0 0 "c";
                mkHighlight "hl-3" (lit "ran") None None "u" 0 0 "c"]
               Demo.twoCats))
     <> None.
Proof.
  split; [| split].
  - apply (proj1 (proj2 C4_not_found_is_isolated) Demo.twoCats
             (mkHighlight "hl-2" (lit "dog") None None "u" 0 0 "c")).
    intros q (pre & post & E & _). vm_compute in E.
    repeat (destruct pre as [|? pre]; [discriminate |];
            injection E as _ E).
    destruct pre; discriminate.
  - apply (proj2 (proj2 (proj2 (proj1 (proj2 (proj2 C4_not_found_is_isolated))
             [mkHighlight "hl-1" (lit "the") None None "u" 0 0 "c"]
             [mkHighlight "hl-3" (lit "ran") None None "u" 0 0 "c"]
             (mkHighlight "hl-2" (lit "dog") None None "u" 0 0 "c")
             Demo.twoCats eq_refl)))).
  - pose proof (proj2 (proj2 (proj2 (proj2 C4_not_found_is_isolated)))
                  [mkHighlight "hl-1" (lit "the") None None "u" 0 0 "c"]
                  [] []
                  (mkHighlight "hl-2" (lit "dog") None None "u" 0 0 "c")
                  (mkHighlight "hl-3" (lit "ran") None None "u" 0 0 "c")
                  Demo.twoCats (mkRange [1; 0]%nat 6 [1; 0]%nat 9)
                  eq_refl eq_refl) as H.
    pose proof (proj2 (proj2 (proj2 (proj2 C4_not_found_is_isolated)))
                  []
                  []
                  [mkHighlight "hl-3" (lit "ran") None None "u" 0 0 "c"]
                  (mkHighlight "hl-2" (lit "dog") None None "u" 0 0 "c")
                  (mkHighlight "hl-1" (lit "the") None None "u" 0 0 "c")
                  Demo.twoCats (mkRange [0; 0]%nat 0 [0; 0]%nat 3)
                  eq_refl eq_refl) as H1.
    pose proof (proj2 (proj2 (proj2 (proj2 C4_not_found_is_isolated)))
                  []
                  [mkHighlight "hl-1" (lit "the") None None "u" 0 0 "c"]
                  []
                  (mkHighlight "hl-2" (lit "dog") None None "u" 0 0 "c")
                  (mkHighlight "hl-3" (lit "ran") None None "u" 0 0 "c")
                  Demo.twoCats (mkRange [1; 0]%nat 6 [1; 0]%nat 9)
                  eq_refl eq_refl) as H3.
    split; [exact (proj1 (proj2 H)) |].
    split; [exact (proj1 (proj2 (proj2 (proj2 H)))) |].
    split; [exact (proj1 (proj2 H1)) |].
    split; [exact (proj1 (proj2 (proj2 (proj2 H1))))
           | exact (proj1 (proj2 (proj2 (proj2 H3))))].
Defined.

(* ===================================================================== *)
(** ** Unwrapping after [surroundContents] *)
(* ===================================================================== *)

Lemma isPrefixOf_app (q a b : path) :
  isPrefixOf (q ++ a) (q ++ b) = isPrefixOf a b.
Proof.
  induction q as [|k q IH]; simpl; [reflexivity |].
  rewrite Nat.eqb_refl. exact IH.
Qed.

(** Two text nodes between which no element is partially contained are
    children of the same element. *)
Lemma not_crossing_siblings (sc ec q : path) (i j : nat) (ps pe : path) :
  splitCommon sc ec = (q, i :: ps, j :: pe) ->
  crossesElement sc ec = false ->
  ps = [] /\ pe = [].
Proof.
  intros Hsp Hcr.
  destruct (splitCommon_spec _ _ _ _ _ Hsp) as (Es & Ee & Hne).
  unfold crossesElement in Hcr. apply negb_false_iff, andb_true_iff in Hcr.
  destruct Hcr as [H1 H2]. split.
  - destruct ps as [|p0 ps]; [reflexivity |]. exfalso.
    rewrite Es, Ee in H1.
    rewrite removelast_app in H1 by discriminate.
    rewrite isPrefixOf_app in H1. simpl in H1.
    destruct (Nat.eqb_spec i j); [contradiction | discriminate].
  - destruct pe as [|p0 pe]; [reflexivity |]. exfalso.
    rewrite Es, Ee in H2.
    rewrite removelast_app in H2 by discriminate.
    rewrite isPrefixOf_app in H2. simpl in H2.
    destruct (Nat.eqb_spec j i); [subst; contradiction | discriminate].
Qed.

Lemma mergeText_prefix (X L1 L2 : list node) :
  mergeText L1 = mergeText L2 -> mergeText (X ++ L1) = mergeText (X ++ L2).
Proof.
  intros H. induction X as [|c X IH]; [exact H |].
  destruct c as [[|x s] | t a ks]; simpl; rewrite IH; reflexivity.
Qed.

(** Two adjacent text nodes are merged like the one text node they come
    from. *)
Lemma mergeText_join (A B : jsString) (Y : list node) :
  mergeText (Text A :: Text B :: Y) = mergeText (Text (A ++ B) :: Y).
Proof.
  destruct A as [|a A]; [reflexivity |].
  destruct B as [|b B]; simpl.
  - rewrite app_nil_r. reflexivity.
  - destruct (mergeText Y) as [|[s' | t' a' ks'] rest]; simpl;
      rewrite <- ?app_assoc; reflexivity.
Qed.

Lemma replaceAt_same (q : path) :
  forall (n x : node), getNode q n = Some x -> replaceAt q x n = n.
Proof.
  induction q as [|i q IH]; intros n x H; simpl in *.
  - injection H as <-. reflexivity.
  - destruct n as [s | t a cs]; [discriminate |].
    destruct (nth_error cs i) as [c|] eqn:Hi; [| discriminate].
    rewrite (IH c x H). destruct (nth_error_parts _ _ _ Hi) as [E _].
    rewrite <- E. reflexivity.
Qed.

Lemma merge_two_splits (X mid Y : list node) (A1 B1 A2 C2 : jsString) :
  mergeText (map normalize ((X ++ [Text A1])
                            ++ (Text B1 :: mid ++ [Text A2])
                            ++ Text C2 :: Y))
  = mergeText (map normalize (X ++ Text (A1 ++ B1)
                                :: mid ++ Text (A2 ++ C2) :: Y)).
Proof.
  replace ((X ++ [Text A1]) ++ (Text B1 :: mid ++ [Text A2]) ++ Text C2 :: Y)
    with (X ++ Text A1 :: Text B1 :: mid ++ Text A2 :: Text C2 :: Y)
    by (rewrite <- !app_assoc; simpl; rewrite <- !app_assoc; reflexivity).
  rewrite !map_app. apply mergeText_prefix.
  cbn [map normalize]. rewrite mergeText_join, !map_app.
  apply (mergeText_prefix (Text (A1 ++ B1) :: map normalize mid)).
  cbn [map normalize]. apply mergeText_join.
Qed.

(** What [surroundContents] works on when no element is partially
    contained: the children of the common parent with the two boundary
    text nodes split, and nothing else changed. *)
Lemma surround_pieces (body : node) (r : range)
      (body1 : node) (frag : list node) (bp : path * nat) :
  isElement body = true ->
  (startContainer r = endContainer r -> (startOffset r <= endOffset r)%nat) ->
  crossesElement (startContainer r) (endContainer r) = false ->
  extractContents body r = Some (body1, frag, bp) ->
  exists (t : string) (a : attrs) (cs l1 l2 : list node),
    getNode (removelast (startContainer r)) body = Some (Elem t a cs)
    /\ (forall w, insertNode body1 bp w
                  = Some (replaceAt (removelast (startContainer r))
                                    (Elem t a (l1 ++ w :: l2)) body))
    /\ mergeText (map normalize (l1 ++ frag ++ l2)) = mergeText (map normalize cs)
    /\ (forall id, countIds id cs = 0%nat -> countIds id l1 = 0%nat).
Proof.
  intros Hbody Horder Hcross. unfold extractContents.
  destruct (path_eqb (startContainer r) (endContainer r)) eqn:Esame.
  - apply path_eqb_eq in Esame. specialize (Horder Esame).
    set (sc := startContainer r) in *. set (so := startOffset r) in *.
    set (eo := endOffset r) in *.
    destruct (getNode sc body) as [[s | ? ? ?]|] eqn:Hsc; try discriminate.
    intros H. injection H as <- <- <-.
    assert (Hne : sc <> []).
    { intros E. rewrite E in Hsc. simpl in Hsc. destruct body; discriminate. }
    destruct (getNode_parent _ _ _ Hne Hsc) as (t & a & cs & Hq & Hi).
    set (q := removelast sc) in *. set (i := last sc 0%nat) in *.
    assert (Esc : sc = q ++ [i]) by (apply app_removelast_last; exact Hne).
    destruct (nth_error_parts _ _ _ Hi) as [Ecs L].
    set (s' := firstn so s ++ skipn eo s).
    assert (Hbody1 : replaceAt sc (Text s') body
                     = replaceAt q (Elem t a (firstn i cs ++ Text s'
                                              :: skipn (S i) cs)) body).
    { rewrite Esc. apply (replaceAt_snoc _ _ _ _ _ _ _ _ Hq Hi). }
    exists t, a, cs, (firstn i cs ++ [Text (firstn so s')]),
           (Text (skipn so s') :: skipn (S i) cs).
    split; [exact Hq |]. split; [| split].
    + intros w. unfold insertNode.
      rewrite (getNode_replaceAt _ _ _ _ Hsc).
      rewrite (parentOf_nonempty _ Hne). fold q. fold i.
      rewrite Hbody1, (getNode_replaceAt _ _ _ _ Hq).
      rewrite (replaceAt_twice _ _ _ _ _ Hq).
      rewrite (firstn_middle _ _ _ L), (skipn_S_middle _ _ _ _ L).
      rewrite <- app_assoc. reflexivity.
    + set (X := firstn i cs) in *. set (Y := skipn (S i) cs) in *.
      rewrite Ecs. rewrite <- app_assoc, !map_app.
      apply mergeText_prefix. cbn [map app normalize].
      rewrite mergeText_join, mergeText_join, <- app_assoc.
      unfold s'. rewrite (cut_and_paste s so eo Horder). reflexivity.
    + intros id H0. rewrite Ecs, countIds_app, countIds_cons in H0.
      rewrite countIds_app, countIds_cons.
      change (countIds id []) with 0%nat.
      change (countId id (Text (firstn so s'))) with 0%nat. lia.
  - clear Horder.
    destruct (splitCommon (startContainer r) (endContainer r))
      as [[q ps] pe] eqn:Esp.
    destruct ps as [|i ps]; [discriminate |].
    destruct pe as [|j pe]; [discriminate |].
    destruct (not_crossing_siblings _ _ _ _ _ _ _ Esp Hcross) as [-> ->].
    destruct (splitCommon_spec _ _ _ _ _ Esp) as (Es & _ & _).
    assert (Eq : removelast (startContainer r) = q)
      by (rewrite Es; apply removelast_last).
    rewrite Eq.
    destruct (getNode q body) as [[s | t a cs]|] eqn:Hq; try discriminate.
    destruct (Nat.ltb_spec i j) as [Hlt | Hge]; [| discriminate].
    destruct (nth_error cs i) as [ci|] eqn:Hi; [| discriminate].
    destruct (nth_error cs j) as [cj|] eqn:Hj; [| discriminate].
    destruct ci as [s1 | ? ? ?]; [| discriminate].
    destruct cj as [s2 | ? ? ?]; [| discriminate].
    cbn [extractTail extractHead].
    intros H. injection H as <- <- <-.
    destruct (nth_error_parts _ _ _ Hi) as [_ L].
    pose proof (nth_error_two_parts _ _ _ _ _ Hi Hj Hlt) as Ecs.
    set (mid := firstn (j - S i) (skipn (S i) cs)) in *.
    set (so := startOffset r) in *. set (eo := endOffset r) in *.
    exists t, a, cs, (firstn i cs ++ [Text (firstn so s1)]),
      (Text (skipn eo s2) :: skipn (S j) cs).
    split; [reflexivity |]. split; [| split].
    + intros w. unfold insertNode.
      rewrite (getNode_replaceAt _ _ _ _ Hq).
      rewrite (replaceAt_twice _ _ _ _ _ Hq).
      cbn [app].
      assert (E1 : firstn (S i) (firstn i cs ++ Text (firstn so s1)
                                 :: Text (skipn eo s2) :: skipn (S j) cs)
                   = firstn i cs ++ [Text (firstn so s1)]).
      { change (firstn i cs ++ Text (firstn so s1)
                :: Text (skipn eo s2) :: skipn (S j) cs)
          with (firstn i cs ++ [Text (firstn so s1)]
                ++ Text (skipn eo s2) :: skipn (S j) cs).
        rewrite app_assoc. apply firstn_middle.
        rewrite length_app. simpl. lia. }
      rewrite E1, (skipn_S_middle _ _ _ _ L). reflexivity.
    + set (X := firstn i cs) in *. set (Y := skipn (S j) cs) in *.
      rewrite Ecs.
      etransitivity;
        [apply (merge_two_splits X mid Y (firstn so s1) (skipn so s1)
                  (firstn eo s2) (skipn eo s2)) |].
      rewrite !firstn_skipn. reflexivity.
    + intros id H0. rewrite Ecs, countIds_app in H0.
      rewrite countIds_app, countIds_cons.
      change (countIds id []) with 0%nat.
      change (countId id (Text (firstn so s1))) with 0%nat. lia.
Qed.

Lemma firstMatch_skip (f : node -> option path) (l1 l2 : list node)
      (w : node) (p : path) :
  (forall c, In c l1 -> f c = None) -> f w = Some p ->
  forall i, firstMatch f i (l1 ++ w :: l2) = Some ((i + List.length l1)%nat :: p).
Proof.
  intros Hnone Hw. induction l1 as [|c l1 IH]; intros i; simpl.
  - rewrite Hw, Nat.add_0_r. reflexivity.
  - rewrite (Hnone c) by (left; reflexivity).
    rewrite IH by (intros c' Hin; apply Hnone; right; exact Hin).
    f_equal. f_equal. lia.
Qed.

Lemma selectIn_none_list (id : string) (l : list node) :
  countIds id l = 0%nat -> forall c, In c l -> selectIn id c = None.
Proof.
  intros H c Hin. apply selectIn_None. exact (countIds_zero id l H c Hin).
Qed.

(** Where the lookup finds an element that was put into a tree without
    the id. *)
Lemma selectIn_replaceAt (id : string) (q : path) :
  forall (n : node) (t : string) (a : attrs) (cs l1 l2 : list node) (w : node),
    countId id n = 0%nat ->
    getNode q n = Some (Elem t a cs) ->
    countIds id l1 = 0%nat ->
    selectIn id w = Some [] ->
    selectIn id (replaceAt q (Elem t a (l1 ++ w :: l2)) n)
    = Some (q ++ [List.length l1]).
Proof.
  induction q as [|k q IH]; intros n t a cs l1 l2 w H0 Hq Hl1 Hw.
  - simpl in Hq. injection Hq as ->. rewrite countId_Elem in H0. simpl.
    destruct (hasId id a); [lia |].
    apply (firstMatch_skip (selectIn id) l1 l2 w []);
      [apply selectIn_none_list; exact Hl1 | exact Hw].
  - destruct n as [s | t0 a0 cs0]; [discriminate |]. simpl in Hq.
    simpl replaceAt.
    destruct (nth_error cs0 k) as [c|] eqn:Hk; [| discriminate].
    rewrite countId_Elem in H0.
    destruct (nth_error_parts _ _ _ Hk) as [E L].
    assert (H1 : countIds id (firstn k cs0) = 0%nat /\ countId id c = 0%nat).
    { assert (Hc : countIds id cs0 = 0%nat) by lia.
      rewrite E, countIds_app, countIds_cons in Hc. lia. }
    destruct H1 as [H1 H2]. simpl.
    destruct (hasId id a0); [lia |].
    rewrite (firstMatch_skip (selectIn id) (firstn k cs0) (skipn (S k) cs0)
               (replaceAt q (Elem t a (l1 ++ w :: l2)) c)
               (q ++ [List.length l1])).
    + rewrite L. reflexivity.
    + apply selectIn_none_list. exact H1.
    + apply (IH c t a cs); assumption.
Qed.

Lemma querySelector_replaceAt (id : string) (q : path) (body : node)
      (t : string) (a : attrs) (cs l1 l2 : list node) (w : node) :
  wrappersOf id body = 0%nat ->
  getNode q body = Some (Elem t a cs) ->
  countIds id l1 = 0%nat ->
  selectIn id w = Some [] ->
  querySelector id (replaceAt q (Elem t a (l1 ++ w :: l2)) body)
  = Some (q ++ [List.length l1]).
Proof.
  intros H0 Hq Hl1 Hw. destruct q as [|k q].
  - simpl in Hq. injection Hq as ->. simpl.
    apply (firstMatch_skip (selectIn id) l1 l2 w []);
      [apply selectIn_none_list; exact Hl1 | exact Hw].
  - destruct body as [s | t0 a0 cs0]; [discriminate |]. simpl in Hq.
    simpl replaceAt.
    destruct (nth_error cs0 k) as [c|] eqn:Hk; [| discriminate].
    unfold wrappersOf in H0. fold (countIds id cs0) in H0.
    destruct (nth_error_parts _ _ _ Hk) as [E L].
    assert (H1 : countIds id (firstn k cs0) = 0%nat /\ countId id c = 0%nat).
    { rewrite E, countIds_app, countIds_cons in H0. lia. }
    destruct H1 as [H1 H2]. simpl.
    rewrite (firstMatch_skip (selectIn id) (firstn k cs0) (skipn (S k) cs0)
               (replaceAt q (Elem t a (l1 ++ w :: l2)) c)
               (q ++ [List.length l1])).
    + rewrite L. reflexivity.
    + apply selectIn_none_list. exact H1.
    + apply (selectIn_replaceAt id q c t a cs); assumption.
Qed.

(** X18.  After [surroundContents], unwrapping gives the document
    back.  When the resolved range of an anchor has no partially
    contained element (its two boundary text nodes have the same parent,
    so the wrapper is made by [surroundContents]) and that parent is
    normalized (below it no text node is empty and no two text nodes are
    adjacent), applying the wrapper and deleting the highlight again
    leaves the very same tree: the same nodes with the same tags,
    attributes and data, not only the same text. *)
Theorem unwrap_restores_document :
  forall (body : node) (h : highlight) (r : range) (parent : node),
    createRangeFromHighlight body h = Some r ->
    crossesElement (startContainer r) (endContainer r) = false ->
    getNode (removelast (startContainer r)) body = Some parent ->
    normalize parent = parent ->
    removeHighlightElement
      (applyHighlight body r (Highlight.id h) (Highlight.color h))
      (Highlight.id h)
    = body
    /\ roundTrip h body = body.
Proof.
  intros body h r parent Hr Hcross Hparent Hnorm.
  assert (Hmain : removeHighlightElement
                    (applyHighlight body r (Highlight.id h) (Highlight.color h))
                    (Highlight.id h) = body).
  { destruct (createRangeFromHighlight_Some _ _ _ Hr) as [Hfresh Hfind].
    destruct (resolved_range_ok _ _ _ _ _ Hfind) as (Hbody & Hord & Hcol & Hex).
    apply querySelector_None in Hfresh.
    destruct (extractContents body r) as [[[body1 frag] bp]|] eqn:E;
      [| congruence].
    destruct (surround_pieces body r body1 frag bp Hbody Hord Hcross E)
      as (t & a & cs & l1 & l2 & Hq & Hins & Hmerge & Hcount).
    set (q := removelast (startContainer r)) in *.
    set (id := Highlight.id h) in *. set (color := Highlight.color h) in *.
    rewrite Hq in Hparent. injection Hparent as <-.
    assert (Hcs : countIds id cs = 0%nat).
    { pose proof (wrappersOf_below id q body _ Hq) as Hle.
      unfold wrappersOf in Hle at 1. fold (countIds id cs) in Hle. lia. }
    specialize (Hcount id Hcs).
    set (w := mkWrapper id color frag).
    assert (Happ : applyHighlight body r id color
                   = replaceAt q (Elem t a (l1 ++ w :: l2)) body).
    { unfold applyHighlight, surroundContents.
      rewrite Hcol, Hcross, E. unfold w. rewrite Hins. reflexivity. }
    rewrite Happ.
    assert (Hw : selectIn id w = Some []).
    { unfold w, mkWrapper. simpl. rewrite hasId_wrapper, String.eqb_refl.
      reflexivity. }
    unfold removeHighlightElement.
    rewrite (querySelector_replaceAt id q body t a cs l1 l2 w
               Hfresh Hq Hcount Hw).
    rewrite parentOf_nonempty by (destruct q; discriminate).
    rewrite removelast_last, last_last.
    rewrite getNode_snoc, (getNode_replaceAt _ _ _ _ Hq).
    rewrite (nth_error_middle l1 l2 w (List.length l1) eq_refl).
    unfold w at 1, mkWrapper.
    rewrite (firstn_middle l1 (w :: l2) (List.length l1) eq_refl).
    rewrite (skipn_S_middle l1 l2 w (List.length l1) eq_refl).
    rewrite (replaceAt_twice _ _ _ _ _ Hq).
    cbn [normalize]. rewrite Hmerge.
    change (Elem t a (mergeText (map normalize cs)))
      with (normalize (Elem t a cs)).
    rewrite Hnorm. apply replaceAt_same. exact Hq. }
  split; [exact Hmain |].
  unfold roundTrip. rewrite Hr. exact Hmain.
Qed.

(** "cat" in the first paragraph of [twoCats]. *)
Lemma unwrap_restores_document_witness :
  roundTrip (mkHighlight "hl-1" (lit "cat") None None
                         "https://example.org/" 4 7 "#ffeb3b")
            Demo.twoCats
  = Demo.twoCats.
Proof.
  apply (proj2 (unwrap_restores_document Demo.twoCats
                  (mkHighlight "hl-1" (lit "cat") None None
                               "https://example.org/" 4 7 "#ffeb3b")
                  (mkRange [0; 0]%nat 4 [0; 0]%nat 7)
                  (el "p" [txt "the cat sat"])
                  eq_refl eq_refl eq_refl eq_refl)).
Defined.

(* ===================================================================== *)
(** ** Trimmed text and untrimmed offsets *)
(* ===================================================================== *)

Lemma trimStart_suffix (s : jsString) : exists w, s = w ++ trimStart s.
Proof.
  induction s as [|c s [w IH]]; [exists []; reflexivity |]. simpl.
  destruct (isWhiteSpace c).
  - exists (c :: w). simpl. rewrite <- IH. reflexivity.
  - exists []. reflexivity.
Qed.

Lemma trimStart_head (s : jsString) (d : N) (u : jsString) :
  trimStart s = d :: u -> isWhiteSpace d = false.
Proof.
  induction s as [|c s IH]; simpl; [discriminate |].
  destruct (isWhiteSpace c) eqn:E; [exact IH |].
  intros H. injection H as <- _. exact E.
Qed.

Lemma trimStart_cases (s : jsString) :
  trimStart s = s
  \/ exists c s', s = c :: s' /\ isWhiteSpace c = true.
Proof.
  destruct s as [|c s]; [left; reflexivity |]. simpl.
  destruct (isWhiteSpace c) eqn:E; [right; exists c, s; auto | left; reflexivity].
Qed.

Lemma trimStart_snoc (l : jsString) (d : N) :
  isWhiteSpace d = false -> exists t, trimStart (l ++ [d]) = t ++ [d].
Proof.
  intros Hd. induction l as [|c l [t IH]]; simpl.
  - rewrite Hd. exists []. reflexivity.
  - destruct (isWhiteSpace c); [exists t; exact IH |].
    exists (c :: l). reflexivity.
Qed.

Lemma trimEnd_prefix (u : jsString) : exists w, u = trimEnd u ++ w.
Proof.
  unfold trimEnd. destruct (trimStart_suffix (rev u)) as [w Hw].
  exists (rev w). rewrite <- rev_app_distr, <- Hw. symmetry. apply rev_involutive.
Qed.

Lemma trimEnd_head (d : N) (u : jsString) :
  isWhiteSpace d = false -> exists rest, trimEnd (d :: u) = d :: rest.
Proof.
  intros Hd. unfold trimEnd. simpl rev.
  destruct (trimStart_snoc (rev u) d Hd) as [t Ht].
  rewrite Ht, rev_app_distr. exists (rev t). reflexivity.
Qed.

Lemma contiguous_split (runs : list run) :
  forall (from : Z) (x : run),
    contiguous from runs -> In x runs ->
    exists pre post,
      flat_map NodeInfo.text runs = pre ++ NodeInfo.text x ++ post
      /\ from + len pre = NodeInfo.startOffset x.
Proof.
  induction runs as [|r0 runs IH]; intros from x Hc Hin; [destruct Hin |].
  destruct Hc as (Hs & He & Hc). simpl flat_map.
  destruct Hin as [<- | Hin].
  - exists [], (flat_map NodeInfo.text runs). split; [reflexivity |].
    unfold len. simpl. lia.
  - destruct (IH _ x Hc Hin) as (pre & post & E & Hl).
    exists (NodeInfo.text r0 ++ pre), post. split.
    + rewrite E, <- app_assoc. reflexivity.
    + rewrite len_app. lia.
Qed.

Lemma substring_inside (pre T post : jsString) (so n : nat) :
  (so + n <= List.length T)%nat ->
  substring (pre ++ T ++ post) (len pre + Z.of_nat so)
            (len pre + Z.of_nat so + Z.of_nat n)
  = firstn n (skipn so T).
Proof.
  intros H. unfold len.
  replace (Z.of_nat (List.length pre) + Z.of_nat so)
    with (Z.of_nat (List.length pre + so)) by lia.
  replace (Z.of_nat (List.length pre + so) + Z.of_nat n)
    with (Z.of_nat (List.length pre + so + n)) by lia.
  rewrite substring_exact by (rewrite !length_app; lia).
  replace (List.length pre + so + n - (List.length pre + so))%nat with n by lia.
  rewrite skipn_app, skipn_all2 by lia.
  replace (List.length pre + so - List.length pre)%nat with so by lia.
  rewrite app_nil_l, skipn_app, firstn_app.
  replace (n - List.length (skipn so T))%nat with 0%nat
    by (rewrite length_skipn; lia).
  rewrite firstn_0, app_nil_r. reflexivity.
Qed.

Lemma createHighlightFromText_found (body : node) (r : range) (text : jsString)
      (color id url : string) (textNodes : list run) (fullText : jsString)
      (startOffset endOffset : Z) :
  text <> [] ->
  linearizeCapture body = (textNodes, fullText) ->
  findStart textNodes r text = (startOffset, endOffset) ->
  createHighlightFromText body r text color id url
  = Some (mkHighlight id text
            (Some (substring fullText (Z.max 0 (startOffset - contextLength))
                             startOffset))
            (Some (substring fullText endOffset
                             (Z.min (len fullText) (endOffset + contextLength))))
            url startOffset endOffset color).
Proof.
  intros Htext Hlin Hf. unfold createHighlightFromText.
  destruct text as [|c t]; [congruence |]. rewrite Hlin, Hf. reflexivity.
Qed.

(** X19.  The menu stores the text of the selection trimmed, but takes
    the offsets from the range as it is.  For a selection inside one run
    whose trimmed text is not empty: the record holds the trimmed text
    and the offset of the start of the range in the linear text.  When
    the selection does not begin with white space, the linear text holds
    the stored text at the stored offsets (white space at the end of the
    selection does no harm).  When it begins with white space, it does
    not: the stored offsets, and the two context strings that are cut at
    them, are those of a span that starts before the stored text. *)
Theorem selection_offsets_alignment :
  forall (body : node) (r : range) (color id url : string)
         (textNodes : list run) (fullText : jsString) (x : run) (s : jsString),
    linearizeCapture body = (textNodes, fullText) ->
    In x textNodes ->
    NodeInfo.node x = startContainer r ->
    startContainer r = endContainer r ->
    (startOffset r <= endOffset r <= List.length (NodeInfo.text x))%nat ->
    rangeToString body r = Some s ->
    trim s <> [] ->
    exists h : highlight,
      showSelectionMenu body r color id url = Some h
      /\ Highlight.text h = trim s
      /\ Highlight.startOffset h
         = NodeInfo.startOffset x + Z.of_nat (startOffset r)
      /\ (trimStart s = s ->
          substring fullText (Highlight.startOffset h) (Highlight.endOffset h)
          = Highlight.text h)
      /\ (trimStart s <> s ->
          substring fullText (Highlight.startOffset h) (Highlight.endOffset h)
          <> Highlight.text h).
Proof.
  intros body r color id url textNodes fullText x s
         Hlin Hx Hnode Hsame Hoff Hstr Htrim.
  destruct (linearize_spec acceptCapture body textNodes fullText Hlin)
    as (Hcont & Hfull & Hn & _).
  assert (Hnd : NoDup (map NodeInfo.node textNodes))
    by (rewrite Hn; apply walk_NoDup).
  destruct (runs_spec acceptCapture body textNodes fullText Hlin x Hx)
    as (_ & Hget & _).
  set (T := NodeInfo.text x) in *.
  set (so := startOffset r) in *. set (eo := endOffset r) in *.
  (* the text of the range *)
  assert (Es : s = firstn (eo - so) (skipn so T)).
  { unfold rangeToString in Hstr. rewrite <- Hsame, path_eqb_refl in Hstr.
    rewrite <- Hnode, Hget in Hstr. injection Hstr as <-. reflexivity. }
  assert (Ls : List.length s = (eo - so)%nat)
    by (rewrite Es, length_firstn, length_skipn; lia).
  assert (Hskip : skipn so T = s ++ skipn (eo - so) (skipn so T))
    by (rewrite Es; symmetry; apply firstn_skipn).
  (* the trimmed text *)
  set (t := trim s) in *.
  destruct (trimStart_suffix s) as [w1 Hw1].
  destruct (trimEnd_prefix (trimStart s)) as [w2 Hw2]. fold (trim s) in Hw2.
  fold t in Hw2.
  assert (Lt : (List.length t <= List.length s)%nat).
  { rewrite Hw1, Hw2, !length_app. lia. }
  (* the record *)
  pose proof (findStart_found textNodes r t x Hnd Hx Hnode) as Ef.
  fold so in Ef.
  destruct (contiguous_split textNodes 0 x Hcont Hx) as (pre & post & Eft & Hpre).
  fold T in Eft. rewrite <- Hfull in Eft.
  set (h := mkHighlight id t
              (Some (substring fullText
                       (Z.max 0 (NodeInfo.startOffset x + Z.of_nat so
                                 - contextLength))
                       (NodeInfo.startOffset x + Z.of_nat so)))
              (Some (substring fullText
                       (NodeInfo.startOffset x + Z.of_nat so + len t)
                       (Z.min (len fullText)
                              (NodeInfo.startOffset x + Z.of_nat so + len t
                               + contextLength))))
              url (NodeInfo.startOffset x + Z.of_nat so)
              (NodeInfo.startOffset x + Z.of_nat so + len t) color).
  exists h.
  assert (Hsub : substring fullText (Highlight.startOffset h) (Highlight.endOffset h)
                 = firstn (List.length t) (skipn so T)).
  { unfold h. cbn [Highlight.startOffset Highlight.endOffset].
    rewrite Eft, <- Hpre. unfold len at 3.
    replace (0 + len pre + Z.of_nat so) with (len pre + Z.of_nat so) by lia.
    apply substring_inside. lia. }
  split; [| split; [reflexivity | split; [reflexivity | split]]].
  - unfold showSelectionMenu. rewrite Hstr. fold t.
    apply (createHighlightFromText_found body r t color id url
             textNodes fullText _ _ Htrim Hlin Ef).
  - intros Hid. rewrite Hsub. cbn [Highlight.text h].
    rewrite Hid in Hw2. rewrite Hskip, Hw2 at 1.
    rewrite <- app_assoc.
    apply firstn_middle. reflexivity.
  - intros Hne. rewrite Hsub. cbn [Highlight.text h].
    destruct (trimStart_cases s) as [E | (c & s' & Ec & Hc)]; [contradiction |].
    rewrite Hskip, Ec.
    destruct (trimStart s) as [|d u] eqn:Ets.
    + exfalso. apply Htrim. unfold t, trim. rewrite Ets. reflexivity.
    + pose proof (trimStart_head s d u Ets) as Hd.
      destruct (trimEnd_head d u Hd) as [rest Hrest].
      assert (Et : t = d :: rest) by (unfold t, trim; rewrite Ets; exact Hrest).
      rewrite Et. cbn [List.length app]. rewrite firstn_cons.
      intros H. injection H as H _. subst d. congruence.
Qed.

(** " cat" selected in the second paragraph of [twoCats], with the
    space before it: the record holds "cat" with the offset of the
    space, and what the linear text holds there is " ca". *)
Lemma selection_offsets_alignment_witness :
  exists h : highlight,
    showSelectionMenu Demo.twoCats (mkRange [1; 0]%nat 1 [1; 0]%nat 5)
                      "#ffeb3b" "hl-1" "https://example.org/"
    = Some h
    /\ Highlight.text h = lit "cat"
    /\ substring (lit "the cat sata cat ran")
                 (Highlight.startOffset h) (Highlight.endOffset h)
       <> Highlight.text h.
Proof.
  destruct (selection_offsets_alignment Demo.twoCats
              (mkRange [1; 0]%nat 1 [1; 0]%nat 5)
              "#ffeb3b" "hl-1" "https://example.org/"
              [mkRun [0; 0]%nat 0 11 (lit "the cat sat");
               mkRun [1; 0]%nat 11 20 (lit "a cat ran")]
              (lit "the cat sata cat ran")
              (mkRun [1; 0]%nat 11 20 (lit "a cat ran"))
              (lit " cat"))
    as (h & Hm & Ht & _ & _ & Hmis).
  - reflexivity.
  - right. left. reflexivity.
  - reflexivity.
  - reflexivity.
  - vm_compute. lia.
  - reflexivity.
  - discriminate.
  - exists h. split; [exact Hm |]. split; [exact Ht |].
    apply Hmis. discriminate.
Defined.

(* ===================================================================== *)
(** ** The popup: dates *)
(* ===================================================================== *)

Lemma ago_text (n : Z) (unit : string) :
  Popup.ago n unit
  = if n =? 1 then ("1 " ++ unit ++ " ago")%string
    else (NilZero.string_of_int (Z.to_int n) ++ " " ++ unit ++ "s ago")%string.
Proof.
  unfold Popup.ago, Popup.decimal.
  destruct (Z.eqb_spec n 1) as [-> | _]; reflexivity.
Qed.

(** X20.  The age that a card shows.  With [d] the milliseconds
    between the date of the highlight and now: "Just now" below one
    minute, also for a date in the future; whole minutes from 1 to 59
    below one hour, "1 min ago" or "n mins ago"; whole hours from 1 to
    23 below one day, "1 hour ago" or "n hours ago"; whole days from 1
    to 6 below one week, "1 day ago" or "n days ago"; the date itself
    from one week on.  The count is in decimal and never 0, and the unit
    is in the singular exactly for 1. *)
Theorem formatDate_labels :
  forall now date : Z,
    let d := now - date in
    let count := fun n : Z => NilZero.string_of_int (Z.to_int n) in
    (d < 60000 -> Popup.formatDate now date = Popup.Relative "Just now")
    /\ (60000 <= d < 3600000 ->
        1 <= d / 60000 <= 59
        /\ Popup.formatDate now date
           = Popup.Relative
               (if Z.eqb (d / 60000) 1 then "1 min ago"%string
                else (count (d / 60000) ++ " mins ago")%string))
    /\ (3600000 <= d < 86400000 ->
        1 <= d / 3600000 <= 23
        /\ Popup.formatDate now date
           = Popup.Relative
               (if Z.eqb (d / 3600000) 1 then "1 hour ago"%string
                else (count (d / 3600000) ++ " hours ago")%string))
    /\ (86400000 <= d < 604800000 ->
        1 <= d / 86400000 <= 6
        /\ Popup.formatDate now date
           = Popup.Relative
               (if Z.eqb (d / 86400000) 1 then "1 day ago"%string
                else (count (d / 86400000) ++ " days ago")%string))
    /\ (604800000 <= d -> Popup.formatDate now date = Popup.LocaleDate)
    /\ Popup.formatDate 3540000 0 = Popup.Relative "59 mins ago"
    /\ Popup.formatDate 3600000 0 = Popup.Relative "1 hour ago"
    /\ Popup.formatDate 82800000 0 = Popup.Relative "23 hours ago"
    /\ Popup.formatDate 172800000 0 = Popup.Relative "2 days ago".
Proof.
  intros now date d count. unfold Popup.formatDate. fold d.
  rewrite !ago_text.
  assert (Hm : forall k, d < 60000 * k -> d / 60000 < k)
    by (intros k H; apply Z.div_lt_upper_bound; lia).
  assert (Hm' : forall k, 60000 * k <= d -> k <= d / 60000)
    by (intros k H; apply Z.div_le_lower_bound; lia).
  assert (Hh : forall k, d < 3600000 * k -> d / 3600000 < k)
    by (intros k H; apply Z.div_lt_upper_bound; lia).
  assert (Hh' : forall k, 3600000 * k <= d -> k <= d / 3600000)
    by (intros k H; apply Z.div_le_lower_bound; lia).
  assert (Hd : forall k, d < 86400000 * k -> d / 86400000 < k)
    by (intros k H; apply Z.div_lt_upper_bound; lia).
  assert (Hd' : forall k, 86400000 * k <= d -> k <= d / 86400000)
    by (intros k H; apply Z.div_le_lower_bound; lia).
  split; [| split; [| split; [| split; [| split]]]].
  - intros H. specialize (Hm 1 ltac:(lia)).
    destruct (Z.ltb_spec (d / 60000) 1); [reflexivity | lia].
  - intros H. specialize (Hm 60 ltac:(lia)). specialize (Hm' 1 ltac:(lia)).
    split; [lia |].
    destruct (Z.ltb_spec (d / 60000) 1); [lia |].
    destruct (Z.ltb_spec (d / 60000) 60); [reflexivity | lia].
  - intros H. specialize (Hm' 60 ltac:(lia)).
    specialize (Hh 24 ltac:(lia)). specialize (Hh' 1 ltac:(lia)).
    split; [lia |].
    destruct (Z.ltb_spec (d / 60000) 1); [lia |].
    destruct (Z.ltb_spec (d / 60000) 60); [lia |].
    destruct (Z.ltb_spec (d / 3600000) 24); [reflexivity | lia].
  - intros H. specialize (Hm' 60 ltac:(lia)). specialize (Hh' 24 ltac:(lia)).
    specialize (Hd 7 ltac:(lia)). specialize (Hd' 1 ltac:(lia)).
    split; [lia |].
    destruct (Z.ltb_spec (d / 60000) 1); [lia |].
    destruct (Z.ltb_spec (d / 60000) 60); [lia |].
    destruct (Z.ltb_spec (d / 3600000) 24); [lia |].
    destruct (Z.ltb_spec (d / 86400000) 7); [reflexivity | lia].
  - intros H. specialize (Hm' 60 ltac:(lia)). specialize (Hh' 24 ltac:(lia)).
    specialize (Hd' 7 ltac:(lia)).
    destruct (Z.ltb_spec (d / 60000) 1); [lia |].
    destruct (Z.ltb_spec (d / 60000) 60); [lia |].
    destruct (Z.ltb_spec (d / 3600000) 24); [lia |].
    destruct (Z.ltb_spec (d / 86400000) 7); [lia | reflexivity].
  - repeat split; reflexivity.
Qed.
